(** * Flashcard generator: tokenizer, deduplicator and PDF encoder

    A shallow embedding of the module that the application imports as
    [@/lib/flashcards] (source file [src/unnamed/part_000]: parseFlashcards,
    buildFlashcardsFromParsed, canonicalKey, createId) and of the PDF export
    of the study panel component (source file [src/unnamed/part_001]:
    sanitizeTextValue, breakWordIntoSegments, segmentSanitizedText,
    wrapLongLine, wrapWithPrefix, escapePdfText, createFlashcardsPdfBlob),
    with the properties the specification states about them; then of the
    rest of the two files (hydrateStoredSets, migrateLegacyCards, orderSets,
    getSetMonogram, getCardCountLabel; toSafeFileName and the file name of
    handleDownloadClick) and of the import of the home page (source file
    [src/unnamed/part_005]: handleGenerate), with properties read off the
    code.

    JavaScript strings are sequences of UTF-16 code units; they are modelled
    as lists of [N].  The regular expressions of the program are syntax
    trees, run by a backtracking matcher.  Everything the program reads from
    its environment (random identifiers, the wall clock, the presence of
    [TextEncoder]) is an explicit argument. *)

From Stdlib Require Import List NArith ZArith Lia Bool Ascii String DecimalNat.
From stdpp Require Import base gmap sets list.
Import ListNotations.

Open Scope N_scope.

(** ** JavaScript strings *)

Module Js.

Definition jsString := list N.

(** Source literals are written as Rocq strings and read as code units. *)
Fixpoint lit (s : string) : jsString :=
  match s with
  | EmptyString => []
  | String a r => N_of_ascii a :: lit r
  end.

Arguments lit _ : simpl never.

(** Truthiness of a string: [!s] holds exactly for the empty string. *)
Definition isEmpty (s : jsString) : bool :=
  match s with [] => true | _ => false end.

(** LineTerminator: LF, CR, LS, PS.  The regular expression atom [.] matches
    every code unit but these, and [^] under the [m] flag matches after them. *)
Definition isLineTerminator (c : N) : bool :=
  (c =? 10) || (c =? 13) || (c =? 8232) || (c =? 8233).

(** The class [\s] of regular expressions, which is also what
    [String.prototype.trim] removes: WhiteSpace and LineTerminator. *)
Definition isWhiteSpace (c : N) : bool :=
  ((9 <=? c) && (c <=? 13)) || (c =? 32) || (c =? 160) || (c =? 5760)
  || ((8192 <=? c) && (c <=? 8202)) || (c =? 8232) || (c =? 8233)
  || (c =? 8239) || (c =? 8287) || (c =? 12288) || (c =? 65279).

(** The class [\d]. *)
Definition isDigit (c : N) : bool := (48 <=? c) && (c <=? 57).

Fixpoint trimStart (s : jsString) : jsString :=
  match s with
  | [] => []
  | c :: r => if isWhiteSpace c then trimStart r else s
  end.

Fixpoint trimEnd (s : jsString) : jsString :=
  match s with
  | [] => []
  | c :: r =>
      match trimEnd r with
      | [] => if isWhiteSpace c then [] else [c]
      | r' => c :: r'
      end
  end.

Definition trim (s : jsString) : jsString := trimStart (trimEnd s).

(** [parts.join(sep)] *)
Fixpoint join (sep : jsString) (parts : list jsString) : jsString :=
  match parts with
  | [] => []
  | [p] => p
  | p :: rest => p ++ sep ++ join sep rest
  end.

(** [s.split(sep)] for a separator of one code unit; the empty string splits
    into one empty piece. *)
Fixpoint split (sep : N) (s : jsString) : list jsString :=
  match s with
  | [] => [[]]
  | c :: r =>
      if c =? sep then [] :: split sep r
      else match split sep r with
           | p :: ps => (c :: p) :: ps
           | [] => [[c]]
           end
  end.

(** The longest prefix of code units in a class, and what follows it: a
    greedy [\s*] or [\d*]. *)
Fixpoint span (p : N -> bool) (s : jsString) : jsString * jsString :=
  match s with
  | [] => ([], [])
  | c :: r => if p c then let '(a, b) := span p r in (c :: a, b) else ([], s)
  end.

(** [String(n)] for a non-negative integer. *)
Fixpoint uintChars (d : Decimal.uint) : jsString :=
  match d with
  | Decimal.Nil => []
  | Decimal.D0 r => 48 :: uintChars r
  | Decimal.D1 r => 49 :: uintChars r
  | Decimal.D2 r => 50 :: uintChars r
  | Decimal.D3 r => 51 :: uintChars r
  | Decimal.D4 r => 52 :: uintChars r
  | Decimal.D5 r => 53 :: uintChars r
  | Decimal.D6 r => 54 :: uintChars r
  | Decimal.D7 r => 55 :: uintChars r
  | Decimal.D8 r => 56 :: uintChars r
  | Decimal.D9 r => 57 :: uintChars r
  end.

Definition decimal (n : nat) : jsString := uintChars (Nat.to_uint n).

(** [s.padStart(width, fill)] for a fill of one code unit. *)
Definition padStart (width : nat) (fill : N) (s : jsString) : jsString :=
  repeat fill (width - length s) ++ s.

(** [TextEncoder.prototype.encode]: UTF-8 of the code units, a surrogate
    pair giving one four-byte sequence and a lone surrogate U+FFFD. *)
Definition isHighSurrogate (c : N) : bool := (55296 <=? c) && (c <=? 56319).
Definition isLowSurrogate (c : N) : bool := (56320 <=? c) && (c <=? 57343).

Definition utf8Scalar (cp : N) : list N :=
  if cp <? 128 then [cp]
  else if cp <? 2048 then
    [N.lor 192 (N.shiftr cp 6); N.lor 128 (N.land cp 63)]
  else if cp <? 65536 then
    [N.lor 224 (N.shiftr cp 12); N.lor 128 (N.land (N.shiftr cp 6) 63);
     N.lor 128 (N.land cp 63)]
  else
    [N.lor 240 (N.shiftr cp 18); N.lor 128 (N.land (N.shiftr cp 12) 63);
     N.lor 128 (N.land (N.shiftr cp 6) 63); N.lor 128 (N.land cp 63)].

Fixpoint utf8Encode (s : jsString) : list N :=
  match s with
  | [] => []
  | c :: r =>
      if isHighSurrogate c then
        match r with
        | d :: r' =>
            if isLowSurrogate d
            then utf8Scalar (65536 + (c - 55296) * 1024 + (d - 56320))
                   ++ utf8Encode r'
            else [239; 191; 189] ++ utf8Encode r
        | [] => [239; 191; 189]
        end
      else if isLowSurrogate c then [239; 191; 189] ++ utf8Encode r
      else utf8Scalar c ++ utf8Encode r
  end.

End Js.

Import Js.

(** ** Regular expressions

    The regular expressions of the program, as syntax trees, and the
    backtracking matcher of the language for them: [String.prototype.match]
    without the flag [g] and [String.prototype.replace] with it. *)

Module Regex.

(** The patterns the program uses: classes of code units, concatenation,
    ordered alternation, the greedy star of a class, one capturing group and
    the two assertions. *)
Inductive pattern :=
| Epsilon
| Unit (class : N -> bool)
| Then (a b : pattern)
| Or (a b : pattern)
| Many (class : N -> bool)
| Group (a : pattern)
| LineStart
| InputEnd.

(** [^]: at the start of the input, and under the flag [m] also after a
    line terminator.  [before] is the code unit before the position. *)
Definition atStart (multiline : bool) (before : option N) : bool :=
  match before with
  | None => true
  | Some c => multiline && isLineTerminator c
  end.

Section Matcher.

Context {A : Type}.
Variable multiline : bool.

(** The greedy star: the longest run first, then one code unit less, and so
    on, until the rest of the pattern, [k], succeeds. *)
Fixpoint many (class : N -> bool) (before : option N) (s : jsString)
  (k : option N -> jsString -> option A) : option A :=
  match s with
  | c :: r =>
      if class c then
        match many class (Some c) r k with
        | Some x => Some x
        | None => k before s
        end
      else k before s
  | [] => k before s
  end.

(** Backtracking matching: [k] is the rest of the pattern, called with the
    code unit before the position reached, the input left and the text of
    the group. *)
Fixpoint run (p : pattern) (before : option N) (s : jsString)
  (group : option jsString)
  (k : option N -> jsString -> option jsString -> option A) : option A :=
  match p with
  | Epsilon => k before s group
  | Unit class =>
      match s with
      | c :: r => if class c then k (Some c) r group else None
      | [] => None
      end
  | Then a b => run a before s group (fun before' s' g => run b before' s' g k)
  | Or a b =>
      match run a before s group k with
      | Some x => Some x
      | None => run b before s group k
      end
  | Many class => many class before s (fun before' s' => k before' s' group)
  | Group a =>
      run a before s group
        (fun before' s' _ =>
           k before' s' (Some (firstn (length s - length s') s)))
  | LineStart => if atStart multiline before then k before s group else None
  | InputEnd =>
      match s with
      | [] => k before s group
      | c :: _ => if multiline && isLineTerminator c then k before s group
                  else None
      end
  end.

End Matcher.

(** The end of a match in an input of [total] code units: how many of them
    the match takes, and the text of the group. *)
Definition final (total : nat) (before : option N) (s' : jsString)
  (group : option jsString) : option (nat * option jsString) :=
  Some ((total - length s')%nat, group).

(** One match at the position. *)
Definition matchHere (multiline : bool) (p : pattern) (before : option N)
  (s : jsString) : option (nat * option jsString) :=
  run multiline p before s None (final (length s)).

(** [s.match(p)] for a pattern without the flag [g]: the first position at
    which the pattern matches; group 1 of that match. *)
Fixpoint firstMatchFrom (multiline : bool) (p : pattern) (before : option N)
  (s : jsString) : option (option jsString) :=
  match matchHere multiline p before s with
  | Some (_, g) => Some g
  | None =>
      match s with
      | [] => None
      | c :: r => firstMatchFrom multiline p (Some c) r
      end
  end.

Definition matchGroup (p : pattern) (s : jsString) : option jsString :=
  match firstMatchFrom false p None s with
  | Some (Some g) => Some g
  | _ => None
  end.

(** [s.replace(p, replacement)] for a pattern with the flag [g] and a
    replacement without [$]: the matches from left to right, each search
    starting where the match before ended, one code unit further after an
    empty match.  [skip] counts the code units of the current match still to
    be dropped. *)
Fixpoint replaceFrom (multiline : bool) (p : pattern)
  (replacement : jsString) (before : option N) (skip : nat) (s : jsString)
  : jsString :=
  match s with
  | [] =>
      match skip, matchHere multiline p before [] with
      | O, Some _ => replacement
      | _, _ => []
      end
  | c :: r =>
      match skip with
      | S k => replaceFrom multiline p replacement (Some c) k r
      | O =>
          match matchHere multiline p before s with
          | Some (S k, _) =>
              replacement ++ replaceFrom multiline p replacement (Some c) k r
          | Some (O, _) =>
              replacement
              ++ c :: replaceFrom multiline p replacement (Some c) 0 r
          | None => c :: replaceFrom multiline p replacement (Some c) 0 r
          end
      end
  end.

Definition replaceAll (multiline : bool) (p : pattern)
  (replacement s : jsString) : jsString :=
  replaceFrom multiline p replacement None 0 s.

(** [\s], [\d], the class of the dot, and one given code unit. *)
Definition space : pattern := Unit isWhiteSpace.
Definition digit : pattern := Unit isDigit.
Definition notTerminator (c : N) : bool := negb (isLineTerminator c).
Definition code (c : N) : pattern := Unit (N.eqb c).

(** Case-insensitive comparison with an ASCII letter of the pattern (flag
    [i] without [u]): both sides are canonicalised to upper case, and no code
    unit above 127 canonicalises to an ASCII one. *)
Definition canonicalize (c : N) : N :=
  if (97 <=? c) && (c <=? 122) then c - 32 else c.

Definition letter (c : N) : pattern :=
  Unit (fun x => canonicalize x =? canonicalize c).

(** A word of the pattern under the flag [i]. *)
Fixpoint word (w : jsString) : pattern :=
  match w with
  | [] => Epsilon
  | c :: r => Then (letter c) (word r)
  end.

End Regex.

(** ** lib/flashcards.ts *)

Module Flashcards.

Import Regex.

Record ParsedFlashcard := mkParsed { pQuestion : jsString; pAnswer : jsString }.

Record Flashcard := mkCard {
  id : jsString;
  question : jsString;
  answer : jsString;
  learned : bool
}.

(** A [Flashcard] passed where a [ParsedFlashcard] is expected is read through
    its [question] and [answer] fields. *)
Definition asParsed (c : Flashcard) : ParsedFlashcard :=
  mkParsed (question c) (answer c).

(** *** parseFlashcards *)

(** [/\r\n?/] *)
Definition newlinePattern : pattern :=
  Then (code 13) (Or (code 10) Epsilon).

(** [raw.replace(/\r\n?/g, "\n")] *)
Definition normalizeNewlines (raw : jsString) : jsString :=
  Regex.replaceAll false newlinePattern [10] raw.

(** [/^\s*\d+\.\s*/] *)
Definition ordinalPattern : pattern :=
  Then LineStart
    (Then (Many isWhiteSpace)
       (Then digit (Then (Many isDigit)
          (Then (code 46) (Many isWhiteSpace))))).

(** [.replace(/^\s*\d+\.\s*/gm, "")] *)
Definition stripOrdinals (s : jsString) : jsString :=
  Regex.replaceAll true ordinalPattern [] s.

(** [/^(?:Q|Question)\s*:\s*(.+)$/i] *)
Definition questionPattern : pattern :=
  Then LineStart
    (Then (Or (word (lit "Q")) (word (lit "Question")))
       (Then (Many isWhiteSpace)
          (Then (code 58)
             (Then (Many isWhiteSpace)
                (Then (Group (Then (Unit notTerminator) (Many notTerminator)))
                   InputEnd))))).

(** [/^(?:A|Answer)\s*:\s*( .* )$/i] (the group is written here with blanks
    around its dot-star). *)
Definition answerPattern : pattern :=
  Then LineStart
    (Then (Or (word (lit "A")) (word (lit "Answer")))
       (Then (Many isWhiteSpace)
          (Then (code 58)
             (Then (Many isWhiteSpace)
                (Then (Group (Many notTerminator)) InputEnd))))).

(** [trimmed.match(...)]: [None] for [null], and otherwise element 1 of the
    array, the text of the group. *)
Definition matchQuestion (trimmed : jsString) : option jsString :=
  matchGroup questionPattern trimmed.

Definition matchAnswer (trimmed : jsString) : option jsString :=
  matchGroup answerPattern trimmed.

(** The variables of [parseFlashcards] that its closure and loop update. *)
Record ParseState := mkParse {
  cards : list ParsedFlashcard;
  currentQuestion : option jsString;
  currentAnswer : list jsString;
  answerStarted : bool
}.

Definition initialParse : ParseState := mkParse [] None [] false.

(** [!currentQuestion]: null or the empty string. *)
Definition noQuestion (q : option jsString) : bool :=
  match q with
  | None => true
  | Some s => isEmpty s
  end.

Definition commitCard (st : ParseState) : ParseState :=
  match currentQuestion st with
  | None => st
  | Some q =>
      if isEmpty q || (length (currentAnswer st) =? 0)%nat then st
      else
        let question := trim q in
        let answer := trim (join [10] (currentAnswer st)) in
        if negb (isEmpty question) && negb (isEmpty answer)
        then mkParse (cards st ++ [mkParsed question answer])
               (currentQuestion st) (currentAnswer st) (answerStarted st)
        else st
  end.

(** The body of [for (const line of lines)]. *)
Definition parseLine (st : ParseState) (line : jsString) : ParseState :=
  let trimmed := trim line in
  match matchQuestion trimmed with
  | Some q =>
      let st' := commitCard st in
      mkParse (cards st') (Some q) [] false
  | None =>
      match matchAnswer trimmed with
      | Some a =>
          if negb (noQuestion (currentQuestion st))
          then mkParse (cards st) (currentQuestion st) [a] true
          else if answerStarted st
          then mkParse (cards st) (currentQuestion st)
                 (currentAnswer st ++ [trimmed]) (answerStarted st)
          else st
      | None =>
          if answerStarted st
          then mkParse (cards st) (currentQuestion st)
                 (currentAnswer st ++ [trimmed]) (answerStarted st)
          else st
      end
  end.

(** The loop over the lines and the last [commitCard()]. *)
Definition parseLines (lines : list jsString) : list ParsedFlashcard :=
  cards (commitCard (fold_left parseLine lines initialParse)).

(** The value of [lines]: the input after the three preprocessing steps,
    split at line feeds. *)
Definition logicalLines (raw : jsString) : list jsString :=
  split 10 (trim (stripOrdinals (normalizeNewlines raw))).

Definition parseFlashcards (raw : jsString) : list ParsedFlashcard :=
  if isEmpty raw then [] else parseLines (logicalLines raw).

(** *** canonicalKey and buildFlashcardsFromParsed *)

Section Dedup.

(** [String.prototype.toLowerCase], the Unicode lower-case mapping of the
    engine.  Nothing below depends on what it maps to what. *)
Variable toLowerCase : jsString -> jsString.

Definition canonicalKey (question answer : jsString) : jsString :=
  toLowerCase (trim question) ++ lit "::" ++ toLowerCase (trim answer).

(** [createId()] returns a fresh random string ([crypto.randomUUID()] or
    [Math.random()]): the source of randomness is the function [ids], whose
    value at [k] is what the [k]-th call of an invocation returns. *)
Definition createId (ids : nat -> jsString) (calls : nat) : jsString * nat :=
  (ids calls, S calls).

Record BuildState := mkBuild {
  seen : gset jsString;
  built : list Flashcard;
  idCalls : nat
}.

(** The body of [for (const item of parsed)]. *)
Definition buildStep (ids : nat -> jsString) (st : BuildState)
  (item : ParsedFlashcard) : BuildState :=
  let question := trim (pQuestion item) in
  let answer := trim (pAnswer item) in
  if isEmpty question || isEmpty answer then st
  else
    let key := canonicalKey question answer in
    if bool_decide (key ∈ seen st) then st
    else
      let '(newId, calls) := createId ids (idCalls st) in
      mkBuild ({[key]} ∪ seen st)
        (built st ++ [mkCard newId question answer false])
        calls.

Definition buildFlashcardsFromParsed (ids : nat -> jsString)
  (parsed : list ParsedFlashcard) : list Flashcard :=
  built (fold_left (buildStep ids) parsed (mkBuild ∅ [] 0%nat)).

End Dedup.

End Flashcards.

(** ** components/flashcards/FlashcardStudyPanel.tsx: the PDF export *)

Module Pdf.

Import Regex Flashcards.

Record FlashcardSet := mkSet {
  setId : jsString;
  name : jsString;
  importedAt : jsString;
  setCards : list Flashcard
}.

(** What [createFlashcardsPdfBlob] reads from outside its argument: whether
    the global [TextEncoder] is defined, and the string that
    [new Date().toLocaleString()] gives when the call is made. *)
Record Runtime := mkRuntime {
  hasTextEncoder : bool;
  localeNow : jsString
}.

(** Non-termination is made explicit: a computation returns [None] when its
    loop does not end within the steps it is given, and computations are
    chained in the option monad. *)
Fixpoint foldM {A B : Type} (f : A -> B -> option A) (l : list B) (a : A)
  : option A :=
  match l with
  | [] => Some a
  | x :: r => next ← f a x; foldM f r next
  end.

Definition nl : jsString := [10].

(** The page geometry.  The lengths are given in hundredths of a point, so
    that 841.89 and 595.28 are integers; the error of the binary fractions
    the program computes with is far below what could change a [floor] or a
    printed digit. *)
Definition PDF_PAGE_WIDTH : Z := 59528.
Definition PDF_PAGE_HEIGHT : Z := 84189.
Definition PDF_MARGIN_X : Z := 5600.
Definition PDF_MARGIN_TOP : Z := 7200.
Definition PDF_MARGIN_BOTTOM : Z := 7200.
Definition PDF_FONT_SIZE : Z := 1200.
Definition PDF_LINE_HEIGHT : Z := 1800.
Definition PDF_MAX_LINE_CHARS : nat := 90.

(** A number of at most two decimals as a template literal prints it: no
    fraction when it is an integer, no trailing zero. *)
Definition numberText (hundredths : Z) : jsString :=
  let n := Z.to_nat hundredths in
  let fraction := (n mod 100)%nat in
  decimal (n / 100)
  ++ (if (fraction =? 0)%nat then []
      else 46 :: decimal (fraction / 10)
           ++ (if (fraction mod 10 =? 0)%nat then []
               else decimal (fraction mod 10))).

Definition pageWidthText : jsString := Eval cbv in numberText PDF_PAGE_WIDTH.
Definition pageHeightText : jsString := Eval cbv in numberText PDF_PAGE_HEIGHT.
Definition marginXText : jsString := Eval cbv in numberText PDF_MARGIN_X.
Definition textTopText : jsString :=
  Eval cbv in numberText (PDF_PAGE_HEIGHT - PDF_MARGIN_TOP).
Definition fontSizeText : jsString := Eval cbv in numberText PDF_FONT_SIZE.
Definition lineHeightText : jsString := Eval cbv in numberText PDF_LINE_HEIGHT.

(** [/\s+/] *)
Definition whitespacePattern : pattern := Then space (Many isWhiteSpace).

Definition printable (c : N) : N :=
  if (32 <=? c) && (c <=? 126) then c else 63.

Definition sanitizeTextValue (value : jsString) : jsString :=
  trim (map printable (Regex.replaceAll false whitespacePattern [32] value)).

(** [word.slice(from, to)] for [from <= to]. *)
Definition slice (word : jsString) (from to : nat) : jsString :=
  firstn (to - from) (skipn from word).

(** The [for] loop of [breakWordIntoSegments], from [index] on. *)
Fixpoint segmentsFrom (fuel : nat) (word : jsString) (maxChars index : nat)
  : option (list jsString) :=
  if (index <? length word)%nat then
    match fuel with
    | O => None
    | S fuel' =>
        rest ← segmentsFrom fuel' word maxChars (index + maxChars);
        Some (slice word index (index + maxChars) :: rest)
    end
  else Some [].

Definition breakWordIntoSegments (word : jsString) (maxChars : nat)
  : option (list jsString) :=
  if (length word <=? maxChars)%nat then Some [word]
  else segmentsFrom (length word) word maxChars 0.

Record WrapState := mkWrap { lines : list jsString; current : jsString }.

(** What both branches of [segmentSanitizedText] do with a word longer than
    [maxChars], [lines] being the lines pushed so far. *)
Definition placeLongWord (lines : list jsString) (word : jsString)
  (maxChars : nat) : option WrapState :=
  segments ← breakWordIntoSegments word maxChars;
  let lines' := lines ++ removelast segments in
  let lastSegment := List.last segments [] in
  if (length lastSegment =? maxChars)%nat
  then Some (mkWrap (lines' ++ [lastSegment]) [])
  else Some (mkWrap lines' lastSegment).

(** The body of [for (const word of words)]. *)
Definition placeWord (maxChars : nat) (st : WrapState) (word : jsString)
  : option WrapState :=
  if isEmpty word then Some st
  else if (length (current st) =? 0)%nat then
    if (length word <=? maxChars)%nat then Some (mkWrap (lines st) word)
    else placeLongWord (lines st) word maxChars
  else if (length (current st) + 1 + length word <=? maxChars)%nat then
    Some (mkWrap (lines st) (current st ++ [32] ++ word))
  else
    let lines' := lines st ++ [current st] in
    if (length word <=? maxChars)%nat then Some (mkWrap lines' word)
    else placeLongWord lines' word maxChars.

Definition segmentSanitizedText (sanitized : jsString) (maxChars : nat)
  : option (list jsString) :=
  if isEmpty sanitized then Some []
  else
    st ← foldM (placeWord maxChars) (split 32 sanitized) (mkWrap [] []);
    Some (if isEmpty (current st) then lines st
          else lines st ++ [current st]).

Definition wrapLongLine (value : jsString) (maxChars : nat)
  : option (list jsString) :=
  let sanitized := sanitizeTextValue value in
  if isEmpty sanitized then Some [[]]
  else segmentSanitizedText sanitized maxChars.

Definition wrapWithPrefix (value prefix : jsString) (maxChars : nat)
  : option (list jsString) :=
  let sanitized := sanitizeTextValue value in
  let available := Nat.max 1 (maxChars - length prefix) in
  if isEmpty sanitized then Some [trimEnd prefix]
  else
    segments ← segmentSanitizedText sanitized available;
    let indent := repeat 32 (length prefix) in
    Some match segments with
         | [] => []
         | first :: others => (prefix ++ first) :: map (app indent) others
         end.

(** Backslash, then opening, then closing parenthesis. *)
Definition escapePdfText (value : jsString) : jsString :=
  Regex.replaceAll false (code 41) [92; 41]
    (Regex.replaceAll false (code 40) [92; 40]
       (Regex.replaceAll false (code 92) [92; 92] value)).

(** *** createFlashcardsPdfBlob, step by step *)

Definition headerTitle (set : FlashcardSet) : jsString :=
  lit "Flashcards for "
  ++ sanitizeTextValue (if isEmpty (name set) then lit "Imported Set"
                        else name set).

Definition generatedLine (rt : Runtime) : jsString :=
  lit "Generated " ++ sanitizeTextValue (localeNow rt).

(** The body of [set.cards.forEach((card, index) => ...)]; [count] is
    [set.cards.length]. *)
Definition cardLines (count index : nat) (card : Flashcard)
  : option (list jsString) :=
  heading ← wrapLongLine (lit "Card " ++ decimal (index + 1))
               PDF_MAX_LINE_CHARS;
  q ← wrapWithPrefix (question card) (lit "Q: ") PDF_MAX_LINE_CHARS;
  a ← wrapWithPrefix (answer card) (lit "A: ") PDF_MAX_LINE_CHARS;
  Some (heading ++ q ++ a
        ++ (if (index <? count - 1)%nat then [[]] else [])).

Fixpoint forEachCard (count index : nat) (cards : list Flashcard)
  (lines : list jsString) : option (list jsString) :=
  match cards with
  | [] => Some lines
  | card :: rest =>
      ls ← cardLines count index card;
      forEachCard count (S index) rest (lines ++ ls)
  end.

(** The array [lines] when the [forEach] is over. *)
Definition documentLines (rt : Runtime) (set : FlashcardSet)
  : option (list jsString) :=
  title ← wrapLongLine (headerTitle set) PDF_MAX_LINE_CHARS;
  generated ← wrapLongLine (generatedLine rt) PDF_MAX_LINE_CHARS;
  forEachCard (length (setCards set)) 0 (setCards set)
    (title ++ generated ++ [[]]).

Definition placeholderLine : jsString := Eval cbv in lit "Flashcard export".

Definition contentLinesOf (lines : list jsString) : list jsString :=
  if (0 <? length lines)%nat then lines else [placeholderLine].

(** [Math.max(1, Math.floor((pageHeight - top - bottom) / lineHeight))] *)
Definition linesPerPage (pageHeight top bottom lineHeight : Z) : nat :=
  Z.to_nat (Z.max 1 ((pageHeight - top - bottom) / lineHeight)).

Definition maxLinesPerPage : nat :=
  linesPerPage PDF_PAGE_HEIGHT PDF_MARGIN_TOP PDF_MARGIN_BOTTOM PDF_LINE_HEIGHT.

Record PageState := mkPages {
  pages : list (list jsString);
  currentPage : list jsString
}.

(** The body of [for (const line of contentLines)]. *)
Definition addLine (perPage : nat) (st : PageState) (line : jsString)
  : PageState :=
  let st' :=
    if (perPage <=? length (currentPage st))%nat
    then mkPages (pages st ++ [currentPage st]) []
    else st in
  mkPages (pages st') (currentPage st' ++ [line]).

(** The pagination loop and the two tests that follow it. *)
Definition paginate (contentLines : list jsString) (perPage : nat)
  : list (list jsString) :=
  let st := fold_left (addLine perPage) contentLines (mkPages [] []) in
  let pages' :=
    if (0 <? length (currentPage st))%nat
    then pages st ++ [currentPage st]
    else pages st in
  if (length pages' =? 0)%nat then [[placeholderLine]] else pages'.

Record PdfObject := mkObject { objId : nat; content : jsString }.

(** The text operators of one page: a show operator per line, [T*] between
    two lines. *)
Fixpoint lineOperators (pageLines : list jsString) : list jsString :=
  match pageLines with
  | [] => []
  | line :: rest =>
      let show := lit "(" ++ escapePdfText line ++ lit ") Tj" in
      match rest with
      | [] => [show]
      | _ :: _ => show :: lit "T*" :: lineOperators rest
      end
  end.

Definition streamBody (pageLines : list jsString) : jsString :=
  join nl
    ([lit "BT";
      lit "/F1 " ++ fontSizeText ++ lit " Tf";
      lineHeightText ++ lit " TL";
      lit "1 0 0 1 " ++ marginXText ++ lit " " ++ textTopText ++ lit " Tm"]
     ++ lineOperators pageLines ++ [lit "ET"])
  ++ nl.

Definition contentObjectFor (contentId : nat) (pageLines : list jsString)
  : PdfObject :=
  let body := streamBody pageLines in
  mkObject contentId
    (lit "<< /Length " ++ decimal (length (utf8Encode body)) ++ lit " >>"
     ++ nl ++ lit "stream" ++ nl ++ body ++ lit "endstream" ++ nl).

Definition pageObjectFor (pageId contentId : nat) : PdfObject :=
  mkObject pageId
    (lit "<< /Type /Page /Parent 2 0 R /MediaBox [0 0 " ++ pageWidthText
     ++ lit " " ++ pageHeightText
     ++ lit "] /Resources << /Font << /F1 3 0 R >> >> /Contents "
     ++ decimal contentId ++ lit " 0 R >>" ++ nl).

Fixpoint mapWithIndex {A B : Type} (f : nat -> A -> B) (index : nat)
  (l : list A) : list B :=
  match l with
  | [] => []
  | x :: r => f index x :: mapWithIndex f (S index) r
  end.

Definition pageObjects (pages : list (list jsString)) : list PdfObject :=
  mapWithIndex (fun index _ =>
    pageObjectFor (4 + index) (4 + length pages + index)) 0%nat pages.

Definition contentObjects (pages : list (list jsString)) : list PdfObject :=
  mapWithIndex (fun index pageLines =>
    contentObjectFor (4 + length pages + index) pageLines) 0%nat pages.

Definition fontObject : PdfObject :=
  mkObject 3
    (lit "<< /Type /Font /Subtype /Type1 /BaseFont /Helvetica >>" ++ nl).

Definition catalogObject : PdfObject :=
  mkObject 1 (lit "<< /Type /Catalog /Pages 2 0 R >>" ++ nl).

Definition kidsRefs (pages : list (list jsString)) : jsString :=
  join (lit " ")
    (map (fun obj => decimal (objId obj) ++ lit " 0 R") (pageObjects pages)).

Definition pagesObject (pages : list (list jsString)) : PdfObject :=
  mkObject 2
    (lit "<< /Type /Pages /Count " ++ decimal (length pages)
     ++ lit " /Kids [" ++ kidsRefs pages ++ lit "] >>" ++ nl).

(** [Array.prototype.sort] with the comparator [a.id - b.id]: a stable sort
    by ascending identifier. *)
Fixpoint insertById (o : PdfObject) (l : list PdfObject) : list PdfObject :=
  match l with
  | [] => [o]
  | x :: r => if (objId o <=? objId x)%nat then o :: l else x :: insertById o r
  end.

Definition sortById (l : list PdfObject) : list PdfObject :=
  fold_right insertById [] l.

Definition allObjects (pages : list (list jsString)) : list PdfObject :=
  sortById ([catalogObject; pagesObject pages; fontObject]
            ++ pageObjects pages ++ contentObjects pages).

Record Offset := mkOffset { offId : nat; offset : nat }.

Record Emitted := mkEmitted { pdf : jsString; offsets : list Offset }.

Definition objectHeader (objectId : nat) : jsString :=
  decimal objectId ++ lit " 0 obj" ++ nl.

(** The body of [allObjects.forEach((object) => ...)]: the offset is read
    before the object is appended. *)
Definition emitObject (st : Emitted) (object : PdfObject) : Emitted :=
  mkEmitted
    (pdf st ++ objectHeader (objId object) ++ content object
     ++ lit "endobj" ++ nl)
    (offsets st ++ [mkOffset (objId object) (length (pdf st))]).

Definition pdfHeader : jsString := lit "%PDF-1.4" ++ nl.

Definition emitObjects (objects : list PdfObject) : Emitted :=
  fold_left emitObject objects (mkEmitted pdfHeader []).

Definition xrefEntry (entry : Offset) : jsString :=
  padStart 10 48 (decimal (offset entry)) ++ lit " 00000 n " ++ nl.

Definition xrefSection (objectCount : nat) (entries : list Offset)
  : jsString :=
  lit "xref" ++ nl ++ lit "0 " ++ decimal (objectCount + 1) ++ nl
  ++ lit "0000000000 65535 f " ++ nl
  ++ concat (map xrefEntry entries).

Definition trailer (objectCount xrefOffset : nat) : jsString :=
  lit "trailer" ++ nl ++ lit "<< /Size " ++ decimal (objectCount + 1)
  ++ lit " /Root 1 0 R >>" ++ nl ++ lit "startxref" ++ nl
  ++ decimal xrefOffset ++ nl ++ lit "%%EOF".

(** The string [pdf] when it is handed to the encoder. *)
Definition pdfText (pages : list (list jsString)) : jsString :=
  let objects := allObjects pages in
  let emitted := emitObjects objects in
  let xrefOffset := length (pdf emitted) in
  pdf emitted
  ++ xrefSection (length objects) (offsets emitted)
  ++ trailer (length objects) xrefOffset.

Inductive BlobOrNull :=
| Null
| Blob (bytes : list N).

Definition createFlashcardsPdfBlob (rt : Runtime) (set : FlashcardSet)
  : option BlobOrNull :=
  if negb (hasTextEncoder rt) || (length (setCards set) =? 0)%nat
  then Some Null
  else
    lines ← documentLines rt set;
    let contentLines := contentLinesOf lines in
    let pages := paginate contentLines maxLinesPerPage in
    Some (Blob (utf8Encode (pdfText pages))).

End Pdf.

(** ** The matches and replacements as scans

    What the matcher computes for each pattern of the program, written as a
    recursion on the input.  They are proved equal to the functions above
    ([RegexFacts]), and the proofs about the tokenizer and the encoder go
    through them. *)

Module Scan.

Import Regex Flashcards Pdf.

(** The code unit before the position that follows the run [w]. *)
Fixpoint lastBefore (before : option N) (w : jsString) : option N :=
  match w with
  | [] => before
  | c :: r => lastBefore (Some c) r
  end.

(** [normalizeNewlines]: a carriage return, with the line feed after it
    when there is one, becomes a line feed. *)
Fixpoint scanNewlines (s : jsString) : jsString :=
  match s with
  | [] => []
  | c :: r =>
      if c =? 13 then
        match r with
        | d :: r' => if d =? 10 then 10 :: scanNewlines r'
                     else 10 :: scanNewlines r
        | [] => [10]
        end
      else c :: scanNewlines r
  end.

(** One match of [/^\s*\d+\.\s*/] at the head of [s], the position being a
    line start: the number of code units matched.  Whitespace, digits and the
    period are disjoint classes, so the greedy choices are the only ones. *)
Definition ordinalMatchLength (s : jsString) : option nat :=
  let '(w, r1) := span isWhiteSpace s in
  let '(d, r2) := span isDigit r1 in
  match d, r2 with
  | _ :: _, c :: r3 =>
      if c =? 46 then
        let '(w', _) := span isWhiteSpace r3 in
        Some (length w + length d + 1 + length w')%nat
      else None
  | _, _ => None
  end.

(** [stripOrdinals]: a left-to-right scan.  [atLineStart]
    says whether [^] holds here (start of input, or the code unit before is a
    line terminator, also when that code unit was part of the match before);
    [skip] counts the code units of the current match still to be dropped. *)
Fixpoint scanOrdinalsFrom (atLineStart : bool) (skip : nat) (s : jsString)
  : jsString :=
  match s with
  | [] => []
  | c :: r =>
      match skip with
      | S k => scanOrdinalsFrom (isLineTerminator c) k r
      | O =>
          match (if atLineStart then ordinalMatchLength s else None) with
          | Some (S k) => scanOrdinalsFrom (isLineTerminator c) k r
          | _ => c :: scanOrdinalsFrom (isLineTerminator c) 0 r
          end
      end
  end.

Definition scanOrdinals (s : jsString) : jsString :=
  scanOrdinalsFrom true 0 s.

Fixpoint matchWord (word s : jsString) : option jsString :=
  match word, s with
  | [], _ => Some s
  | w :: word', c :: r =>
      if canonicalize c =? canonicalize w then matchWord word' r else None
  | _ :: _, [] => None
  end.

Definition noLineTerminator (s : jsString) : bool :=
  forallb (fun c => negb (isLineTerminator c)) s.

(** [\s*(.+)$]: the greedy [\s*] first; when nothing is left for [.+] it
    gives back its last code unit. *)
Definition captureNonEmpty (s : jsString) : option jsString :=
  let '(w, r) := span isWhiteSpace s in
  match r with
  | _ :: _ => if noLineTerminator r then Some r else None
  | [] =>
      match rev w with
      | c :: _ => if isLineTerminator c then None else Some [c]
      | [] => None
      end
  end.

(** The same with a capture that may be empty (dot-star up to the end). *)
Definition captureAny (s : jsString) : option jsString :=
  let '(_, r) := span isWhiteSpace s in
  if noLineTerminator r then Some r else None.

(** [\s*:] followed by one of the captures above. *)
Definition afterMarker (capture : jsString -> option jsString) (s : jsString)
  : option jsString :=
  match snd (span isWhiteSpace s) with
  | c :: r => if c =? 58 then capture r else None
  | [] => None
  end.

(** The alternation [(?:short|long)] tries [short] first, and [long] when
    the rest of the pattern fails after [short]. *)
Definition matchMarked (short long : jsString)
  (capture : jsString -> option jsString) (s : jsString) : option jsString :=
  match
    match matchWord short s with
    | Some r => afterMarker capture r
    | None => None
    end
  with
  | Some c => Some c
  | None =>
      match matchWord long s with
      | Some r => afterMarker capture r
      | None => None
      end
  end.

(** [matchQuestion] *)
Definition scanQuestion (trimmed : jsString) : option jsString :=
  matchMarked (lit "Q") (lit "Question") captureNonEmpty trimmed.

(** [matchAnswer] *)
Definition scanAnswer (trimmed : jsString) : option jsString :=
  matchMarked (lit "A") (lit "Answer") captureAny trimmed.

(** The first step of [sanitizeTextValue], every run of whitespace replaced
    by one space: [inRun] says that the code unit before was whitespace,
    already replaced. *)
Fixpoint scanWhitespace (inRun : bool) (s : jsString) : jsString :=
  match s with
  | [] => []
  | c :: r =>
      if isWhiteSpace c
      then (if inRun then scanWhitespace true r
            else 32 :: scanWhitespace true r)
      else c :: scanWhitespace false r
  end.

(** A step of [escapePdfText]: every occurrence of the code unit [c]
    replaced. *)
Definition scanCode (c : N) (replacement : jsString) (s : jsString)
  : jsString :=
  flat_map (fun x => if x =? c then replacement else [x]) s.

End Scan.

(** ** What the specification says, in its own words *)

Module Spec.

Import Flashcards Pdf.

(** A Record of the data model: question and answer are not empty once the
    surrounding whitespace is trimmed. *)
Definition isRecord (r : ParsedFlashcard) : Prop :=
  trim (pQuestion r) <> [] /\ trim (pAnswer r) <> [].

Definition isRecordb (r : ParsedFlashcard) : bool :=
  negb (isEmpty (trim (pQuestion r))) && negb (isEmpty (trim (pAnswer r))).

(** The record with its two texts trimmed, as the deck stores it. *)
Definition normalize (r : ParsedFlashcard) : ParsedFlashcard :=
  mkParsed (trim (pQuestion r)) (trim (pAnswer r)).

(** The CanonicalKey of a record. *)
Definition keyOf (toLowerCase : jsString -> jsString) (r : ParsedFlashcard)
  : jsString :=
  canonicalKey toLowerCase (pQuestion r) (pAnswer r).

(** Deduplication: keep the first record per key, drop the later ones. *)
Fixpoint keepFirstPerKey (toLowerCase : jsString -> jsString)
  (l : list ParsedFlashcard) : list ParsedFlashcard :=
  match l with
  | [] => []
  | r :: rest =>
      r :: filter (fun r' => keyOf toLowerCase r' <> keyOf toLowerCase r)
             (keepFirstPerKey toLowerCase rest)
  end.

(** The records a run of the loop of [buildFlashcardsFromParsed] adds when it
    starts with the keys [known] in its set: the loop as a recursion. *)
Fixpoint keepNew (toLowerCase : jsString -> jsString) (known : gset jsString)
  (l : list ParsedFlashcard) : list ParsedFlashcard :=
  match l with
  | [] => []
  | r :: rest =>
      if isRecordb r then
        if bool_decide (keyOf toLowerCase (normalize r) ∈ known)
        then keepNew toLowerCase known rest
        else normalize r
             :: keepNew toLowerCase
                  ({[keyOf toLowerCase (normalize r)]} ∪ known) rest
      else keepNew toLowerCase known rest
  end.

(** The dedupe step: the deck that [buildFlashcardsFromParsed] builds, read
    as a sequence of (question, answer) records. *)
Definition dedupe (toLowerCase : jsString -> jsString) (ids : nat -> jsString)
  (l : list ParsedFlashcard) : list ParsedFlashcard :=
  map asParsed (buildFlashcardsFromParsed toLowerCase ids l).

(** The lower-case mapping restricted to ASCII, on which every engine
    agrees; the examples use it. *)
Definition asciiLowerCase (s : jsString) : jsString :=
  map (fun c => if (65 <=? c) && (c <=? 90) then c + 32 else c) s.

(** The invariant of the loop over the words in [segmentSanitizedText]: the
    lines pushed and the line under construction fit the width. *)
Definition wrapInv (maxChars : nat) (st : WrapState) : Prop :=
  Forall (fun l : jsString => (length l <= maxChars)%nat) (lines st)
  /\ (length (current st) <= maxChars)%nat.

(** The invariant of the pagination loop after the lines [done]: the pages
    pushed are full, the page under construction is not over-full and holds
    a line as soon as one was read, and nothing is lost or reordered. *)
Definition pageInv (perPage : nat) (st : PageState) (done : list jsString)
  : Prop :=
  Forall (fun page => length page = perPage) (pages st)
  /\ (length (currentPage st) <= perPage)%nat
  /\ (done <> [] -> (1 <= length (currentPage st))%nat)
  /\ concat (pages st) ++ currentPage st = done.

(** Text in the ASCII range, which UTF-8 encodes in one byte per code
    unit. *)
Definition isAscii (s : jsString) : Prop := Forall (fun c => c < 128) s.

Definition isAsciib (s : jsString) : bool := forallb (fun c => c <? 128) s.

(** The ASCII invariant of the loop over the words. *)
Definition asciiInv (st : WrapState) : Prop :=
  Forall isAscii (lines st) /\ isAscii (current st).

Definition isAscii_lines (ls : list jsString) : Prop := Forall isAscii ls.

(** [pattern] is what [data] holds from position [pos] on. *)
Definition startsAt (data : list N) (pos : nat) (pattern : list N) : Prop :=
  firstn (length pattern) (skipn pos data) = pattern.

(** What [emitObject] appends for an object. *)
Definition objectText (object : PdfObject) : jsString :=
  objectHeader (objId object) ++ content object ++ lit "endobj" ++ nl.

(** The offsets the emission loop records for [objects] when the output is
    [pos] long before them. *)
Fixpoint offsetsFrom (pos : nat) (objects : list PdfObject) : list Offset :=
  match objects with
  | [] => []
  | object :: rest =>
      mkOffset (objId object) pos
      :: offsetsFrom (pos + length (objectText object)) rest
  end.

(** Reading a decimal number at the head of a text, as a parser of the
    cross-reference section does. *)
Fixpoint readDigits (acc : nat) (s : jsString) : nat :=
  match s with
  | [] => acc
  | c :: r =>
      if isDigit c then readDigits (10 * acc + N.to_nat (c - 48)) r else acc
  end.

Definition readDecimal (s : jsString) : nat := readDigits 0 s.

Fixpoint stripPrefix (p s : list N) : option (list N) :=
  match p, s with
  | [], _ => Some s
  | a :: p', b :: s' => if a =? b then stripPrefix p' s' else None
  | _ :: _, [] => None
  end.

(** The object count a document declares: the number after [/Size] in a
    trailer that closes the document, read from the end of the bytes. *)
Definition declaredSize (bytes : list N) : option nat :=
  r0 ← stripPrefix (rev (lit "%%EOF")) (rev bytes);
  r1 ← stripPrefix nl r0;
  r2 ← stripPrefix
         (rev (lit " /Root 1 0 R >>" ++ nl ++ lit "startxref" ++ nl))
         (snd (span isDigit r1));
  _ ← stripPrefix (rev (lit "trailer" ++ nl ++ lit "<< /Size "))
        (snd (span isDigit r2));
  match fst (span isDigit r2) with
  | [] => None
  | size => Some (readDecimal (rev size))
  end.

(** The line of a cross-reference entry, without the line feed that ends
    it. *)
Definition xrefEntryLine (entry : Offset) : jsString :=
  padStart 10 48 (decimal (offset entry)) ++ lit " 00000 n ".

(** The value after [startxref] in the footer that closes the document. *)
Definition declaredStartxref (bytes : list N) : option nat :=
  r0 ← stripPrefix (rev (lit "%%EOF")) (rev bytes);
  r1 ← stripPrefix nl r0;
  _ ← stripPrefix (rev (lit "startxref" ++ nl)) (snd (span isDigit r1));
  match fst (span isDigit r1) with
  | [] => None
  | digits => Some (readDecimal (rev digits))
  end.

(** The cross-reference section read back: from the position the footer
    gives, the line [xref], the line [0 n], the entry of the free list and
    [n - 1] entries, of which the offsets are returned. *)
Definition xrefTable (bytes : list N) : option (list nat) :=
  start ← declaredStartxref bytes;
  match split 10 (skipn start bytes) with
  | keyword :: counts :: free :: entries =>
      if bool_decide (keyword = lit "xref")
         && bool_decide (free = lit "0000000000 65535 f ")
      then
        match stripPrefix (lit "0 ") counts with
        | Some n => Some (map readDecimal (firstn (readDecimal n - 1) entries))
        | None => None
        end
      else None
  | _ => None
  end.

(** The document opens with object 1, a Catalog whose [/Pages] entry names
    object 2, and object 2 is the page tree. *)
Definition catalogPointsToPageTree (bytes : list N) : Prop :=
  exists rest,
    bytes
    = utf8Encode
        (pdfHeader ++ lit "1 0 obj" ++ nl
         ++ lit "<< /Type /Catalog /Pages 2 0 R >>" ++ nl ++ lit "endobj" ++ nl
         ++ lit "2 0 obj" ++ nl ++ lit "<< /Type /Pages ")
      ++ rest.

(** The run and the set of the examples: the deck of the specification's
    end-to-end example under the name "Demo". *)
Definition exampleDeck : list Flashcard :=
  [mkCard (lit "id-1") (lit "What is 2+2?") (lit "4") false;
   mkCard (lit "id-2") (lit "Capital of France?") (lit "Paris") false].

Definition exampleSet : FlashcardSet :=
  mkSet (lit "set-1") (lit "Demo") (lit "2026-11-02T13:03:00.000Z") exampleDeck.

Definition exampleRuntime : Runtime :=
  mkRuntime true (lit "11/2/2026, 1:03:00 PM").

(** A text of one line: no line terminator in it. *)
Definition singleLine (s : jsString) : Prop :=
  Forall (fun c => isLineTerminator c = false) s.

(** A well-formed block content: question and answer are texts of one line,
    not empty once trimmed. *)
Definition wellFormed (r : ParsedFlashcard) : Prop :=
  singleLine (pQuestion r) /\ singleLine (pAnswer r) /\ isRecord r.

Definition questionLabel : jsString := Eval cbv in lit "Q: ".
Definition answerLabel : jsString := Eval cbv in lit "A: ".

(** The block of a question and an answer: two lines, each ended by a line
    feed. *)
Definition block (r : ParsedFlashcard) : jsString :=
  questionLabel ++ pQuestion r ++ [10] ++ answerLabel ++ pAnswer r ++ [10].

Definition blocksText (inputs : list ParsedFlashcard) : jsString :=
  concat (map block inputs).

(** The two lines of a block. *)
Definition blockLines (r : ParsedFlashcard) : list jsString :=
  [questionLabel ++ pQuestion r; answerLabel ++ pAnswer r].

(** How the tokenizer classifies a line. *)
Definition isQuestionLine (line : jsString) : Prop :=
  matchQuestion (trim line) <> None.

Definition isAnswerLine (line capture : jsString) : Prop :=
  matchQuestion (trim line) = None /\ matchAnswer (trim line) = Some capture.

Definition isPlainLine (line : jsString) : Prop :=
  matchQuestion (trim line) = None /\ matchAnswer (trim line) = None.

(** The state of the tokenizer after the lines [done]. *)
Definition parseStateAfter (done : list jsString) : ParseState :=
  fold_left parseLine done initialParse.

(** The record a block of question [q] and answer text [a] commits: none
    when the answer is empty once trimmed. *)
Definition recordOf (q a : jsString) : list ParsedFlashcard :=
  if isEmpty (trim a) then [] else [mkParsed (trim q) (trim a)].

(** A state with the cards [cs] put before its own. *)
Definition withCards (cs : list ParsedFlashcard) (st : ParseState)
  : ParseState :=
  mkParse (cs ++ cards st) (currentQuestion st) (currentAnswer st)
    (answerStarted st).

(** No pending question is blank. *)
Definition questionInv (st : ParseState) : Prop :=
  forall q, currentQuestion st = Some q -> trim q <> [].

(** [ceil(a / b)] on natural numbers. *)
Definition ceilDiv (a b : nat) : nat := ((a + b - 1) / b)%nat.

End Spec.

(** ** More of [String.prototype] with patterns *)

Module Strings.

Import Regex.

(** [s.replace(p, replacement)] for a pattern without the flag [g] and a
    replacement without [$]: the first match from the left is replaced. *)
Fixpoint replaceFirstFrom (multiline : bool) (p : pattern)
  (replacement : jsString) (before : option N) (s : jsString) : jsString :=
  match matchHere multiline p before s with
  | Some (n, _) => replacement ++ skipn n s
  | None =>
      match s with
      | [] => []
      | c :: r => c :: replaceFirstFrom multiline p replacement (Some c) r
      end
  end.

Definition replaceFirst (multiline : bool) (p : pattern)
  (replacement s : jsString) : jsString :=
  replaceFirstFrom multiline p replacement None s.

(** [s.split(p)] for a pattern without a group and no limit, on a string
    that is not empty: the pattern is tried at every position of the
    string but its end; a match that ends where the piece began is passed
    over.  [piece] is the piece read so far, [skip] counts the code units of
    the current separator still to be dropped. *)
Fixpoint splitFrom (multiline : bool) (p : pattern) (before : option N)
  (skip : nat) (piece : jsString) (s : jsString) : list jsString :=
  match s with
  | [] => [piece]
  | c :: r =>
      match skip with
      | S k => splitFrom multiline p (Some c) k [] r
      | O =>
          match matchHere multiline p before s with
          | Some (S k, _) => piece :: splitFrom multiline p (Some c) k [] r
          | Some (O, _) =>
              if isEmpty piece
              then splitFrom multiline p (Some c) 0 [c] r
              else piece :: splitFrom multiline p (Some c) 0 [c] r
          | None => splitFrom multiline p (Some c) 0 (piece ++ [c]) r
          end
      end
  end.

(** The empty string splits into nothing when the pattern matches it, and
    into itself otherwise. *)
Definition splitBy (multiline : bool) (p : pattern) (s : jsString)
  : list jsString :=
  match s with
  | [] =>
      match matchHere multiline p None [] with
      | Some _ => []
      | None => [[]]
      end
  | _ :: _ => splitFrom multiline p None 0 [] s
  end.

End Strings.

(** ** lib/flashcards.ts: labels and order *)

Module Library.

Import Regex Strings Flashcards Pdf.


(** [s[0]]: the first code unit as a string, or [undefined] ([None]). *)
Definition firstUnit (s : jsString) : option jsString :=
  match s with
  | c :: _ => Some [c]
  | [] => None
  end.

(** [a + b] for two values that are strings or [undefined]: a string, or
    [NaN] ([None]) when both are [undefined]. *)
Definition plus (a b : option jsString) : option jsString :=
  match a, b with
  | Some x, Some y => Some (x ++ y)
  | Some x, None => Some (x ++ lit "undefined")
  | None, Some y => Some (lit "undefined" ++ y)
  | None, None => None
  end.

Section Monogram.

(** [String.prototype.toUpperCase]. *)
Variable toUpperCase : jsString -> jsString.

(** [getSetMonogram]; [None] stands for a [TypeError]: [tokens[0]] is
    [undefined], or [toUpperCase] is called on [NaN]. *)
Definition getSetMonogram (name : jsString) : option jsString :=
  let trimmed := trim name in
  if isEmpty trimmed then Some (lit "PDF")
  else
    match splitBy false whitespacePattern trimmed with
    | [] => None
    | [token] => Some (toUpperCase (firstn 2 token))
    | token0 :: token1 :: _ =>
        option_map toUpperCase (plus (firstUnit token0) (firstUnit token1))
    end.

End Monogram.

Section Order.

(** [new Date(value).getTime()]: [None] stands for [NaN], the time of an
    invalid date. *)
Variable timeOf : jsString -> option Z.

Definition hasTime (set : FlashcardSet) : bool :=
  match timeOf (importedAt set) with
  | Some _ => true
  | None => false
  end.

(** Whether the comparator [(a, b) => time(b) - time(a)] puts [a] after
    [b]: its value is positive. *)
Definition comesAfter (a b : FlashcardSet) : bool :=
  match timeOf (importedAt a), timeOf (importedAt b) with
  | Some ta, Some tb => (ta <? tb)%Z
  | _, _ => false
  end.

(** The sort is stable: a set goes behind the sets the comparator puts it
    after, and stays before the others. *)
Fixpoint insertSet (a : FlashcardSet) (sorted : list FlashcardSet)
  : list FlashcardSet :=
  match sorted with
  | [] => [a]
  | b :: rest => if comesAfter a b then b :: insertSet a rest
                 else a :: sorted
  end.

(** [orderSets]: a sorted copy.  With an invalid date among two sets or
    more the comparator is not consistent and the language leaves the order
    to the implementation: [None]. *)
Definition orderSets (sets : list FlashcardSet) : option (list FlashcardSet) :=
  if (length sets <=? 1)%nat || forallb hasTime sets
  then Some (fold_right insertSet [] sets)
  else None.

End Order.

End Library.

(** ** FlashcardStudyPanel.tsx: the name of the download *)

Module Panel.

Import Regex Strings Flashcards Pdf.

(** The class [[A-Za-z0-9-_]]. *)
Definition isFileNameUnit (c : N) : bool :=
  ((65 <=? c) && (c <=? 90)) || ((97 <=? c) && (c <=? 122))
  || ((48 <=? c) && (c <=? 57)) || (c =? 45) || (c =? 95).

Definition notFileNameUnit (c : N) : bool := negb (isFileNameUnit c).

(** [/[^A-Za-z0-9-_]+/] *)
Definition unsafePattern : pattern :=
  Then (Unit notFileNameUnit) (Many notFileNameUnit).

(** [/-+/] *)
Definition hyphensPattern : pattern := Then (code 45) (Many (N.eqb 45)).

(** [/^-|-$/] *)
Definition edgeHyphenPattern : pattern :=
  Or (Then LineStart (code 45)) (Then (code 45) InputEnd).

Definition toSafeFileName (value : jsString) : jsString :=
  let sanitized :=
    Regex.replaceAll false edgeHyphenPattern []
      (Regex.replaceAll false hyphensPattern [45]
         (Regex.replaceAll false unsafePattern [45]
            (sanitizeTextValue value))) in
  if isEmpty sanitized then lit "flashcards" else sanitized.

(** The class [[^/.]]. *)
Definition notSlashOrDot (c : N) : bool := negb ((c =? 47) || (c =? 46)).

(** [/\.[^/.]+$/] *)
Definition extensionPattern : pattern :=
  Then (code 46)
    (Then (Unit notSlashOrDot) (Then (Many notSlashOrDot) InputEnd)).

(** The value of [link.download] in [handleDownloadClick], for the name of
    the selected set. *)
Definition downloadName (name : jsString) : jsString :=
  let baseName := replaceFirst false extensionPattern [] name in
  let safeName :=
    toSafeFileName (if isEmpty baseName then name else baseName) in
  safeName ++ lit "-flashcards.pdf".

End Panel.

(** ** lib/flashcards.ts: reading the stored sets *)

Module Storage.

Import Flashcards Pdf Library.

Section Json.

(** The numbers of JSON, with what the program can see of them:
    [Number.prototype.toString] and whether [Boolean] gives [false] (zero;
    [JSON.parse] gives no [NaN]). *)
Variable Num : Type.
Variable numberText : Num -> jsString.
Variable numberIsZero : Num -> bool.

(** A value as [JSON.parse] returns it; the fields of an object are its own
    properties, each name once. *)
#[warnings="-register-all"] Inductive Json :=
| JNull
| JBool (b : bool)
| JNumber (n : Num)
| JString (s : jsString)
| JArray (items : list Json)
| JObject (fields : list (jsString * Json)).

(** [JSON.parse]: [None] when it throws a [SyntaxError]. *)
Variable jsonParse : jsString -> option Json.

(** [new Date(value).getTime()] and [Date.parse(value)], which read a
    string in the same way: [None] stands for [NaN]. *)
Variable timeOf : jsString -> option Z.

(** The random source and the clock of the invocation: the value of the
    [k]-th call of [createId()], and of the [k]-th [new
    Date().toISOString()]. *)
Variable ids : nat -> jsString.
Variable clock : nat -> jsString.

Record Env := mkEnv { idsDrawn : nat; clockReads : nat }.

Definition drawId (e : Env) : jsString * Env :=
  let '(newId, calls) := createId ids (idsDrawn e) in
  (newId, mkEnv calls (clockReads e)).

Definition readClock (e : Env) : jsString * Env :=
  (clock (clockReads e), mkEnv (idsDrawn e) (S (clockReads e))).

(** [!!item && typeof item === "object"]: an object or an array. *)
Definition isObjectLike (v : Json) : bool :=
  match v with
  | JArray _ | JObject _ => true
  | _ => false
  end.

Definition hasKey (key : jsString) (fields : list (jsString * Json)) : bool :=
  existsb (fun field => bool_decide (fst field = key)) fields.

(** [item.key] for an object or an array and a name that no prototype
    holds: [None] stands for [undefined]. *)
Definition get (key : jsString) (item : Json) : option Json :=
  match item with
  | JObject fields =>
      option_map snd (find (fun field => bool_decide (fst field = key)) fields)
  | _ => None
  end.

(** [value.toString()] for a value that is not [null], and for [null] the
    empty string that [Array.prototype.join] writes for it.  An array joins
    the texts of its elements with commas; an object gives [[object
    Object]], unless it has a property [toString] of its own, which is no
    function: a [TypeError] ([None]). *)
Fixpoint toText (v : Json) : option jsString :=
  match v with
  | JNull => Some []
  | JBool b => Some (if b then lit "true" else lit "false")
  | JNumber n => Some (numberText n)
  | JString s => Some s
  | JArray items =>
      (fix joinTexts (l : list Json) : option jsString :=
         match l with
         | [] => Some []
         | x :: rest =>
             t ← toText x;
             match rest with
             | [] => Some t
             | _ :: _ => r ← joinTexts rest; Some (t ++ [44] ++ r)
             end
         end) items
  | JObject fields =>
      if hasKey (lit "toString") fields then None
      else Some (lit "[object Object]")
  end.

(** [(field ?? "").toString()] *)
Definition textOf (field : option Json) : option jsString :=
  match field with
  | None => Some []
  | Some v => toText v
  end.

(** [Boolean(field)] *)
Definition truthy (field : option Json) : bool :=
  match field with
  | None | Some JNull => false
  | Some (JBool b) => b
  | Some (JNumber n) => negb (numberIsZero n)
  | Some (JString s) => negb (isEmpty s)
  | Some (JArray _) | Some (JObject _) => true
  end.

(** [typeof field === "string" ? field : createId()] *)
Definition idOf (field : option Json) (e : Env) : jsString * Env :=
  match field with
  | Some (JString s) => (s, e)
  | _ => drawId e
  end.

(** The callback that makes a card of a stored item. *)
Definition cardOf (item : Json) (e : Env) : option (Flashcard * Env) :=
  let '(cardId, e1) := idOf (get (lit "id") item) e in
  q ← textOf (get (lit "question") item);
  a ← textOf (get (lit "answer") item);
  Some (mkCard cardId (trim q) (trim a) (truthy (get (lit "learned") item)),
        e1).

Fixpoint cardsOf (items : list Json) (e : Env)
  : option (list Flashcard * Env) :=
  match items with
  | [] => Some ([], e)
  | item :: rest =>
      r1 ← cardOf item e;
      r2 ← cardsOf rest (snd r1);
      Some (fst r1 :: fst r2, snd r2)
  end.

Definition hasTexts (card : Flashcard) : bool :=
  negb (isEmpty (question card)) && negb (isEmpty (answer card)).

(** The three steps on the items of a stored array of cards: the objects
    among them, as cards, with a question and an answer. *)
Definition keptCards (rawCards : list Json) (e : Env)
  : option (list Flashcard * Env) :=
  r ← cardsOf (List.filter isObjectLike rawCards) e;
  Some (List.filter hasTexts (fst r), snd r).

Definition parsesAsDate (value : jsString) : bool :=
  match timeOf value with
  | Some _ => true
  | None => false
  end.

(** The callback of [hydrateStoredSets] on one stored item: a set, or
    [null] ([None]). *)
Definition setOf (item : Json) (e : Env)
  : option (option FlashcardSet * Env) :=
  if negb (isObjectLike item) then Some (None, e)
  else
    let rawCards := match get (lit "cards") item with
                    | Some (JArray l) => l
                    | _ => []
                    end in
    r ← keptCards rawCards e;
    let cards := fst r in
    if (length cards =? 0)%nat then Some (None, snd r)
    else
      let '(importedAt, e2) :=
        match get (lit "importedAt") item with
        | Some (JString s) => if parsesAsDate s then (s, snd r) else readClock (snd r)
        | _ => readClock (snd r)
        end in
      let name :=
        match get (lit "name") item with
        | Some (JString s) =>
            if isEmpty (trim s) then lit "Imported PDF" else trim s
        | _ => lit "Imported PDF"
        end in
      let '(setId, e3) := idOf (get (lit "id") item) e2 in
      Some (Some (mkSet setId name importedAt cards), e3).

Fixpoint setsOf (items : list Json) (e : Env)
  : option (list FlashcardSet * Env) :=
  match items with
  | [] => Some ([], e)
  | item :: rest =>
      r1 ← setOf item e;
      r2 ← setsOf rest (snd r1);
      Some (match fst r1 with
            | Some set => set :: fst r2
            | None => fst r2
            end, snd r2)
  end.

(** [hydrateStoredSets]: [value] is what [localStorage.getItem] gave.
    Whatever is thrown on the way is caught, and the result is then the
    empty list.  The result of [orderSets] is the result. *)
Definition hydrateStoredSets (value : option jsString)
  : option (list FlashcardSet) :=
  match value with
  | None => Some []
  | Some text =>
      if isEmpty text then Some []
      else
        match jsonParse text with
        | Some (JArray items) =>
            match setsOf items (mkEnv 0 0) with
            | Some r => orderSets timeOf (fst r)
            | None => Some []
            end
        | _ => Some []
        end
  end.

(** [migrateLegacyCards] *)
Definition migrateLegacyCards (value : option jsString) : list FlashcardSet :=
  match value with
  | None => []
  | Some text =>
      if isEmpty text then []
      else
        match jsonParse text with
        | Some (JArray items) =>
            match keptCards items (mkEnv 0 0) with
            | Some r =>
                if (length (fst r) =? 0)%nat then []
                else
                  let '(setId, e1) := drawId (snd r) in
                  let '(importedAt, _) := readClock e1 in
                  [mkSet setId (lit "Imported Flashcards") importedAt (fst r)]
            | None => []
            end
        | _ => []
        end
  end.

End Json.

Arguments JNull {Num}.
Arguments JBool {Num} b.
Arguments JNumber {Num} n.
Arguments JString {Num} s.
Arguments JArray {Num} items.
Arguments JObject {Num} fields.
Arguments isObjectLike {Num} v.
Arguments hasKey {Num} key fields.
Arguments get {Num} key item.

End Storage.

(** ** app/page.tsx: what [handleGenerate] does with the answer of the backend *)

Module HomePage.

Import Flashcards Pdf.

(** What the handler leaves on the page: an error message, or the set it
    passes to [addSet] with the status message. *)
Inductive Feedback :=
| Error (message : jsString)
| Added (newSet : FlashcardSet) (statusMessage : jsString).

Definition noFlashcardsMessage : jsString :=
  lit "The AI response did not contain any flashcards.".
Definition noPairsMessage : jsString :=
  lit "Could not parse any Q/A pairs from the AI response.".
Definition noNewCardsMessage : jsString :=
  lit "No new flashcards were generated from this file.".

Section Generate.

Variable toLowerCase : jsString -> jsString.

(** [handleGenerate] once the backend has answered without an error field.
    [flashcards] is [res.data?.flashcards] when it is a string; [ids] is the
    random source of the invocation, of which [buildFlashcardsFromParsed]
    takes one value per card before the set takes the next; [nowIso] is
    [new Date().toISOString()]. *)
Definition handleGenerate (ids : nat -> jsString) (nowIso fileName : jsString)
  (flashcards : option jsString) : Feedback :=
  let aiOutput := match flashcards with Some s => s | None => [] end in
  if isEmpty (trim aiOutput) then Error noFlashcardsMessage
  else
    let parsedCards := parseFlashcards aiOutput in
    if (length parsedCards =? 0)%nat then Error noPairsMessage
    else
      let newCards := buildFlashcardsFromParsed toLowerCase ids parsedCards in
      if (length newCards =? 0)%nat then Error noNewCardsMessage
      else
        let '(newId, _) := createId ids (length newCards) in
        Added (mkSet newId fileName nowIso newCards)
          (lit "Added " ++ decimal (length newCards)
           ++ lit " flashcards from " ++ [34] ++ fileName ++ [34] ++ lit ".").

End Generate.

End HomePage.

(** ** Properties of the code, in words of their own *)

Module Properties.

Import Flashcards Pdf Panel Storage.

(** A text as the deck stores it: not empty, and with no whitespace around
    it. *)
Definition isStoredText (s : jsString) : Prop := s <> [] /\ trim s = s.

Definition isStoredRecord (r : ParsedFlashcard) : Prop :=
  isStoredText (pQuestion r) /\ isStoredText (pAnswer r).

Definition isFreshCard (c : Flashcard) : Prop :=
  isStoredText (question c) /\ isStoredText (answer c) /\ learned c = false.

(** The separator that [canonicalKey] puts between the two texts. *)
Definition separator : jsString := Eval cbv in lit "::".

(** Whether the tokenizer takes the line for a question line. *)
Definition isQuestionLineb (line : jsString) : bool :=
  match matchQuestion (trim line) with
  | Some _ => true
  | None => false
  end.

(** One for a pending question. *)
Definition pendingCount (st : ParseState) : nat :=
  match currentQuestion st with
  | Some _ => 1
  | None => 0
  end.

Definition countQuestionLines (lines : list jsString) : nat :=
  length (List.filter isQuestionLineb lines).

(** A text with its line feeds written as carriage return and line feed, and
    as carriage returns alone. *)
Definition withCrLf (text : jsString) : jsString :=
  flat_map (fun c => if c =? 10 then [13; 10] else [c]) text.

Definition withCr (text : jsString) : jsString :=
  map (fun c => if c =? 10 then 13 else c) text.

(** A sanitized text: printable ASCII, no space at either end, no two
    spaces in a row. *)
Definition isPrintable (c : N) : Prop := 32 <= c <= 126.

Fixpoint noDoubleSpace (s : jsString) : bool :=
  match s with
  | a :: r =>
      match r with
      | b :: _ => negb ((a =? 32) && (b =? 32)) && noDoubleSpace r
      | [] => true
      end
  | [] => true
  end.

Definition isSanitized (s : jsString) : Prop :=
  Forall isPrintable s /\ trim s = s /\ noDoubleSpace s = true.

(** The code units of the lines that are not spaces, in order. *)
Definition inkOf (ls : list jsString) : jsString :=
  List.filter (fun c => negb (c =? 32)) (concat ls).

(** What [escapePdfText] writes for one code unit. *)
Definition escapeCode (c : N) : jsString :=
  if c =? 92 then [92; 92]
  else if c =? 40 then [92; 40]
  else if c =? 41 then [92; 41]
  else [c].

(** A reader of the text of a PDF string as [escapePdfText] writes it: a
    backslash makes the backslash or the parenthesis after it stand for
    itself; a parenthesis on its own, and a backslash before anything else,
    are refused. *)
Fixpoint readPdfText (s : jsString) : option jsString :=
  match s with
  | [] => Some []
  | c :: r =>
      if c =? 92 then
        match r with
        | d :: r' =>
            if (d =? 92) || (d =? 40) || (d =? 41)
            then option_map (cons d) (readPdfText r')
            else None
        | [] => None
        end
      else if (c =? 40) || (c =? 41) then None
      else option_map (cons c) (readPdfText r)
  end.

(** A code unit that is not whitespace. *)
Definition notSpace (c : N) : bool := negb (isWhiteSpace c).

(** The runs of a class replaced, as a scan: [inRun] says that the code unit
    before was of the class, already replaced. *)
Fixpoint scanRuns (class : N -> bool) (replacement : jsString) (inRun : bool)
  (s : jsString) : jsString :=
  match s with
  | [] => []
  | c :: r =>
      if class c
      then (if inRun then scanRuns class replacement true r
            else replacement ++ scanRuns class replacement true r)
      else c :: scanRuns class replacement false r
  end.

(** The two hyphens that [toSafeFileName] takes off last: the one the text
    begins with and the one it ends with. *)
Fixpoint dropLastHyphen (s : jsString) : jsString :=
  match s with
  | [] => []
  | c :: r =>
      match r with
      | [] => if c =? 45 then [] else [c]
      | _ :: _ => c :: dropLastHyphen r
      end
  end.

Definition dropEdgeHyphens (s : jsString) : jsString :=
  dropLastHyphen (match s with
                  | c :: r => if c =? 45 then r else s
                  | [] => []
                  end).

(** No two code units [c] side by side. *)
Fixpoint noTwo (c : N) (s : jsString) : bool :=
  match s with
  | a :: r =>
      match r with
      | b :: _ => negb ((a =? c) && (b =? c)) && noTwo c r
      | [] => true
      end
  | [] => true
  end.

(** A safe file name: letters, digits, underscores and single hyphens, with
    no hyphen at either end, and not empty. *)
Definition isSafeName (s : jsString) : Prop :=
  s <> []
  /\ Forall (fun c => Panel.isFileNameUnit c = true) s
  /\ noTwo 45 s = true
  /\ hd 0 s <> 45
  /\ List.last s 0 <> 45.

(** A card and a set as the program keeps them: texts that are not empty
    and have no blank at their ends, at least one card, a date that reads
    as a date. *)
Definition isKeptCard (c : Flashcard) : Prop :=
  isStoredText (question c) /\ isStoredText (answer c).

Definition isKeptSet (timeOf : jsString -> option Z) (set : FlashcardSet)
  : Prop :=
  isStoredText (name set) /\ setCards set <> []
  /\ Forall isKeptCard (setCards set) /\ timeOf (importedAt set) <> None.

Section Stored.

Context {Num : Type}.

(** What [JSON.parse] reads in what [JSON.stringify] wrote for a card, for
    a set and for a list of sets. *)
Definition cardJson (c : Flashcard) : Json Num :=
  JObject [(lit "id", JString (id c));
           (lit "question", JString (question c));
           (lit "answer", JString (answer c));
           (lit "learned", JBool (learned c))].

Definition setJson (set : FlashcardSet) : Json Num :=
  JObject [(lit "id", JString (setId set));
           (lit "name", JString (name set));
           (lit "importedAt", JString (importedAt set));
           (lit "cards", JArray (map cardJson (setCards set)))].

Definition setsJson (sets : list FlashcardSet) : Json Num :=
  JArray (map setJson sets).

(** A stored text that [toString] cannot be called on: an object with a
    property [toString] of its own. *)
Definition hasNoText (v : Json Num) : Prop :=
  exists fields, v = JObject fields /\ hasKey (lit "toString") fields = true.

End Stored.

(** What [handleDownloadClick] puts after the safe name. *)
Definition downloadSuffix : jsString := Eval cbv in lit "-flashcards.pdf".

Section Order.

Variable timeOf : jsString -> option Z.

(** The sets from the newest to the oldest: no set is older than the one
    after it. *)
Fixpoint newestFirst (sets : list FlashcardSet) : Prop :=
  match sets with
  | a :: rest =>
      match rest with
      | b :: _ =>
          (exists ta tb, timeOf (importedAt a) = Some ta
                         /\ timeOf (importedAt b) = Some tb /\ (tb <= ta)%Z)
          /\ newestFirst rest
      | [] => True
      end
  | [] => True
  end.

(** The sets imported at the time [t]. *)
Definition importedAtTime (t : Z) (sets : list FlashcardSet)
  : list FlashcardSet :=
  List.filter (fun set => match timeOf (importedAt set) with
                          | Some t' => (t' =? t)%Z
                          | None => false
                          end) sets.

End Order.

End Properties.

(** * Properties *)

(** ** The definitions on concrete inputs *)

Module Examples.

Import Flashcards Pdf Spec.

(** The end-to-end example of the specification. *)
Example parse_end_to_end :
  parseFlashcards
    (lit "1. Q: What is 2+2?" ++ [10] ++ lit "A: 4" ++ [10]
     ++ lit "Q: Capital of France?" ++ [10] ++ lit "A: Paris")
  = [mkParsed (lit "What is 2+2?") (lit "4");
     mkParsed (lit "Capital of France?") (lit "Paris")].
Proof. vm_compute. reflexivity. Qed.

(** Markers in full, in any case, with blanks around the colon, and line
    ends of the three kinds. *)
Example parse_marker_variants :
  parseFlashcards
    (lit "  question :  What? " ++ [13; 10] ++ lit "ANSWER:That." ++ [13]
     ++ lit "q:x" ++ [10] ++ lit "a :y")
  = [mkParsed (lit "What?") (lit "That."); mkParsed (lit "x") (lit "y")].
Proof. vm_compute. reflexivity. Qed.

Example matchQuestion_needs_text :
  matchQuestion (lit "Q:") = None /\ matchAnswer (lit "A:") = Some [].
Proof. split; vm_compute; reflexivity. Qed.

(** The whitespace after the colon gives back its last code unit when the
    group would be empty otherwise. *)
Example matchQuestion_gives_back :
  matchQuestion (lit "Q:  ") = Some (lit " ")
  /\ matchAnswer (lit "A:  ") = Some [].
Proof. split; vm_compute; reflexivity. Qed.

(** A pattern that matches the empty string is replaced at every position
    where nothing longer matches, the end of the input included. *)
Example replace_empty_matches :
  Regex.replaceAll false (Regex.Many (N.eqb 98)) (lit "X") (lit "abc")
  = lit "XaXXcX".
Proof. vm_compute. reflexivity. Qed.

Example matchQuestion_needs_colon_after_marker :
  matchQuestion (lit "Quest: x") = None
  /\ matchQuestion (lit "Question: x") = Some (lit "x")
  /\ matchQuestion (lit "The Q: x") = None.
Proof. repeat split; vm_compute; reflexivity. Qed.

(** A line separator inside the text keeps the dot of the pattern from
    reaching the end. *)
Example matchQuestion_line_separator :
  matchQuestion (lit "Q: a" ++ [8232] ++ lit "b") = None.
Proof. vm_compute. reflexivity. Qed.

(** The ordinal markers go at the start of every line, with the whitespace
    around them, line feeds included. *)
Example stripOrdinals_lines :
  stripOrdinals
    (lit "  12. a 3. b" ++ [10] ++ lit "4." ++ [10] ++ lit "5. c" ++ [10]
     ++ lit "6 . d")
  = lit "a 3. b" ++ [10] ++ lit "c" ++ [10] ++ lit "6 . d".
Proof. vm_compute. reflexivity. Qed.

(** Continuation lines that begin with an ordinal marker reach the loop
    without it. *)
Example numbered_continuation_lines :
  parseFlashcards
    (lit "Q: Steps?" ++ [10] ++ lit "A: In order:" ++ [10] ++ lit "1. mix"
     ++ [10] ++ lit "2. bake")
  = [mkParsed (lit "Steps?")
       (lit "In order:" ++ [10] ++ lit "mix" ++ [10] ++ lit "bake")].
Proof. vm_compute. reflexivity. Qed.

(** An answer line without a question before it opens nothing. *)
Example answer_without_question :
  parseFlashcards (lit "A: a" ++ [10] ++ lit "b" ++ [10] ++ lit "c") = [].
Proof. vm_compute. reflexivity. Qed.

Example dedupe_case_and_blanks :
  dedupe asciiLowerCase decimal
    [mkParsed (lit "Hi") (lit "x"); mkParsed (lit " hI ") (lit "X ");
     mkParsed (lit "a") (lit "b")]
  = [mkParsed (lit "Hi") (lit "x"); mkParsed (lit "a") (lit "b")].
Proof. vm_compute. reflexivity. Qed.

Example sanitize_text :
  sanitizeTextValue (lit "  caf" ++ [233] ++ [9; 10] ++ lit "au  lait " ++ [55357; 56832])
  = lit "caf? au lait ??".
Proof. vm_compute. reflexivity. Qed.

Example wrap_words :
  wrapLongLine (lit "aaaaaaaaaaaa bb ccc dddddd   e f g") 5
  = Some (map lit ["aaaaa"; "aaaaa"; "aa bb"; "ccc"; "ddddd"; "d e f"; "g"]%string).
Proof. vm_compute. reflexivity. Qed.

Example wrap_with_prefix :
  wrapWithPrefix (lit "aaaaaaaaaa bb ccc") (lit "Q: ") 8
  = Some (map lit ["Q: aaaaa"; "   aaaaa"; "   bb"; "   ccc"]%string).
Proof. vm_compute. reflexivity. Qed.

(** With a width of zero the loop of [breakWordIntoSegments] does not end. *)
Example wrap_width_zero :
  wrapLongLine (lit "a") 0 = None /\ wrapLongLine (lit "  ") 0 = Some [[]].
Proof. split; vm_compute; reflexivity. Qed.

Example escape_text :
  escapePdfText (lit "f(x) = a" ++ [92] ++ lit "b")
  = lit "f" ++ [92] ++ lit "(x" ++ [92] ++ lit ") = a" ++ [92; 92] ++ lit "b".
Proof. vm_compute. reflexivity. Qed.

Example lines_per_page : maxLinesPerPage = 38%nat.
Proof. reflexivity. Qed.

Example paginate_five_by_two :
  paginate (map lit ["a"; "b"; "c"; "d"; "e"]%string) 2
  = [[lit "a"; lit "b"]; [lit "c"; lit "d"]; [lit "e"]].
Proof. vm_compute. reflexivity. Qed.

Example utf8_of_code_units :
  utf8Encode [65; 233; 8364; 55357; 56832; 56832]
  = [65; 195; 169; 226; 130; 172; 240; 159; 152; 128; 239; 191; 189].
Proof. vm_compute. reflexivity. Qed.

(** The document of the example deck: where its objects are, as its
    cross-reference section lists them, and what its trailer declares. *)
Example example_document_xref :
  exists bytes,
    createFlashcardsPdfBlob exampleRuntime exampleSet = Some (Blob bytes)
    /\ length bytes = 789%nat
    /\ xrefTable bytes = Some [9; 58; 115; 185; 317]%nat
    /\ declaredStartxref bytes = Some 607%nat
    /\ declaredSize bytes = Some 6%nat.
Proof. eexists. repeat split; vm_compute; reflexivity. Qed.

End Examples.

(** ** Strings *)

Module JsFacts.

Lemma isEmpty_true (s : jsString) : isEmpty s = true <-> s = [].
Proof. destruct s; simpl; split; congruence. Qed.

Lemma isEmpty_false (s : jsString) : isEmpty s = false <-> s <> [].
Proof. destruct s; simpl; split; congruence. Qed.

Lemma trimStart_idem (s : jsString) : trimStart (trimStart s) = trimStart s.
Proof.
  induction s as [|c r IH]; simpl; [reflexivity|].
  destruct (isWhiteSpace c) eqn:E; [exact IH|].
  simpl. now rewrite E.
Qed.

Lemma trimStart_head (c : N) (r : jsString) :
  isWhiteSpace c = false -> trimStart (c :: r) = c :: r.
Proof. intros E. simpl. now rewrite E. Qed.

Lemma trimEnd_idem (s : jsString) : trimEnd (trimEnd s) = trimEnd s.
Proof.
  induction s as [|c r IH]; simpl; [reflexivity|].
  destruct (trimEnd r) as [|d r'] eqn:E.
  - destruct (isWhiteSpace c) eqn:W; simpl; [reflexivity|now rewrite W].
  - remember (d :: r') as t. simpl. rewrite IH. subst t. reflexivity.
Qed.

Lemma trimEnd_cons (c : N) (r : jsString) :
  trimEnd r <> [] -> trimEnd (c :: r) = c :: trimEnd r.
Proof. intros H. simpl. destruct (trimEnd r); congruence. Qed.

Lemma trimEnd_cons_nonws (c : N) (r : jsString) :
  isWhiteSpace c = false -> trimEnd (c :: r) = c :: trimEnd r.
Proof. intros H. simpl. destruct (trimEnd r); [now rewrite H|reflexivity]. Qed.

Lemma trimEnd_trimStart (s : jsString) :
  trimEnd (trimStart s) = trimStart (trimEnd s).
Proof.
  induction s as [|c r IH]; [reflexivity|].
  destruct (isWhiteSpace c) eqn:W.
  - change (trimStart (c :: r))
      with (if isWhiteSpace c then trimStart r else c :: r).
    rewrite W, IH.
    destruct (trimEnd r) as [|d r'] eqn:E.
    + simpl. rewrite E, W. reflexivity.
    + rewrite trimEnd_cons by (rewrite E; discriminate).
      rewrite E. simpl. rewrite W. reflexivity.
  - rewrite (trimStart_head _ _ W), (trimEnd_cons_nonws _ _ W).
    now rewrite (trimStart_head _ _ W).
Qed.

Lemma trim_idem (s : jsString) : trim (trim s) = trim s.
Proof.
  unfold trim. rewrite trimEnd_trimStart, trimEnd_idem.
  apply trimStart_idem.
Qed.

Lemma split_line (l rest : jsString) :
  Forall (fun c => c <> 10) l ->
  split 10 (l ++ 10 :: rest) = l :: split 10 rest.
Proof.
  induction 1 as [|c r Hc Hr IH]; simpl; [reflexivity|].
  apply N.eqb_neq in Hc. now rewrite Hc, IH.
Qed.

Lemma split_last (l : jsString) :
  Forall (fun c => c <> 10) l -> split 10 l = [l].
Proof.
  induction 1 as [|c r Hc Hr IH]; simpl; [reflexivity|].
  apply N.eqb_neq in Hc. now rewrite Hc, IH.
Qed.

Lemma exists_last_or_nil {A : Type} (l : list A) :
  l = [] \/ exists init x, l = init ++ [x].
Proof. induction l using rev_ind; [now left|right; eauto]. Qed.

Lemma span_app (p : N -> bool) (s : jsString) :
  fst (span p s) ++ snd (span p s) = s.
Proof.
  induction s as [|c r IH]; simpl; [reflexivity|].
  destruct (p c); [|reflexivity].
  destruct (span p r). simpl in *. now rewrite IH.
Qed.

End JsFacts.

(** ** The regular expressions

    Each match and each replacement of the program, as the matcher computes
    it, is the scan of the same name. *)

Module RegexFacts.

Import Regex Flashcards Pdf Scan JsFacts.

Section Many.

Context {A : Type}.

Lemma many_ext (class : N -> bool) (k1 k2 : option N -> jsString -> option A) :
  (forall b s, k1 b s = k2 b s) ->
  forall s before, many class before s k1 = many class before s k2.
Proof.
  intros E. induction s as [|c r IH]; intros before; simpl; [apply E|].
  destruct (class c); [|apply E]. now rewrite IH, E.
Qed.

(** When the rest of the pattern cannot start with a code unit of the
    class, only the longest run can do. *)
Lemma many_commit (class : N -> bool) (k : option N -> jsString -> option A) :
  (forall b c r, class c = true -> k b (c :: r) = None) ->
  forall s before,
    many class before s k
    = k (lastBefore before (fst (span class s))) (snd (span class s)).
Proof.
  intros F. induction s as [|c r IH]; intros before; cbn [many span];
    [reflexivity|].
  destruct (class c) eqn:C; [|reflexivity].
  rewrite IH. destruct (span class r) as [w rest]. cbn [fst snd lastBefore].
  destruct (k (lastBefore (Some c) w) rest) eqn:K; [reflexivity|].
  now apply F.
Qed.

(** When the rest of the pattern succeeds after the longest run, that is
    the match. *)
Lemma many_greedy (class : N -> bool) (k : option N -> jsString -> option A) :
  forall s before x,
    k (lastBefore before (fst (span class s))) (snd (span class s)) = Some x ->
    many class before s k = Some x.
Proof.
  induction s as [|c r IH]; intros before x; cbn [many span]; [trivial|].
  destruct (class c) eqn:C; [|trivial].
  specialize (IH (Some c) x).
  destruct (span class r) as [w rest]. cbn [fst snd lastBefore] in *.
  intros K. now rewrite (IH K).
Qed.

End Many.

Lemma span_all (p : N -> bool) (s : jsString) :
  forallb p s = true -> span p s = (s, []).
Proof.
  induction s as [|c r IH]; simpl; [reflexivity|].
  rewrite andb_true_iff. intros [C R]. now rewrite C, IH.
Qed.

Lemma span_stops (p : N -> bool) (s : jsString) :
  forallb p s = false -> snd (span p s) <> [].
Proof.
  induction s as [|c r IH]; simpl; [discriminate|].
  destruct (p c); simpl; [|discriminate].
  intros R. destruct (span p r). now apply IH.
Qed.

Lemma span_length (p : N -> bool) (s : jsString) :
  (length (fst (span p s)) + length (snd (span p s)))%nat = length s.
Proof.
  induction s as [|c r IH]; simpl; [reflexivity|].
  destruct (p c); [|reflexivity]. destruct (span p r). simpl in *. lia.
Qed.

(** *** The tails of the two line patterns *)

(** The capture of one code unit or more up to the end of the input. *)
Lemma run_capture_nonempty (total : nat) (before : option N) (s : jsString)
  (g : option jsString) :
  run false
    (Then (Group (Then (Unit notTerminator) (Many notTerminator))) InputEnd)
    before s g (final total)
  = if negb (isEmpty s) && noLineTerminator s then Some (total, Some s)
    else None.
Proof.
  cbn [run]. destruct s as [|c r]; [reflexivity|].
  change (noLineTerminator (c :: r))
    with (notTerminator c && forallb notTerminator r).
  destruct (notTerminator c); [|reflexivity].
  rewrite many_commit.
  - destruct (forallb notTerminator r) eqn:R.
    + rewrite (span_all _ _ R). cbn. unfold final. cbn.
      rewrite Nat.sub_0_r. now rewrite (firstn_all r).
    + pose proof (span_stops _ _ R) as NE.
      destruct (snd (span notTerminator r)); [congruence|reflexivity].
  - reflexivity.
Qed.

(** The capture of any number of code units up to the end of the input. *)
Lemma run_capture_any (total : nat) (before : option N) (s : jsString)
  (g : option jsString) :
  run false (Then (Group (Many notTerminator)) InputEnd)
    before s g (final total)
  = if noLineTerminator s then Some (total, Some s) else None.
Proof.
  cbn [run]. rewrite many_commit by reflexivity.
  change (noLineTerminator s) with (forallb notTerminator s).
  destruct (forallb notTerminator s) eqn:R.
  - rewrite (span_all _ _ R). cbn. unfold final. cbn.
    rewrite !Nat.sub_0_r. now rewrite (firstn_all s).
  - pose proof (span_stops _ _ R) as NE.
    destruct (snd (span notTerminator s)); [congruence|reflexivity].
Qed.

Lemma noLineTerminator_app (a b : jsString) :
  noLineTerminator (a ++ b) = noLineTerminator a && noLineTerminator b.
Proof. unfold noLineTerminator. apply forallb_app. Qed.

Lemma captureAny_cons_space (c : N) (r : jsString) :
  isWhiteSpace c = true -> captureAny (c :: r) = captureAny r.
Proof.
  intros W. unfold captureAny. simpl. rewrite W.
  now destruct (span isWhiteSpace r).
Qed.

Lemma captureAny_fails (s : jsString) :
  captureAny s = None -> noLineTerminator s = false.
Proof.
  unfold captureAny. pose proof (span_app isWhiteSpace s) as A.
  destruct (span isWhiteSpace s) as [w r]. simpl in A. subst s.
  rewrite noLineTerminator_app.
  destruct (noLineTerminator r); [discriminate|]. now rewrite andb_false_r.
Qed.

(** Whitespace, then the capture of the rest: backtracking into the
    whitespace never helps, since the capture takes whitespace too. *)
Lemma many_capture_any (total : nat) (s : jsString) :
  forall before,
    many isWhiteSpace before s
      (fun _ s' => if noLineTerminator s' then Some (total, Some s') else None)
    = option_map (fun r => (total, Some r)) (captureAny s).
Proof.
  induction s as [|c r IH]; intros before; [reflexivity|].
  cbn [many]. destruct (isWhiteSpace c) eqn:W.
  - rewrite IH, (captureAny_cons_space c r W).
    destruct (captureAny r) eqn:C; [reflexivity|].
    change (noLineTerminator (c :: r))
      with (notTerminator c && noLineTerminator r).
    now rewrite (captureAny_fails r C), andb_false_r.
  - unfold captureAny. cbn [span]. rewrite W. cbn.
    now destruct (negb (isLineTerminator c) && _).
Qed.


Lemma captureNonEmpty_cons_space (c : N) (r : jsString) :
  isWhiteSpace c = true ->
  captureNonEmpty (c :: r)
  = match captureNonEmpty r with
    | Some x => Some x
    | None => if noLineTerminator (c :: r) then Some (c :: r) else None
    end.
Proof.
  intros W. unfold captureNonEmpty. cbn [span]. rewrite W.
  pose proof (span_app isWhiteSpace r) as A.
  destruct (span isWhiteSpace r) as [w rest]. cbn [fst snd] in A. subst r.
  change (noLineTerminator (c :: w ++ rest))
    with (notTerminator c && noLineTerminator (w ++ rest)).
  rewrite noLineTerminator_app.
  destruct rest as [|x rest].
  - rewrite app_nil_r, andb_true_r. cbn [rev].
    destruct (exists_last_or_nil w) as [->|[w' [y ->]]].
    + cbn. unfold notTerminator. now destruct (isLineTerminator c).
    + rewrite rev_app_distr. cbn [rev app].
      rewrite noLineTerminator_app. cbn [noLineTerminator forallb].
      destruct (isLineTerminator y); [|reflexivity].
      cbn. now rewrite !andb_false_r.
  - destruct (noLineTerminator (x :: rest)); [reflexivity|].
    now rewrite !andb_false_r.
Qed.

(** Whitespace, then the capture of one code unit or more: when the
    whitespace takes everything, it gives back its last code unit. *)
Lemma many_capture_nonempty (total : nat) (s : jsString) :
  forall before,
    many isWhiteSpace before s
      (fun _ s' => if negb (isEmpty s') && noLineTerminator s'
                   then Some (total, Some s') else None)
    = option_map (fun r => (total, Some r)) (captureNonEmpty s).
Proof.
  induction s as [|c r IH]; intros before; [reflexivity|].
  cbn [many]. destruct (isWhiteSpace c) eqn:W.
  - rewrite IH, (captureNonEmpty_cons_space c r W).
    destruct (captureNonEmpty r); [reflexivity|]. cbn [option_map isEmpty negb andb].
    now destruct (noLineTerminator (c :: r)).
  - unfold captureNonEmpty. cbn [span]. rewrite W. cbn [isEmpty negb andb].
    now destruct (noLineTerminator (c :: r)).
Qed.

Lemma space_not_colon (c : N) : isWhiteSpace c = true -> (58 =? c) = false.
Proof.
  intros W. destruct (58 =? c) eqn:E; [|reflexivity].
  apply N.eqb_eq in E. subst c. discriminate.
Qed.

Lemma space_not_digit (c : N) : isWhiteSpace c = true -> isDigit c = false.
Proof.
  intros W. destruct (isDigit c) eqn:D; [|reflexivity].
  unfold isDigit in D. apply andb_true_iff in D as [L H].
  apply N.leb_le in L. apply N.leb_le in H.
  assert (In c [48;49;50;51;52;53;54;55;56;57]) as I
    by (cbn; lia).
  cbn in I. repeat (destruct I as [<-|I]; [discriminate|]). destruct I.
Qed.

Lemma digit_not_period (c : N) : isDigit c = true -> (46 =? c) = false.
Proof.
  intros D. destruct (46 =? c) eqn:E; [|reflexivity].
  apply N.eqb_eq in E. subst c. discriminate.
Qed.

Section Marked.

Variable capturePattern : pattern.
Variable capture : jsString -> option jsString.

Hypothesis capture_run :
  forall total before s g,
    run false (Then (Many isWhiteSpace) capturePattern) before s g (final total)
    = option_map (fun r => (total, Some r)) (capture s).

Lemma run_afterMarker (total : nat) (before : option N) (s : jsString)
  (g : option jsString) :
  run false
    (Then (Many isWhiteSpace) (Then (code 58) (Then (Many isWhiteSpace)
       capturePattern)))
    before s g (final total)
  = option_map (fun r => (total, Some r)) (afterMarker capture s).
Proof.
  change (many isWhiteSpace before s
            (fun before' s' =>
               match s' with
               | c :: r =>
                   if 58 =? c
                   then run false (Then (Many isWhiteSpace) capturePattern)
                          (Some c) r g (final total)
                   else None
               | [] => None
               end)
          = option_map (fun r => (total, Some r)) (afterMarker capture s)).
  rewrite many_commit.
  - unfold afterMarker. destruct (snd (span isWhiteSpace s)) as [|c r];
      [reflexivity|].
    rewrite (N.eqb_sym c 58). destruct (58 =? c); [|reflexivity].
    apply capture_run.
  - intros b c r W. now rewrite (space_not_colon c W).
Qed.

Lemma run_word (total : nat) (w : jsString) (tail : pattern) :
  (forall before s g,
     run false tail before s g (final total)
     = run false tail None s None (final total)) ->
  forall before s g,
    run false (Then (word w) tail) before s g (final total)
    = match matchWord w s with
      | Some r => run false tail None r None (final total)
      | None => None
      end.
Proof.
  intros T. induction w as [|c w IH]; intros before s g.
  - cbn [word run matchWord]. apply T.
  - cbn [word matchWord]. destruct s as [|x r]; [reflexivity|].
    specialize (IH (Some x) r g). cbn [run] in *. cbn [letter run].
    now destruct (canonicalize x =? canonicalize c).
Qed.

Lemma matchHere_marked (short long s : jsString) :
  matchHere false
    (Then LineStart
       (Then (Or (word short) (word long))
          (Then (Many isWhiteSpace) (Then (code 58) (Then (Many isWhiteSpace)
             capturePattern)))))
    None s
  = option_map (fun r => (length s, Some r))
      (matchMarked short long capture s).
Proof.
  unfold matchHere.
  set (tail := Then (Many isWhiteSpace) _).
  assert (forall before s' g,
            run false tail before s' g (final (length s))
            = run false tail None s' None (final (length s))) as T
    by (intros; unfold tail; now rewrite !run_afterMarker).
  assert (forall r,
            run false tail None r None (final (length s))
            = option_map (fun x => (length s, Some x)) (afterMarker capture r))
    as TT by (intros; apply run_afterMarker).
  pose proof (run_word (length s) short tail T None s None) as S.
  pose proof (run_word (length s) long tail T None s None) as L.
  cbn [run] in S, L. cbn [run atStart]. unfold final in *.
  rewrite S, L. unfold matchMarked.
  destruct (matchWord short s) as [r1|], (matchWord long s) as [r2|];
    rewrite ?TT; try destruct (afterMarker capture r1); reflexivity.
Qed.

End Marked.

Lemma firstMatchFrom_anchored (p : pattern) (s : jsString) :
  forall c, firstMatchFrom false (Then LineStart p) (Some c) s = None.
Proof. induction s as [|x r IH]; intros c; cbn; [reflexivity|apply IH]. Qed.

Lemma matchGroup_anchored (p : pattern) (s : jsString)
  (found : option jsString) :
  matchHere false (Then LineStart p) None s
  = option_map (fun r => (length s, Some r)) found ->
  matchGroup (Then LineStart p) s = found.
Proof.
  intros M. unfold matchGroup.
  destruct s as [|c r]; cbn [firstMatchFrom]; rewrite M;
    destruct found; try reflexivity.
  cbn [option_map]. now rewrite firstMatchFrom_anchored.
Qed.

Lemma matchQuestion_scan (trimmed : jsString) :
  matchQuestion trimmed = scanQuestion trimmed.
Proof.
  apply matchGroup_anchored.
  apply (matchHere_marked _ captureNonEmpty).
  intros total before s g. cbn [run].
  rewrite (many_ext _ _ _ (fun b s' =>
             run_capture_nonempty total b s' g)).
  apply many_capture_nonempty.
Qed.

Lemma matchAnswer_scan (trimmed : jsString) :
  matchAnswer trimmed = scanAnswer trimmed.
Proof.
  apply matchGroup_anchored.
  apply (matchHere_marked _ captureAny).
  intros total before s g. cbn [run].
  rewrite (many_ext _ _ _ (fun b s' =>
             run_capture_any total b s' g)).
  apply many_capture_any.
Qed.


(** *** The ordinal markers *)

Lemma span_fst_length (p : N -> bool) (s : jsString) :
  length s
  = (length (fst (span p s)) + length (snd (span p s)))%nat.
Proof. symmetry. apply span_length. Qed.

Lemma matchHere_ordinal (before : option N) (s : jsString) :
  matchHere true ordinalPattern before s
  = if atStart true before
    then option_map (fun n => (n, None)) (ordinalMatchLength s)
    else None.
Proof.
  unfold matchHere, final, ordinalPattern. cbn [run].
  destruct (atStart true before); [|reflexivity].
  rewrite many_commit.
  2:{ intros b c r W. unfold digit. cbn [run].
      now rewrite (space_not_digit c W). }
  unfold ordinalMatchLength.
  pose proof (span_fst_length isWhiteSpace s) as L1.
  destruct (span isWhiteSpace s) as [w r1]. cbn [fst snd] in *.
  unfold digit. cbn [run span].
  destruct r1 as [|c r]; [reflexivity|]. cbn [span].
  destruct (isDigit c) eqn:D; [|reflexivity].
  rewrite many_commit.
  2:{ intros b x r' D'. unfold code. cbn [run].
      now rewrite (digit_not_period x D'). }
  pose proof (span_fst_length isDigit r) as L2.
  destruct (span isDigit r) as [d r2]. cbn [fst snd] in *.
  unfold code. cbn [run].
  destruct r2 as [|x r3]; [reflexivity|].
  rewrite (N.eqb_sym x 46). destruct (46 =? x); [|reflexivity].
  pose proof (span_fst_length isWhiteSpace r3) as L3.
  erewrite many_greedy; [|reflexivity].
  destruct (span isWhiteSpace r3) as [w' r4]. cbn [fst snd option_map] in *.
  do 2 f_equal. cbn [length] in *. lia.
Qed.

Lemma scanOrdinalsFrom_regex (s : jsString) :
  forall before skip,
    replaceFrom true ordinalPattern [] before skip s
    = scanOrdinalsFrom (atStart true before) skip s.
Proof.
  induction s as [|c r IH]; intros before skip.
  - cbn [replaceFrom scanOrdinalsFrom].
    destruct skip; [|reflexivity].
    now destruct (matchHere true ordinalPattern before []).
  - cbn [replaceFrom scanOrdinalsFrom]. destruct skip as [|k].
    + rewrite matchHere_ordinal.
      destruct (atStart true before); [|now rewrite IH].
      destruct (ordinalMatchLength (c :: r)) as [[|k]|]; cbn [option_map app];
        now rewrite IH.
    + now rewrite IH.
Qed.

Lemma stripOrdinals_scan (s : jsString) :
  stripOrdinals s = scanOrdinals s.
Proof. apply scanOrdinalsFrom_regex. Qed.

(** *** Line ends *)

Lemma matchHere_newline (before : option N) (s : jsString) :
  matchHere false newlinePattern before s
  = match s with
    | c :: r =>
        if 13 =? c then
          match r with
          | d :: _ => if 10 =? d then Some (2%nat, None) else Some (1%nat, None)
          | [] => Some (1%nat, None)
          end
        else None
    | [] => None
    end.
Proof.
  unfold matchHere, final, newlinePattern, code. cbn [run].
  destruct s as [|c r]; [reflexivity|].
  destruct (13 =? c); [|reflexivity].
  destruct r as [|d r']; cbn [length].
  - reflexivity.
  - destruct (10 =? d); do 2 f_equal; lia.
Qed.

Lemma scanNewlines_regex (n : nat) :
  forall s before,
    (length s <= n)%nat ->
    replaceFrom false newlinePattern [10] before 0 s = scanNewlines s.
Proof.
  induction n as [|n IH]; intros s before L.
  - destruct s; [reflexivity|cbn [length] in L; lia].
  - destruct s as [|c r]; [reflexivity|].
    cbn [replaceFrom scanNewlines]. rewrite matchHere_newline.
    cbn [length] in L.
    rewrite (N.eqb_sym c 13). destruct (13 =? c).
    + destruct r as [|d r'].
      * reflexivity.
      * rewrite (N.eqb_sym d 10). cbn [length] in L.
        destruct (10 =? d).
        -- cbn [app replaceFrom]. now rewrite IH by lia.
        -- cbn [app]. now rewrite IH by (cbn [length]; lia).
    + rewrite IH by lia. reflexivity.
Qed.

Lemma normalizeNewlines_scan (s : jsString) :
  normalizeNewlines s = scanNewlines s.
Proof. now apply (scanNewlines_regex (length s)). Qed.

(** *** Runs of whitespace *)

Lemma matchHere_whitespace (before : option N) (s : jsString) :
  matchHere false whitespacePattern before s
  = match s with
    | c :: r =>
        if isWhiteSpace c
        then Some (S (length (fst (span isWhiteSpace r))), None)
        else None
    | [] => None
    end.
Proof.
  unfold matchHere, final, whitespacePattern, space. cbn [run].
  destruct s as [|c r]; [reflexivity|].
  destruct (isWhiteSpace c); [|reflexivity].
  erewrite many_greedy; [|reflexivity].
  pose proof (span_fst_length isWhiteSpace r) as L.
  do 2 f_equal. cbn [length]. lia.
Qed.

Lemma scanWhitespace_regex (s : jsString) :
  forall before,
    replaceFrom false whitespacePattern [32] before 0 s
    = scanWhitespace false s
    /\ replaceFrom false whitespacePattern [32] before
         (length (fst (span isWhiteSpace s))) s
       = scanWhitespace true s.
Proof.
  induction s as [|c r IH]; intros before; [split; reflexivity|].
  destruct (IH (Some c)) as [A B].
  assert (replaceFrom false whitespacePattern [32] before 0 (c :: r)
          = scanWhitespace false (c :: r)) as Here.
  { cbn [replaceFrom scanWhitespace]. rewrite matchHere_whitespace.
    destruct (isWhiteSpace c); [|now rewrite A].
    cbn [app]. now rewrite B. }
  split; [exact Here|].
  cbn [span scanWhitespace] in *. destruct (isWhiteSpace c).
  - destruct (span isWhiteSpace r) as [w rest].
    cbn [fst length replaceFrom] in *. exact B.
  - exact Here.
Qed.

Lemma sanitizeTextValue_scan (value : jsString) :
  sanitizeTextValue value = trim (map printable (scanWhitespace false value)).
Proof.
  unfold sanitizeTextValue, Regex.replaceAll.
  now rewrite (proj1 (scanWhitespace_regex value None)).
Qed.

(** *** Single code units *)

Lemma scanCode_regex (c : N) (replacement s : jsString) :
  forall before,
    replaceFrom false (code c) replacement before 0 s
    = scanCode c replacement s.
Proof.
  induction s as [|x r IH]; intros before; [reflexivity|].
  cbn [replaceFrom]. unfold matchHere, final, code. cbn [run].
  unfold scanCode. cbn [flat_map]. rewrite (N.eqb_sym x c).
  destruct (c =? x).
  - replace (length (x :: r) - length r)%nat with 1%nat by (cbn [length]; lia).
    f_equal. apply IH.
  - cbn [app]. f_equal. apply IH.
Qed.

Lemma escapePdfText_scan (value : jsString) :
  escapePdfText value
  = scanCode 41 [92; 41] (scanCode 40 [92; 40] (scanCode 92 [92; 92] value)).
Proof.
  unfold escapePdfText, Regex.replaceAll. now rewrite !scanCode_regex.
Qed.

End RegexFacts.

(** ** Deduplication *)

Module DedupFacts.

Import Flashcards Spec JsFacts.

Section WithLowerCase.

Variable toLowerCase : jsString -> jsString.

Local Abbreviation key := (keyOf toLowerCase).

Local Abbreviation dedupe := (Spec.dedupe toLowerCase).

Lemma filter_all {A : Type} (P : A -> Prop) `{forall x, Decision (P x)}
  (l : list A) : (forall x, P x) -> filter P l = l.
Proof.
  intros All. induction l as [|x l IH]; [reflexivity|].
  rewrite filter_cons_True by apply All. now rewrite IH.
Qed.

Lemma isRecordb_spec (r : ParsedFlashcard) : isRecordb r = true <-> isRecord r.
Proof.
  unfold isRecordb, isRecord.
  rewrite andb_true_iff, !negb_true_iff, !isEmpty_false. reflexivity.
Qed.

Lemma normalize_idem (r : ParsedFlashcard) : normalize (normalize r) = normalize r.
Proof. unfold normalize. simpl. now rewrite !trim_idem. Qed.

Lemma key_normalize (r : ParsedFlashcard) : key (normalize r) = key r.
Proof. unfold keyOf, canonicalKey, normalize. simpl. now rewrite !trim_idem. Qed.

Lemma isRecordb_normalize (r : ParsedFlashcard) :
  isRecordb (normalize r) = isRecordb r.
Proof. unfold isRecordb, normalize. simpl. now rewrite !trim_idem. Qed.

(** The loop adds exactly the records of [keepNew], whatever the identifiers. *)
Lemma buildStep_fold (ids : nat -> jsString) (l : list ParsedFlashcard) :
  forall st,
    map asParsed (built (fold_left (buildStep toLowerCase ids) l st))
    = map asParsed (built st) ++ keepNew toLowerCase (seen st) l.
Proof.
  induction l as [|r rest IH]; intros st; simpl.
  - now rewrite app_nil_r.
  - rewrite IH. unfold buildStep. unfold isRecordb.
    destruct (isEmpty (trim (pQuestion r))); simpl; [reflexivity|].
    destruct (isEmpty (trim (pAnswer r))); simpl; [reflexivity|].
    change (canonicalKey toLowerCase (trim (pQuestion r)) (trim (pAnswer r)))
      with (key (normalize r)).
    destruct (bool_decide (key (normalize r) ∈ seen st)); simpl; [reflexivity|].
    rewrite map_app, <- app_assoc. reflexivity.
Qed.

Lemma dedupe_keepNew (ids : nat -> jsString) (l : list ParsedFlashcard) :
  dedupe ids l = keepNew toLowerCase ∅ l.
Proof. unfold dedupe, buildFlashcardsFromParsed. now rewrite buildStep_fold. Qed.

(** Every record the loop adds is a trimmed Record whose key was not known,
    and no two of them share a key. *)
Lemma keepNew_fresh (l : list ParsedFlashcard) :
  forall known,
    Forall (fun r => isRecord r /\ normalize r = r /\ key r ∉ known)
      (keepNew toLowerCase known l).
Proof.
  induction l as [|r rest IH]; intros known; simpl; [constructor|].
  destruct (isRecordb r) eqn:V; [|apply IH].
  destruct (bool_decide_reflect (key (normalize r) ∈ known)) as [Hin|Hout];
    [apply IH|].
  constructor.
  - split; [|split; [apply normalize_idem|exact Hout]].
    apply isRecordb_spec. now rewrite isRecordb_normalize.
  - eapply Forall_impl; [apply IH|]. simpl.
    intros x (Hx1 & Hx2 & Hx3). split; [exact Hx1|split; [exact Hx2|]].
    intros Hk. apply Hx3, elem_of_union. now right.
Qed.

Lemma keepNew_NoDup (l : list ParsedFlashcard) :
  forall known, NoDup (map key (keepNew toLowerCase known l)).
Proof.
  induction l as [|r rest IH]; intros known; simpl; [constructor|].
  destruct (isRecordb r); [|apply IH].
  destruct (bool_decide (key (normalize r) ∈ known)); [apply IH|].
  simpl. constructor; [|apply IH].
  intros Hin. apply list_elem_of_In, in_map_iff in Hin.
  destruct Hin as (x & Hk & Hx).
  pose proof (keepNew_fresh rest ({[key (normalize r)]} ∪ known)) as F.
  rewrite Forall_forall in F. apply list_elem_of_In in Hx.
  destruct (F x Hx) as (_ & _ & Hnot).
  apply Hnot, elem_of_union. left. now apply elem_of_singleton.
Qed.

(** Records that are already trimmed, valid and of pairwise distinct unknown
    keys all pass. *)
Lemma keepNew_all (l : list ParsedFlashcard) :
  forall known,
    Forall (fun r => isRecord r /\ normalize r = r /\ key r ∉ known) l ->
    NoDup (map key l) ->
    keepNew toLowerCase known l = l.
Proof.
  induction l as [|r rest IH]; intros known F D; simpl; [reflexivity|].
  inversion F as [|? ? (V & Hn & Hk) F']; subst.
  inversion D as [|? ? Hfirst D']; subst.
  apply isRecordb_spec in V. rewrite V, Hn.
  rewrite bool_decide_eq_false_2 by exact Hk.
  f_equal. apply IH; [|exact D'].
  rewrite Forall_forall in F' |- *. intros x Hx.
  destruct (F' x Hx) as (? & ? & ?). split; [assumption|split; [assumption|]].
  intros Hin. apply elem_of_union in Hin as [Hin|Hin]; [|contradiction].
  apply elem_of_singleton in Hin. apply Hfirst.
  apply list_elem_of_In, in_map_iff. exists x. split; [exact Hin|].
  now apply list_elem_of_In.
Qed.

(** A record whose key is known changes nothing, wherever it stands. *)
Lemma keepNew_drop (mid : list ParsedFlashcard) (r2 : ParsedFlashcard)
  (post : list ParsedFlashcard) :
  forall known,
    key r2 ∈ known ->
    keepNew toLowerCase known (mid ++ r2 :: post)
    = keepNew toLowerCase known (mid ++ post).
Proof.
  induction mid as [|r rest IH]; intros known Hin; simpl.
  - rewrite key_normalize, bool_decide_eq_true_2 by exact Hin.
    now destruct (isRecordb r2).
  - destruct (isRecordb r); [|now apply IH].
    destruct (bool_decide (key (normalize r) ∈ known)); [now apply IH|].
    f_equal. apply IH, elem_of_union. now right.
Qed.

Lemma keepNew_app (pre rest : list ParsedFlashcard) :
  forall known,
    keepNew toLowerCase known (pre ++ rest)
    = keepNew toLowerCase known pre
      ++ keepNew toLowerCase
           (list_to_set (map key (keepNew toLowerCase known pre)) ∪ known) rest.
Proof.
  induction pre as [|r pre' IH]; intros known; simpl.
  - f_equal. simpl. now rewrite (left_id_L ∅ (∪)).
  - destruct (isRecordb r); [|apply IH].
    destruct (bool_decide (key (normalize r) ∈ known)); [apply IH|].
    simpl. rewrite IH. do 2 f_equal. rewrite key_normalize.
    now rewrite (assoc_L (∪)), (comm_L (∪) _ {[key r]}).
Qed.

(** The loop and the specification's "first record per key" agree. *)
Lemma keepNew_keepFirst (l : list ParsedFlashcard) :
  forall known,
    Forall isRecord l ->
    keepNew toLowerCase known l
    = filter (fun r => key r ∉ known) (keepFirstPerKey toLowerCase (map normalize l)).
Proof.
  induction l as [|r rest IH]; intros known F; simpl; [reflexivity|].
  inversion F as [|? ? V F']; subst.
  apply isRecordb_spec in V. rewrite V.
  destruct (bool_decide_reflect (key (normalize r) ∈ known)) as [Hin|Hout].
  - rewrite filter_cons_False by (intros H; apply H; exact Hin).
    rewrite list_filter_filter, IH by exact F'.
    apply list_filter_iff. intros x. split.
    + intros Hx. split; [exact Hx|]. intros E. apply Hx. now rewrite E.
    + tauto.
  - rewrite filter_cons_True by exact Hout. f_equal.
    rewrite list_filter_filter, IH by exact F'.
    apply list_filter_iff. intros x.
    rewrite not_elem_of_union, not_elem_of_singleton. tauto.
Qed.

Lemma keepNew_from (l : list ParsedFlashcard) :
  forall known,
    Forall (fun x => exists r, In r l /\ x = normalize r)
      (keepNew toLowerCase known l).
Proof.
  induction l as [|r rest IH]; intros known; simpl; [constructor|].
  assert (W : forall k,
    Forall (fun x => exists r', (r = r' \/ In r' rest) /\ x = normalize r')
      (keepNew toLowerCase k rest)).
  { intros k. eapply Forall_impl; [apply IH|]. simpl.
    intros x (r' & Hin & E). exists r'. auto. }
  destruct (isRecordb r); [|apply W].
  destruct (bool_decide (key (normalize r) ∈ known)); [apply W|].
  constructor; [|apply W]. exists r. auto.
Qed.

(** C6: in a sequence of Records in which [R2] comes after [R1] and has
    [R1]'s CanonicalKey (it differs from [R1] by casing and surrounding
    whitespace only), [R1] being the first record with that key, the deck
    holds [R1] (with its texts trimmed, as every parsed record already is)
    right after what the records before [R1] contribute, nothing after it
    has that key, and [R2] contributes nothing; in general the deck is the
    sequence of the first records per CanonicalKey, in first-seen order. *)
Theorem dedupe_keeps_first_per_key (ids : nat -> jsString)
  (pre : list ParsedFlashcard) (R1 : ParsedFlashcard)
  (mid : list ParsedFlashcard) (R2 : ParsedFlashcard)
  (post : list ParsedFlashcard) :
  Forall isRecord (pre ++ R1 :: mid ++ R2 :: post) ->
  Forall (fun r => key r <> key R1) pre ->
  key R2 = key R1 ->
  exists tail,
    dedupe ids (pre ++ R1 :: mid ++ R2 :: post)
    = dedupe ids pre ++ normalize R1 :: tail
    /\ Forall (fun r => key r <> key R1) tail
    /\ dedupe ids (pre ++ R1 :: mid ++ R2 :: post)
       = dedupe ids (pre ++ R1 :: mid ++ post)
    /\ dedupe ids (pre ++ R1 :: mid ++ R2 :: post)
       = keepFirstPerKey toLowerCase
           (map normalize (pre ++ R1 :: mid ++ R2 :: post)).
Proof.
  intros F First Same.
  assert (V1 : isRecordb R1 = true).
  { apply isRecordb_spec. rewrite Forall_app in F. destruct F as [_ F].
    now inversion F. }
  set (known := list_to_set (map key (keepNew toLowerCase ∅ pre)) ∪ ∅
                : gset jsString).
  assert (Fresh : key (normalize R1) ∉ known).
  { unfold known. rewrite key_normalize, not_elem_of_union. split.
    - rewrite elem_of_list_to_set, list_elem_of_In, in_map_iff.
      intros (x & E & Hx).
      pose proof (keepNew_from pre ∅) as Fr. rewrite Forall_forall in Fr.
      apply list_elem_of_In in Hx.
      destruct (Fr x Hx) as (r & Hr & ->). rewrite key_normalize in E.
      rewrite Forall_forall in First. apply list_elem_of_In in Hr.
      exact (First r Hr E).
    - apply not_elem_of_empty. }
  assert (Shape : forall rest,
    dedupe ids (pre ++ R1 :: rest)
    = dedupe ids pre ++ normalize R1
        :: keepNew toLowerCase ({[key (normalize R1)]} ∪ known) rest).
  { intros rest. rewrite !dedupe_keepNew, keepNew_app. fold known. simpl.
    now rewrite V1, bool_decide_eq_false_2 by exact Fresh. }
  exists (keepNew toLowerCase ({[key (normalize R1)]} ∪ known)
            (mid ++ R2 :: post)).
  split; [apply Shape|]. split; [|split].
  - eapply Forall_impl; [apply keepNew_fresh|]. simpl.
    intros x (_ & _ & Hx) E. apply Hx, elem_of_union. left.
    apply elem_of_singleton. now rewrite key_normalize.
  - rewrite !Shape. do 2 f_equal. apply keepNew_drop.
    apply elem_of_union. left. apply elem_of_singleton.
    now rewrite key_normalize.
  - rewrite dedupe_keepNew, keepNew_keepFirst by exact F.
    apply filter_all. intros x. apply not_elem_of_empty.
Qed.

(** C7: deduplication is idempotent on (question, answer) sequences,
    whatever identifiers the two runs draw. *)
Theorem dedupe_idempotent (ids ids' : nat -> jsString)
  (X : list ParsedFlashcard) :
  dedupe ids' (dedupe ids X) = dedupe ids X.
Proof.
  rewrite (dedupe_keepNew ids X), dedupe_keepNew.
  apply keepNew_all; [apply keepNew_fresh|apply keepNew_NoDup].
Qed.

End WithLowerCase.

Lemma dedupe_keeps_first_per_key_witness :
  let R1 := mkParsed (lit "Hi") (lit "x") in
  let M := mkParsed (lit "a") (lit "b") in
  let R2 := mkParsed (lit " hI ") (lit "X ") in
  Forall isRecord ([] ++ R1 :: [M] ++ R2 :: [])
  /\ Forall (fun r => keyOf asciiLowerCase r <> keyOf asciiLowerCase R1) []
  /\ keyOf asciiLowerCase R2 = keyOf asciiLowerCase R1
  /\ exists tail,
       dedupe asciiLowerCase decimal ([] ++ R1 :: [M] ++ R2 :: [])
       = dedupe asciiLowerCase decimal [] ++ normalize R1 :: tail
       /\ Forall (fun r => keyOf asciiLowerCase r <> keyOf asciiLowerCase R1)
            tail
       /\ dedupe asciiLowerCase decimal ([] ++ R1 :: [M] ++ R2 :: [])
          = dedupe asciiLowerCase decimal ([] ++ R1 :: [M] ++ [])
       /\ dedupe asciiLowerCase decimal ([] ++ R1 :: [M] ++ R2 :: [])
          = keepFirstPerKey asciiLowerCase
              (map normalize ([] ++ R1 :: [M] ++ R2 :: [])).
Proof.
  intros R1 M R2.
  assert (F : Forall isRecord ([] ++ R1 :: [M] ++ R2 :: [])).
  { repeat (constructor; [split; vm_compute; discriminate|]). constructor. }
  assert (E : keyOf asciiLowerCase R2 = keyOf asciiLowerCase R1).
  { vm_compute. reflexivity. }
  split; [exact F|]. split; [constructor|]. split; [exact E|].
  exact (dedupe_keeps_first_per_key asciiLowerCase decimal [] R1 [M] R2 []
           F (List.Forall_nil _) E).
Defined.

End DedupFacts.

(** ** Line wrapping *)

Module WrapFacts.

Import Flashcards Pdf Scan Spec JsFacts RegexFacts.

(** [fits m ls]: no line of [ls] is longer than [m]. *)
Local Abbreviation fits m ls := (Forall (fun l : jsString => (length l <= m)%nat) ls).

Lemma Forall_removelast {A : Type} (P : A -> Prop) (l : list A) :
  Forall P l -> Forall P (removelast l).
Proof.
  induction l as [|x [|y r] IH]; intros F; simpl; try constructor.
  - now inversion F.
  - apply IH. now inversion F.
Qed.

Lemma Forall_last {A : Type} (P : A -> Prop) (l : list A) (d : A) :
  Forall P l -> P d -> P (List.last l d).
Proof.
  induction l as [|x [|y r] IH]; intros F D; simpl; [exact D| |].
  - now inversion F.
  - apply IH; [now inversion F|exact D].
Qed.

Lemma length_trimEnd (s : jsString) : (length (trimEnd s) <= length s)%nat.
Proof.
  induction s as [|c r IH]; simpl; [lia|].
  destruct (trimEnd r); [destruct (isWhiteSpace c)|]; simpl in *; lia.
Qed.

Lemma slice_fits (word : jsString) (index maxChars : nat) :
  (length (slice word index (index + maxChars)) <= maxChars)%nat.
Proof. unfold slice. rewrite length_take. lia. Qed.

(** *** The bound, whenever a result is returned *)

Lemma segmentsFrom_fits (maxChars : nat) (word : jsString) (fuel : nat) :
  forall index segments,
    segmentsFrom fuel word maxChars index = Some segments ->
    fits maxChars segments.
Proof.
  induction fuel as [|fuel IH]; intros index segments; simpl.
  - destruct (index <? length word)%nat; [discriminate|].
    intros [= <-]. constructor.
  - destruct (index <? length word)%nat; [|intros [= <-]; constructor].
    destruct (segmentsFrom fuel word maxChars (index + maxChars)) as [rest|] eqn:E;
      simpl; [|discriminate].
    intros [= <-]. constructor; [apply slice_fits|]. eapply IH, E.
Qed.

Lemma breakWordIntoSegments_fits (word : jsString) (maxChars : nat) segments :
  breakWordIntoSegments word maxChars = Some segments ->
  fits maxChars segments.
Proof.
  unfold breakWordIntoSegments.
  destruct (length word <=? maxChars)%nat eqn:E.
  - intros [= <-]. apply Nat.leb_le in E. repeat constructor. exact E.
  - apply segmentsFrom_fits.
Qed.

Lemma placeLongWord_inv (maxChars : nat) (ls : list jsString) (word : jsString) st :
  fits maxChars ls ->
  placeLongWord ls word maxChars = Some st ->
  wrapInv maxChars st.
Proof.
  intros F. unfold placeLongWord.
  destruct (breakWordIntoSegments word maxChars) as [segments|] eqn:E;
    simpl; [|discriminate].
  apply breakWordIntoSegments_fits in E.
  assert (L : (length (List.last segments []) <= maxChars)%nat).
  { apply (Forall_last (fun l : jsString => (length l <= maxChars)%nat));
      [exact E|simpl; lia]. }
  assert (R : fits maxChars (ls ++ removelast segments)).
  { apply Forall_app. split; [exact F|now apply Forall_removelast]. }
  destruct (length (List.last segments []) =? maxChars)%nat; intros [= <-];
    split; simpl; try lia; try assumption.
  apply Forall_app. split; [exact R|]. repeat constructor. exact L.
Qed.

Lemma placeWord_inv (maxChars : nat) (st : WrapState) (word : jsString) st' :
  wrapInv maxChars st ->
  placeWord maxChars st word = Some st' ->
  wrapInv maxChars st'.
Proof.
  intros [F C]. unfold placeWord.
  destruct (isEmpty word); [intros [= <-]; now split|].
  assert (F' : fits maxChars (lines st ++ [current st])).
  { apply Forall_app. split; [exact F|]. repeat constructor. exact C. }
  destruct (length (current st) =? 0)%nat.
  - destruct (length word <=? maxChars)%nat eqn:E.
    + intros [= <-]. apply Nat.leb_le in E. now split.
    + now apply placeLongWord_inv.
  - destruct (length (current st) + 1 + length word <=? maxChars)%nat eqn:E.
    + intros [= <-]. apply Nat.leb_le in E. split; [exact F|]. simpl.
      rewrite length_app. simpl. lia.
    + destruct (length word <=? maxChars)%nat eqn:E'.
      * intros [= <-]. apply Nat.leb_le in E'. now split.
      * now apply placeLongWord_inv.
Qed.

Lemma foldM_inv {A B : Type} (I : A -> Prop) (f : A -> B -> option A) :
  (forall a b a', I a -> f a b = Some a' -> I a') ->
  forall l a a', I a -> foldM f l a = Some a' -> I a'.
Proof.
  intros Step. induction l as [|x r IH]; intros a a' Ia; simpl.
  - now intros [= <-].
  - destruct (f a x) as [next|] eqn:E; simpl; [|discriminate].
    apply IH. eapply Step; eassumption.
Qed.

Lemma segmentSanitizedText_fits (sanitized : jsString) (maxChars : nat) ls :
  segmentSanitizedText sanitized maxChars = Some ls -> fits maxChars ls.
Proof.
  unfold segmentSanitizedText.
  destruct (isEmpty sanitized); [intros [= <-]; constructor|].
  destruct (foldM (placeWord maxChars) (split 32 sanitized) (mkWrap [] []))
    as [st|] eqn:E; simpl; [|discriminate].
  assert (I : wrapInv maxChars st).
  { eapply (foldM_inv (wrapInv maxChars)); [apply placeWord_inv| |exact E].
    split; simpl; [constructor|lia]. }
  destruct I as [F C].
  destruct (isEmpty (current st)); intros [= <-]; [exact F|].
  apply Forall_app. split; [exact F|]. repeat constructor. exact C.
Qed.

(** *** Termination: for a width of at least one character the loops end *)

Lemma segmentsFrom_total (maxChars : nat) (word : jsString) :
  (1 <= maxChars)%nat ->
  forall fuel index,
    (length word <= index + fuel)%nat ->
    is_Some (segmentsFrom fuel word maxChars index).
Proof.
  intros M. induction fuel as [|fuel IH]; intros index L; simpl.
  - destruct (index <? length word)%nat eqn:E; [|eauto].
    apply Nat.ltb_lt in E. lia.
  - destruct (index <? length word)%nat; [|eauto].
    destruct (IH (index + maxChars)%nat) as [rest ->]; [lia|]. simpl. eauto.
Qed.

Lemma breakWordIntoSegments_total (word : jsString) (maxChars : nat) :
  (1 <= maxChars)%nat -> is_Some (breakWordIntoSegments word maxChars).
Proof.
  intros M. unfold breakWordIntoSegments.
  destruct (length word <=? maxChars)%nat; [eauto|].
  apply segmentsFrom_total; [exact M|lia].
Qed.

Lemma placeLongWord_total (ls : list jsString) (word : jsString) (maxChars : nat) :
  (1 <= maxChars)%nat -> is_Some (placeLongWord ls word maxChars).
Proof.
  intros M. unfold placeLongWord.
  destruct (breakWordIntoSegments_total word maxChars M) as [segments ->].
  simpl. destruct (_ =? _)%nat; eauto.
Qed.

Lemma placeWord_total (maxChars : nat) (st : WrapState) (word : jsString) :
  (1 <= maxChars)%nat -> is_Some (placeWord maxChars st word).
Proof.
  intros M. unfold placeWord.
  repeat (match goal with |- context [if ?b then _ else _] => destruct b end);
    eauto using placeLongWord_total.
Qed.

Lemma foldM_total {A B : Type} (f : A -> B -> option A) :
  (forall a b, is_Some (f a b)) -> forall l a, is_Some (foldM f l a).
Proof.
  intros T. induction l as [|x r IH]; intros a; simpl; [eauto|].
  destruct (T a x) as [next ->]. simpl. apply IH.
Qed.

Lemma segmentSanitizedText_total (sanitized : jsString) (maxChars : nat) :
  (1 <= maxChars)%nat -> is_Some (segmentSanitizedText sanitized maxChars).
Proof.
  intros M. unfold segmentSanitizedText.
  destruct (isEmpty sanitized); [eauto|].
  destruct (foldM_total (placeWord maxChars)
              (fun a b => placeWord_total maxChars a b M)
              (split 32 sanitized) (mkWrap [] [])) as [st ->].
  simpl. eauto.
Qed.

Lemma wrapLongLine_total (value : jsString) (maxChars : nat) :
  (1 <= maxChars)%nat -> is_Some (wrapLongLine value maxChars).
Proof.
  intros M. unfold wrapLongLine.
  destruct (isEmpty _); [eauto|now apply segmentSanitizedText_total].
Qed.

Lemma wrapLongLine_fits (value : jsString) (maxChars : nat) ls :
  wrapLongLine value maxChars = Some ls -> fits maxChars ls.
Proof.
  unfold wrapLongLine. destruct (isEmpty _).
  - intros [= <-]. repeat constructor. simpl. lia.
  - apply segmentSanitizedText_fits.
Qed.

Lemma wrapWithPrefix_total (value prefix : jsString) (maxChars : nat) :
  is_Some (wrapWithPrefix value prefix maxChars).
Proof.
  unfold wrapWithPrefix. destruct (isEmpty _); [eauto|].
  destruct (segmentSanitizedText_total (sanitizeTextValue value)
              (Nat.max 1 (maxChars - length prefix))) as [segments ->]; [lia|].
  simpl. eauto.
Qed.

Lemma wrapWithPrefix_fits (value prefix : jsString) (maxChars : nat) ls :
  (length prefix < maxChars)%nat ->
  wrapWithPrefix value prefix maxChars = Some ls ->
  fits maxChars ls.
Proof.
  intros P. unfold wrapWithPrefix. destruct (isEmpty _).
  - intros [= <-]. repeat constructor.
    pose proof (length_trimEnd prefix). lia.
  - replace (Nat.max 1 (maxChars - length prefix))
      with (maxChars - length prefix)%nat by lia.
    destruct (segmentSanitizedText _ _) as [segments|] eqn:E; simpl;
      [|discriminate].
    apply segmentSanitizedText_fits in E. intros [= <-].
    destruct E as [|first others Hf Ho]; constructor.
    + rewrite length_app. lia.
    + apply Forall_map. eapply Forall_impl; [exact Ho|]. simpl.
      intros l Hl. rewrite length_app, repeat_length. lia.
Qed.

(** *** Whitespace-only input *)

Lemma scanWhitespace_blank (s : jsString) :
  Forall (fun c => isWhiteSpace c = true) s ->
  scanWhitespace true s = [].
Proof.
  induction 1 as [|c r Hc _ IH]; simpl; [reflexivity|]. now rewrite Hc.
Qed.

Lemma sanitizeTextValue_blank (value : jsString) :
  Forall (fun c => isWhiteSpace c = true) value ->
  sanitizeTextValue value = [].
Proof.
  intros F. rewrite sanitizeTextValue_scan.
  destruct F as [|c r Hc Hr]; [reflexivity|].
  simpl. rewrite Hc, (scanWhitespace_blank r Hr). reflexivity.
Qed.

(** C10: every line the wrapping functions return respects the width: a
    line of [wrapLongLine] is at most [maxChars] long (and for a width of at
    least one a result is returned: the loops end); for a prefix shorter
    than [maxChars], [wrapWithPrefix] returns lines, the first with the
    prefix and the others with the indent, of at most [maxChars]; and
    [wrapLongLine] of an empty or whitespace-only string is one empty line. *)
Theorem wrapped_lines_fit (value prefix : jsString) (maxChars : nat) :
  (forall ls, wrapLongLine value maxChars = Some ls -> fits maxChars ls)
  /\ ((1 <= maxChars)%nat -> is_Some (wrapLongLine value maxChars))
  /\ ((length prefix < maxChars)%nat ->
      exists ls, wrapWithPrefix value prefix maxChars = Some ls
                 /\ fits maxChars ls)
  /\ (Forall (fun c => isWhiteSpace c = true) value ->
      wrapLongLine value maxChars = Some [[]]).
Proof.
  split; [intros ls; apply wrapLongLine_fits|].
  split; [apply wrapLongLine_total|]. split.
  - intros P. destruct (wrapWithPrefix_total value prefix maxChars) as [ls E].
    exists ls. split; [exact E|]. eapply wrapWithPrefix_fits; eassumption.
  - intros B. unfold wrapLongLine. now rewrite (sanitizeTextValue_blank _ B).
Qed.

Lemma wrapped_lines_fit_witness :
  (1 <= 8)%nat
  /\ (length (lit "Q: ") < 8)%nat
  /\ is_Some (wrapLongLine (lit "a long question text") 8)
  /\ (exists ls,
        wrapWithPrefix (lit "a long question text") (lit "Q: ") 8 = Some ls
        /\ fits 8 ls)
  /\ Forall (fun c => isWhiteSpace c = true) (lit "  ")
  /\ wrapLongLine (lit "  ") 8 = Some [[]].
Proof.
  assert (M : (1 <= 8)%nat) by lia.
  assert (P : (length (lit "Q: ") < 8)%nat) by (simpl; lia).
  assert (B : Forall (fun c => isWhiteSpace c = true) (lit "  ")).
  { repeat constructor. }
  destruct (wrapped_lines_fit (lit "a long question text") (lit "Q: ") 8)
    as (_ & T & W & _).
  destruct (wrapped_lines_fit (lit "  ") (lit "Q: ") 8) as (_ & _ & _ & E).
  repeat split; auto.
Defined.

End WrapFacts.

(** ** Pagination *)

Module PageFacts.

Import Flashcards Pdf Spec.

Lemma linesPerPage_positive (pageHeight top bottom lineHeight : Z) :
  (1 <= linesPerPage pageHeight top bottom lineHeight)%nat.
Proof. unfold linesPerPage. lia. Qed.

Lemma addLine_inv (perPage : nat) (st : PageState) (line : jsString)
  (done : list jsString) :
  (1 <= perPage)%nat ->
  pageInv perPage st done ->
  pageInv perPage (addLine perPage st line) (done ++ [line]).
Proof.
  intros P (Full & Cur & _ & Cat). unfold addLine.
  destruct (perPage <=? length (currentPage st))%nat eqn:E; simpl.
  - apply Nat.leb_le in E. split; [|split; [|split]]; simpl.
    + apply Forall_app. split; [exact Full|]. repeat constructor. lia.
    + lia.
    + lia.
    + rewrite concat_app. simpl. rewrite app_nil_r. now rewrite Cat.
  - apply Nat.leb_gt in E. split; [|split; [|split]]; simpl.
    + exact Full.
    + rewrite length_app. simpl. lia.
    + rewrite length_app. simpl. lia.
    + rewrite app_assoc. now rewrite Cat.
Qed.

Lemma addLine_fold (perPage : nat) (ls : list jsString) :
  (1 <= perPage)%nat ->
  forall st done,
    pageInv perPage st done ->
    pageInv perPage (fold_left (addLine perPage) ls st) (done ++ ls).
Proof.
  intros P. induction ls as [|l r IH]; intros st done I; simpl.
  - now rewrite app_nil_r.
  - replace (done ++ l :: r) with ((done ++ [l]) ++ r)
      by now rewrite <- app_assoc.
    apply IH. now apply addLine_inv.
Qed.

Lemma length_concat_full (perPage : nat) (ps : list (list jsString)) :
  Forall (fun p => length p = perPage) ps ->
  length (concat ps) = (perPage * length ps)%nat.
Proof.
  induction 1 as [|p r Hp _ IH]; simpl; [lia|].
  rewrite length_app, IH, Hp. lia.
Qed.

Lemma paginate_chunks (perPage : nat) (contentLines : list jsString) :
  (1 <= perPage)%nat ->
  (1 <= length contentLines)%nat ->
  length (paginate contentLines perPage)
  = ceilDiv (length contentLines) perPage
  /\ Forall (fun page => (length page <= perPage)%nat)
       (paginate contentLines perPage)
  /\ concat (paginate contentLines perPage) = contentLines.
Proof.
  intros HP L.
  destruct (addLine_fold perPage contentLines HP (mkPages [] []) [])
    as (Full & Cur & One & Cat).
  { split; [|split; [|split]]; simpl; try constructor; [lia|congruence]. }
  simpl in Cat. unfold paginate.
  set (st := fold_left (addLine perPage) contentLines (mkPages [] [])) in *.
  assert (Len : length contentLines
                = (perPage * length (pages st) + length (currentPage st))%nat).
  { rewrite <- Cat, length_app, (length_concat_full perPage);
      [reflexivity|exact Full]. }
  assert (C1 : (1 <= length (currentPage st))%nat).
  { apply One. simpl. intros E. rewrite E in L. simpl in L. lia. }
  replace (0 <? length (currentPage st))%nat with true
    by (symmetry; apply Nat.ltb_lt; lia).
  replace (length (pages st ++ [currentPage st]) =? 0)%nat with false
    by (symmetry; apply Nat.eqb_neq; rewrite length_app; simpl; lia).
  split; [|split].
  - rewrite length_app. simpl. unfold ceilDiv. rewrite Len.
    apply (Nat.div_unique _ _ _ (length (currentPage st) - 1)); nia.
  - apply Forall_app. split.
    + eapply Forall_impl; [exact Full|]. simpl. intros p Hp. lia.
    + repeat constructor. lia.
  - rewrite concat_app. simpl. now rewrite app_nil_r.
Qed.

(** C5: a list of [L >= 1] lines, paginated with
    [P = max(1, floor((pageHeight - top - bottom) / lineHeight))] lines per
    page, gives [ceil(L / P)] pages of at most [P] lines each, whose
    concatenation in order is the list itself.  The encoder paginates with
    [maxLinesPerPage], the value of [P] for its own geometry. *)
Theorem pagination_exact (pageHeight top bottom lineHeight : Z)
  (contentLines : list jsString) :
  (1 <= length contentLines)%nat ->
  let P := linesPerPage pageHeight top bottom lineHeight in
  let result := paginate contentLines P in
  length result = ceilDiv (length contentLines) P
  /\ Forall (fun page => (length page <= P)%nat) result
  /\ concat result = contentLines.
Proof.
  intros L P result. apply paginate_chunks; [|exact L].
  apply linesPerPage_positive.
Qed.

Lemma pagination_exact_witness :
  (1 <= length [lit "a"; lit "b"; lit "c"])%nat
  /\ length (paginate [lit "a"; lit "b"; lit "c"] (linesPerPage 580 100 100 180))
     = ceilDiv 3 (linesPerPage 580 100 100 180)
  /\ Forall (fun page => (length page <= linesPerPage 580 100 100 180)%nat)
       (paginate [lit "a"; lit "b"; lit "c"] (linesPerPage 580 100 100 180))
  /\ concat (paginate [lit "a"; lit "b"; lit "c"] (linesPerPage 580 100 100 180))
     = [lit "a"; lit "b"; lit "c"].
Proof.
  assert (L : (1 <= length [lit "a"; lit "b"; lit "c"])%nat) by (simpl; lia).
  split; [exact L|].
  exact (pagination_exact 580 100 100 180 [lit "a"; lit "b"; lit "c"] L).
Defined.

End PageFacts.

(** ** Every line of the document is ASCII text *)

Module AsciiFacts.

Import Flashcards Pdf Scan Spec RegexFacts WrapFacts.

Lemma isAsciib_spec (s : jsString) : isAsciib s = true -> isAscii s.
Proof.
  unfold isAsciib, isAscii. induction s as [|c r IH]; simpl; [constructor|].
  rewrite andb_true_iff, N.ltb_lt. intros [C R]. constructor; auto.
Qed.

Lemma isAscii_app (a b : jsString) : isAscii a -> isAscii b -> isAscii (a ++ b).
Proof. intros A B. apply Forall_app. now split. Qed.

Lemma isAscii_cons (c : N) (s : jsString) : c < 128 -> isAscii s -> isAscii (c :: s).
Proof. now constructor. Qed.

Lemma isAscii_trimStart (s : jsString) : isAscii s -> isAscii (trimStart s).
Proof.
  induction 1 as [|c r Hc Hr IH]; simpl; [constructor|].
  destruct (isWhiteSpace c); [exact IH|now constructor].
Qed.

Lemma isAscii_trimEnd (s : jsString) : isAscii s -> isAscii (trimEnd s).
Proof.
  induction 1 as [|c r Hc Hr IH]; simpl; [constructor|].
  destruct (trimEnd r); [destruct (isWhiteSpace c)|now constructor];
    repeat constructor; auto.
Qed.

Lemma isAscii_trim (s : jsString) : isAscii s -> isAscii (trim s).
Proof. intros A. now apply isAscii_trimStart, isAscii_trimEnd. Qed.

Lemma printable_ascii (c : N) : printable c < 128.
Proof.
  unfold printable. destruct ((32 <=? c) && (c <=? 126)) eqn:E; [|lia].
  apply andb_true_iff in E as [_ E]. apply N.leb_le in E. lia.
Qed.

Lemma isAscii_sanitize (value : jsString) : isAscii (sanitizeTextValue value).
Proof.
  apply isAscii_trim, Forall_map, Forall_forall. intros c _.
  apply printable_ascii.
Qed.

Lemma isAscii_uintChars (d : Decimal.uint) : isAscii (uintChars d).
Proof. induction d; simpl; constructor; (lia || assumption). Qed.

Lemma isAscii_decimal (n : nat) : isAscii (decimal n).
Proof. apply isAscii_uintChars. Qed.

Lemma isAscii_repeat (c : N) (n : nat) : c < 128 -> isAscii (repeat c n).
Proof. intros C. induction n; simpl; constructor; assumption. Qed.

Lemma isAscii_join (sep : jsString) (parts : list jsString) :
  isAscii sep -> Forall isAscii parts -> isAscii (join sep parts).
Proof.
  intros S. induction 1 as [|p r Hp Hr IH]; simpl; [constructor|].
  destruct r; [exact Hp|]. auto using isAscii_app.
Qed.

Lemma isAscii_split (sep : N) (s : jsString) :
  isAscii s -> Forall isAscii (split sep s).
Proof.
  induction 1 as [|c r Hc Hr IH]; simpl; [repeat constructor|].
  destruct (c =? sep); [constructor; [constructor|exact IH]|].
  destruct (split sep r) as [|p ps]; [repeat constructor; exact Hc|].
  inversion IH; subst. constructor; [now constructor|assumption].
Qed.

Lemma isAscii_slice (word : jsString) (from to : nat) :
  isAscii word -> isAscii (slice word from to).
Proof. intros A. unfold slice. now apply Forall_take, Forall_drop. Qed.

Lemma segmentsFrom_ascii (maxChars : nat) (word : jsString) (fuel : nat) :
  isAscii word ->
  forall index segments,
    segmentsFrom fuel word maxChars index = Some segments ->
    Forall isAscii segments.
Proof.
  intros A. induction fuel as [|fuel IH]; intros index segments; simpl.
  - destruct (index <? length word)%nat; [discriminate|].
    intros [= <-]. constructor.
  - destruct (index <? length word)%nat; [|intros [= <-]; constructor].
    destruct (segmentsFrom fuel word maxChars (index + maxChars)) as [rest|] eqn:E;
      simpl; [|discriminate].
    intros [= <-]. constructor; [now apply isAscii_slice|]. eapply IH, E.
Qed.

Lemma breakWordIntoSegments_ascii (word : jsString) (maxChars : nat) segments :
  isAscii word ->
  breakWordIntoSegments word maxChars = Some segments ->
  Forall isAscii segments.
Proof.
  intros A. unfold breakWordIntoSegments.
  destruct (length word <=? maxChars)%nat.
  - intros [= <-]. now repeat constructor.
  - now apply segmentsFrom_ascii.
Qed.

Lemma placeLongWord_ascii (maxChars : nat) (ls : list jsString) (word : jsString) st :
  Forall isAscii ls -> isAscii word ->
  placeLongWord ls word maxChars = Some st ->
  asciiInv st.
Proof.
  intros F A. unfold placeLongWord.
  destruct (breakWordIntoSegments word maxChars) as [segments|] eqn:E;
    simpl; [|discriminate].
  apply breakWordIntoSegments_ascii in E; [|exact A].
  assert (L : isAscii (List.last segments [])).
  { apply (Forall_last isAscii); [exact E|constructor]. }
  assert (R : Forall isAscii (ls ++ removelast segments)).
  { apply Forall_app. split; [exact F|now apply Forall_removelast]. }
  destruct (length (List.last segments []) =? maxChars)%nat; intros [= <-];
    split; simpl; try assumption; try constructor.
  apply Forall_app. split; [exact R|]. now repeat constructor.
Qed.

Lemma placeWord_ascii (maxChars : nat) (st : WrapState) (word : jsString) st' :
  isAscii word ->
  asciiInv st ->
  placeWord maxChars st word = Some st' ->
  asciiInv st'.
Proof.
  intros A [F C]. unfold placeWord.
  destruct (isEmpty word); [intros [= <-]; now split|].
  assert (F' : Forall isAscii (lines st ++ [current st])).
  { apply Forall_app. split; [exact F|]. now repeat constructor. }
  destruct (length (current st) =? 0)%nat.
  - destruct (length word <=? maxChars)%nat.
    + intros [= <-]. now split.
    + now apply placeLongWord_ascii.
  - destruct (length (current st) + 1 + length word <=? maxChars)%nat.
    + intros [= <-]. split; [exact F|]. simpl.
      apply isAscii_app; [exact C|]. apply isAscii_cons; [lia|exact A].
    + destruct (length word <=? maxChars)%nat.
      * intros [= <-]. now split.
      * now apply placeLongWord_ascii.
Qed.

Lemma foldM_ascii (maxChars : nat) (words : list jsString) :
  Forall isAscii words ->
  forall st st',
    asciiInv st ->
    foldM (placeWord maxChars) words st = Some st' ->
    asciiInv st'.
Proof.
  induction 1 as [|w r Hw Hr IH]; intros st st' I; simpl.
  - now intros [= <-].
  - destruct (placeWord maxChars st w) as [next|] eqn:E; simpl; [|discriminate].
    apply IH. eapply placeWord_ascii; eassumption.
Qed.

Lemma segmentSanitizedText_ascii (sanitized : jsString) (maxChars : nat) ls :
  isAscii sanitized ->
  segmentSanitizedText sanitized maxChars = Some ls ->
  Forall isAscii ls.
Proof.
  intros A. unfold segmentSanitizedText.
  destruct (isEmpty sanitized); [intros [= <-]; constructor|].
  destruct (foldM (placeWord maxChars) (split 32 sanitized) (mkWrap [] []))
    as [st|] eqn:E; simpl; [|discriminate].
  assert (I : asciiInv st).
  { eapply (foldM_ascii maxChars (split 32 sanitized));
      [apply isAscii_split; exact A| |exact E].
    split; constructor. }
  destruct I as [F C].
  destruct (isEmpty (current st)); intros [= <-]; [exact F|].
  apply Forall_app. split; [exact F|]. now repeat constructor.
Qed.

Lemma wrapLongLine_ascii (value : jsString) (maxChars : nat) ls :
  wrapLongLine value maxChars = Some ls -> Forall isAscii ls.
Proof.
  unfold wrapLongLine. destruct (isEmpty _).
  - intros [= <-]. repeat constructor.
  - apply segmentSanitizedText_ascii, isAscii_sanitize.
Qed.

Lemma wrapWithPrefix_ascii (value prefix : jsString) (maxChars : nat) ls :
  isAscii prefix ->
  wrapWithPrefix value prefix maxChars = Some ls ->
  Forall isAscii ls.
Proof.
  intros P. unfold wrapWithPrefix. destruct (isEmpty _).
  - intros [= <-]. repeat constructor. now apply isAscii_trimEnd.
  - destruct (segmentSanitizedText _ _) as [segments|] eqn:E; simpl;
      [|discriminate].
    apply segmentSanitizedText_ascii in E; [|apply isAscii_sanitize].
    intros [= <-]. destruct E as [|first others Hf Ho]; constructor.
    + now apply isAscii_app.
    + apply Forall_map. eapply Forall_impl; [exact Ho|]. simpl.
      intros l Hl. apply isAscii_app; [|exact Hl]. apply isAscii_repeat. lia.
Qed.

(** *** The lines of the document *)

Lemma cardLines_total (count index : nat) (card : Flashcard) :
  exists ls, cardLines count index card = Some ls /\ Forall isAscii ls.
Proof.
  unfold cardLines.
  destruct (wrapLongLine_total (lit "Card " ++ decimal (index + 1))
              PDF_MAX_LINE_CHARS) as [h Eh]; [unfold PDF_MAX_LINE_CHARS; lia|].
  destruct (wrapWithPrefix_total (question card) (lit "Q: ") PDF_MAX_LINE_CHARS)
    as [q Eq].
  destruct (wrapWithPrefix_total (answer card) (lit "A: ") PDF_MAX_LINE_CHARS)
    as [a Ea].
  rewrite Eh, Eq, Ea. simpl. eexists. split; [reflexivity|].
  apply wrapLongLine_ascii in Eh.
  apply wrapWithPrefix_ascii in Eq; [|apply isAsciib_spec; reflexivity].
  apply wrapWithPrefix_ascii in Ea; [|apply isAsciib_spec; reflexivity].
  repeat (apply Forall_app; split); try assumption.
  destruct (index <? count - 1)%nat; repeat constructor.
Qed.

Lemma forEachCard_total (count : nat) (cards : list Flashcard) :
  forall index ls,
    Forall isAscii ls ->
    exists ls', forEachCard count index cards ls = Some ls'
                /\ Forall isAscii ls'.
Proof.
  induction cards as [|card rest IH]; intros index ls A; simpl; [eauto|].
  destruct (cardLines_total count index card) as (cl & -> & Acl). simpl.
  apply IH. apply Forall_app. now split.
Qed.

Lemma documentLines_total (rt : Runtime) (set : FlashcardSet) :
  exists ls, documentLines rt set = Some ls /\ Forall isAscii ls.
Proof.
  unfold documentLines.
  destruct (wrapLongLine_total (headerTitle set) PDF_MAX_LINE_CHARS)
    as [t Et]; [unfold PDF_MAX_LINE_CHARS; lia|].
  destruct (wrapLongLine_total (generatedLine rt) PDF_MAX_LINE_CHARS)
    as [g Eg]; [unfold PDF_MAX_LINE_CHARS; lia|].
  rewrite Et, Eg. simpl. apply forEachCard_total.
  apply wrapLongLine_ascii in Et. apply wrapLongLine_ascii in Eg.
  repeat (apply Forall_app; split); try assumption. repeat constructor.
Qed.

End AsciiFacts.

(** ** The document: objects, offsets and the cross-reference section *)

Module PdfFacts.

Import Flashcards Pdf Scan Spec JsFacts RegexFacts WrapFacts AsciiFacts PageFacts.

Ltac ascii :=
  repeat first
    [ assumption
    | apply isAscii_decimal
    | apply isAscii_sanitize
    | (apply isAsciib_spec; reflexivity)
    | apply isAscii_app ].

(** *** UTF-8 of ASCII text *)

Lemma utf8Encode_ascii (s : jsString) : isAscii s -> utf8Encode s = s.
Proof.
  induction 1 as [|c r Hc Hr IH]; simpl; [reflexivity|].
  unfold isHighSurrogate, isLowSurrogate, utf8Scalar.
  replace (55296 <=? c) with false by (symmetry; apply N.leb_gt; lia).
  replace (56320 <=? c) with false by (symmetry; apply N.leb_gt; lia).
  replace (c <? 128) with true by (symmetry; apply N.ltb_lt; lia).
  simpl. now rewrite IH.
Qed.

(** *** The objects are ASCII text *)

Lemma isAscii_scanCode (c : N) (replacement s : jsString) :
  isAscii replacement -> isAscii s -> isAscii (scanCode c replacement s).
Proof.
  intros R. induction 1 as [|x r Hx Hr IH]; simpl; [constructor|].
  apply isAscii_app; [|exact IH].
  destruct (x =? c); [exact R|now repeat constructor].
Qed.

Lemma isAscii_escapePdfText (value : jsString) :
  isAscii value -> isAscii (escapePdfText value).
Proof.
  intros A. rewrite escapePdfText_scan.
  repeat (apply isAscii_scanCode; [apply isAsciib_spec; reflexivity|]).
  exact A.
Qed.

Lemma isAscii_lineOperators (pageLines : list jsString) :
  Forall isAscii pageLines -> Forall isAscii (lineOperators pageLines).
Proof.
  induction 1 as [|l r Hl Hr IH]; [constructor|].
  assert (S : isAscii (lit "(" ++ escapePdfText l ++ lit ") Tj")).
  { apply isAscii_escapePdfText in Hl. ascii. }
  change (lineOperators (l :: r))
    with (match r with
          | [] => [lit "(" ++ escapePdfText l ++ lit ") Tj"]
          | _ :: _ => (lit "(" ++ escapePdfText l ++ lit ") Tj")
                      :: lit "T*" :: lineOperators r
          end).
  destruct r; constructor; [exact S|constructor|exact S|].
  constructor; [apply isAsciib_spec; reflexivity|exact IH].
Qed.

Lemma isAscii_streamBody (pageLines : list jsString) :
  Forall isAscii pageLines -> isAscii (streamBody pageLines).
Proof.
  intros A. unfold streamBody. apply isAscii_app; [|ascii].
  apply isAscii_join; [ascii|].
  apply Forall_app_2.
  - repeat (apply List.Forall_cons; [apply isAsciib_spec; reflexivity|]).
    constructor.
  - apply Forall_app_2; [now apply isAscii_lineOperators|].
    apply List.Forall_cons; [ascii|constructor].
Qed.

Lemma isAscii_contentObject (contentId : nat) (pageLines : list jsString) :
  Forall isAscii pageLines ->
  isAscii (content (contentObjectFor contentId pageLines)).
Proof.
  intros A. apply isAscii_streamBody in A.
  unfold contentObjectFor, content. ascii.
Qed.

Lemma isAscii_pageObject (pageId contentId : nat) :
  isAscii (content (pageObjectFor pageId contentId)).
Proof. unfold pageObjectFor, content. ascii. Qed.

Lemma Forall_mapWithIndex {A B : Type} (Q : B -> Prop) (P : A -> Prop)
  (f : nat -> A -> B) (l : list A) :
  (forall i x, P x -> Q (f i x)) ->
  Forall P l ->
  forall index, Forall Q (mapWithIndex f index l).
Proof.
  intros Step. induction 1 as [|x r Hx Hr IH]; intros index; simpl;
    constructor; auto.
Qed.

Lemma length_mapWithIndex {A B : Type} (f : nat -> A -> B) (l : list A) :
  forall index, length (mapWithIndex f index l) = length l.
Proof. induction l as [|x r IH]; intros index; simpl; [reflexivity|now rewrite IH]. Qed.

Lemma ids_mapWithIndex {A : Type} (f : nat -> A -> PdfObject) (base : nat)
  (l : list A) :
  (forall i x, objId (f i x) = (base + i)%nat) ->
  forall index,
    map objId (mapWithIndex f index l) = seq (base + index) (length l).
Proof.
  intros Id. induction l as [|x r IH]; intros index; simpl; [reflexivity|].
  rewrite Id, IH. do 2 f_equal. lia.
Qed.

(** *** The comparator sort leaves the objects as they were built *)

Lemma sortById_sorted (l : list PdfObject) :
  forall first, map objId l = seq first (length l) -> sortById l = l.
Proof.
  induction l as [|o r IH]; intros first E; simpl; [reflexivity|].
  simpl in E. injection E as E1 E2.
  rewrite (IH (S first) E2).
  destruct r as [|o' r']; [reflexivity|].
  simpl in E2. injection E2 as E2 _.
  simpl. replace (objId o <=? objId o')%nat with true; [reflexivity|].
  symmetry. apply Nat.leb_le. lia.
Qed.

Lemma allObjects_ids (pages : list (list jsString)) :
  map objId ([catalogObject; pagesObject pages; fontObject]
             ++ pageObjects pages ++ contentObjects pages)
  = seq 1 (3 + 2 * length pages).
Proof.
  rewrite !map_app. unfold pageObjects, contentObjects.
  rewrite (ids_mapWithIndex _ 4) by reflexivity.
  rewrite (ids_mapWithIndex _ (4 + length pages)) by reflexivity.
  replace (3 + 2 * length pages)%nat
    with (3 + (length pages + length pages))%nat by lia.
  rewrite !Nat.add_0_r. simpl. now rewrite seq_app.
Qed.

Lemma allObjects_built (pages : list (list jsString)) :
  allObjects pages
  = [catalogObject; pagesObject pages; fontObject]
    ++ pageObjects pages ++ contentObjects pages.
Proof.
  unfold allObjects. apply (sortById_sorted _ 1).
  rewrite allObjects_ids. f_equal.
  rewrite !length_app. unfold pageObjects, contentObjects.
  rewrite !length_mapWithIndex. simpl. lia.
Qed.

Lemma length_allObjects (pages : list (list jsString)) :
  length (allObjects pages) = (3 + 2 * length pages)%nat.
Proof.
  rewrite allObjects_built, !length_app. unfold pageObjects, contentObjects.
  rewrite !length_mapWithIndex. simpl. lia.
Qed.

Lemma isAscii_allObjects (pages : list (list jsString)) :
  Forall (Forall isAscii) pages ->
  Forall (fun o => isAscii (content o)) (allObjects pages).
Proof.
  intros A. rewrite allObjects_built.
  apply Forall_app. split; [|apply Forall_app; split].
  - apply List.Forall_cons; [unfold catalogObject, content; ascii|].
    apply List.Forall_cons; [|apply List.Forall_cons; [|constructor]].
    + unfold pagesObject, content, kidsRefs.
      assert (K : isAscii (join (lit " ")
                    (map (fun obj => decimal (objId obj) ++ lit " 0 R")
                       (pageObjects pages)))).
      { apply isAscii_join; [ascii|]. apply Forall_map, Forall_forall.
        intros o _. simpl. ascii. }
      ascii.
    + unfold fontObject, content. ascii.
  - apply (Forall_mapWithIndex _ (fun _ => True)).
    + intros i x _. apply isAscii_pageObject.
    + apply Forall_forall. auto.
  - apply (Forall_mapWithIndex _ isAscii_lines); [|exact A].
    intros i x Hx. now apply isAscii_contentObject.
Qed.

(** *** Decimal numbers read back *)

Lemma isDigit_uintChars (d : Decimal.uint) :
  Forall (fun c => isDigit c = true) (uintChars d).
Proof. induction d; simpl; constructor; (reflexivity || assumption). Qed.

Lemma readDigits_uintChars (d : Decimal.uint) :
  forall acc rest,
    readDigits acc (uintChars d ++ rest)
    = readDigits (Nat.of_uint_acc d acc) rest.
Proof.
  induction d; intros acc rest; simpl; [reflexivity|..];
    rewrite IHd, Nat.tail_mul_spec; do 2 f_equal; lia.
Qed.

Lemma readDigits_zeros (n : nat) (s : jsString) :
  readDigits 0 (repeat 48 n ++ s) = readDigits 0 s.
Proof. induction n as [|n IH]; simpl; [reflexivity|exact IH]. Qed.

Lemma readDecimal_decimal (n : nat) (rest : jsString) :
  match rest with [] => True | c :: _ => isDigit c = false end ->
  readDecimal (decimal n ++ rest) = n.
Proof.
  intros R. unfold readDecimal, decimal. rewrite readDigits_uintChars.
  change (Nat.of_uint_acc (Nat.to_uint n) 0) with (Nat.of_uint (Nat.to_uint n)).
  rewrite DecimalNat.Unsigned.of_to.
  destruct rest as [|c r]; simpl; [reflexivity|now rewrite R].
Qed.

(** *** The emission loop *)

Lemma emitObject_fold (objects : list PdfObject) :
  forall st,
    fold_left emitObject objects st
    = mkEmitted (pdf st ++ concat (map objectText objects))
        (offsets st ++ offsetsFrom (length (pdf st)) objects).
Proof.
  induction objects as [|o r IH]; intros st; simpl.
  - rewrite !app_nil_r. now destruct st.
  - rewrite IH. unfold emitObject. cbn [pdf offsets]. f_equal.
    + unfold objectText. now rewrite <- !app_assoc.
    + rewrite <- app_assoc. cbn [app]. do 3 f_equal.
      unfold objectText. now rewrite !length_app.
Qed.

Lemma offsetsFrom_ids (objects : list PdfObject) :
  forall pos, map offId (offsetsFrom pos objects) = map objId objects.
Proof.
  induction objects as [|o r IH]; intros pos; simpl; [reflexivity|].
  now rewrite IH.
Qed.

Lemma startsAt_here (before pattern rest : list N) (pos : nat) :
  length before = pos -> startsAt (before ++ pattern ++ rest) pos pattern.
Proof.
  intros <-. unfold startsAt.
  rewrite drop_app_length, take_app_length. reflexivity.
Qed.

(** Each recorded offset is where the header of its object begins, whatever
    was written before the objects and whatever follows them. *)
Lemma offsetsFrom_headers (objects : list PdfObject) :
  forall before rest,
    Forall (fun e =>
              startsAt (before ++ concat (map objectText objects) ++ rest)
                (offset e) (objectHeader (offId e)))
      (offsetsFrom (length before) objects).
Proof.
  induction objects as [|o r IH]; intros before rest; simpl; [constructor|].
  constructor.
  - simpl. unfold objectText at 1. rewrite <- !app_assoc.
    now apply startsAt_here.
  - rewrite <- length_app.
    replace (before ++ (objectText o ++ concat (map objectText r)) ++ rest)
      with ((before ++ objectText o) ++ concat (map objectText r) ++ rest)
      by now rewrite <- !app_assoc.
    apply IH.
Qed.

Lemma isAscii_concat (parts : list jsString) :
  Forall isAscii parts -> isAscii (concat parts).
Proof. intros F. unfold isAscii. now apply Forall_concat. Qed.

Lemma isAscii_objectText (o : PdfObject) :
  isAscii (content o) -> isAscii (objectText o).
Proof. intros A. unfold objectText, objectHeader. ascii. Qed.

Lemma isAscii_xrefEntry (entry : Offset) : isAscii (xrefEntry entry).
Proof.
  unfold xrefEntry, padStart.
  assert (Z : isAscii (repeat 48 (10 - length (decimal (offset entry)))))
    by (apply isAscii_repeat; lia).
  ascii.
Qed.

Lemma isAscii_pdfText (docPages : list (list jsString)) :
  Forall (Forall isAscii) docPages -> isAscii (pdfText docPages).
Proof.
  intros A. apply isAscii_allObjects in A.
  unfold pdfText, emitObjects. rewrite emitObject_fold. cbn [pdf offsets app].
  assert (B : isAscii (concat (map objectText (allObjects docPages)))).
  { apply isAscii_concat, Forall_map. eapply Forall_impl; [exact A|].
    apply isAscii_objectText. }
  assert (X : isAscii (concat (map xrefEntry
                 (offsetsFrom (length pdfHeader) (allObjects docPages))))).
  { apply isAscii_concat, Forall_map, Forall_forall. intros e _.
    apply isAscii_xrefEntry. }
  unfold xrefSection, trailer, pdfHeader. ascii.
Qed.

Lemma paginate_ascii (ls : list jsString) :
  Forall isAscii ls ->
  Forall (Forall isAscii) (paginate (contentLinesOf ls) maxLinesPerPage).
Proof.
  intros A.
  assert (C : Forall isAscii (contentLinesOf ls)).
  { unfold contentLinesOf. destruct (0 <? length ls)%nat; [exact A|].
    repeat (apply List.Forall_cons; [apply isAsciib_spec; reflexivity|]).
    constructor. }
  assert (L : (1 <= length (contentLinesOf ls))%nat).
  { unfold contentLinesOf. destruct (0 <? length ls)%nat eqn:E; simpl; [|lia].
    apply Nat.ltb_lt in E. lia. }
  destruct (paginate_chunks maxLinesPerPage (contentLinesOf ls))
    as (_ & _ & Cat); [apply linesPerPage_positive|exact L|].
  apply Forall_concat. now rewrite Cat.
Qed.

(** *** The trailer read back *)

Lemma stripPrefix_app (p s : list N) : stripPrefix p (p ++ s) = Some s.
Proof.
  induction p as [|a p IH]; simpl; [now destruct s|].
  now rewrite N.eqb_refl.
Qed.

Lemma span_digits (ds rest : jsString) :
  Forall (fun c => isDigit c = true) ds ->
  match rest with [] => True | c :: _ => isDigit c = false end ->
  span isDigit (ds ++ rest) = (ds, rest).
Proof.
  intros D R. induction D as [|c r Hc Hr IH]; simpl.
  - destruct rest as [|c r]; [reflexivity|]. simpl. now rewrite R.
  - now rewrite Hc, IH.
Qed.

Lemma isDigit_rev_decimal (n : nat) :
  Forall (fun c => isDigit c = true) (rev (decimal n)).
Proof. apply Forall_rev, isDigit_uintChars. Qed.

Lemma rev_trailer (objectCount xrefOffset : nat) :
  rev (trailer objectCount xrefOffset)
  = rev (lit "%%EOF") ++ nl ++ rev (decimal xrefOffset)
    ++ rev (lit " /Root 1 0 R >>" ++ nl ++ lit "startxref" ++ nl)
    ++ rev (decimal (objectCount + 1))
    ++ rev (lit "trailer" ++ nl ++ lit "<< /Size ").
Proof.
  unfold trailer, nl.
  repeat (rewrite rev_app_distr || rewrite <- app_assoc). reflexivity.
Qed.

Lemma declaredSize_trailer (body : jsString) (objectCount xrefOffset : nat) :
  declaredSize (body ++ trailer objectCount xrefOffset)
  = Some (objectCount + 1)%nat.
Proof.
  unfold declaredSize.
  rewrite (rev_app_distr body), rev_trailer, <- !app_assoc, stripPrefix_app.
  cbn [mbind option_bind]. rewrite stripPrefix_app. cbn [mbind option_bind].
  rewrite span_digits; [|apply isDigit_rev_decimal|reflexivity].
  cbn [snd fst]. rewrite stripPrefix_app. cbn [mbind option_bind].
  rewrite span_digits; [|apply isDigit_rev_decimal|reflexivity].
  cbn [snd fst]. rewrite stripPrefix_app. cbn [mbind option_bind].
  pose proof (readDecimal_decimal (objectCount + 1) [] I) as R.
  rewrite app_nil_r in R.
  destruct (rev (decimal (objectCount + 1))) as [|c r] eqn:E.
  - apply (f_equal (@rev N)) in E. rewrite rev_involutive in E. simpl in E.
    rewrite E in R. unfold readDecimal in R. simpl in R. lia.
  - rewrite <- E, rev_involutive. now rewrite R.
Qed.

(** *** The cross-reference section read back *)

Lemma no_lf_digits (ds : jsString) :
  Forall (fun c => isDigit c = true) ds -> Forall (fun c => c <> 10) ds.
Proof.
  intros D. eapply Forall_impl; [exact D|]. simpl. intros c H ->. discriminate.
Qed.

Lemma no_lf_literal (s : jsString) :
  forallb (fun c => negb (c =? 10)) s = true -> Forall (fun c => c <> 10) s.
Proof.
  induction s as [|c r IH]; simpl; [constructor|].
  rewrite andb_true_iff, negb_true_iff, N.eqb_neq. intros [C R].
  constructor; auto.
Qed.

Lemma no_lf_xrefEntryLine (entry : Offset) :
  Forall (fun c => c <> 10) (xrefEntryLine entry).
Proof.
  unfold xrefEntryLine, padStart. repeat (apply Forall_app; split).
  - apply no_lf_literal. induction (10 - _)%nat; [reflexivity|assumption].
  - apply no_lf_digits, isDigit_uintChars.
  - apply no_lf_literal. reflexivity.
Qed.

Lemma readDecimal_xrefEntryLine (entry : Offset) :
  readDecimal (xrefEntryLine entry) = offset entry.
Proof.
  unfold xrefEntryLine, padStart, readDecimal.
  rewrite <- !app_assoc, readDigits_zeros.
  now apply readDecimal_decimal.
Qed.

Lemma split_xrefEntries (entries : list Offset) (rest : jsString) :
  split 10 (concat (map xrefEntry entries) ++ rest)
  = map xrefEntryLine entries ++ split 10 rest.
Proof.
  induction entries as [|e r IH]; [reflexivity|].
  cbn [map concat app].
  replace ((xrefEntry e ++ concat (map xrefEntry r)) ++ rest)
    with (xrefEntryLine e ++ 10 :: concat (map xrefEntry r) ++ rest)
    by (unfold xrefEntry, xrefEntryLine, nl; now rewrite <- !app_assoc).
  rewrite split_line by apply no_lf_xrefEntryLine. now rewrite IH.
Qed.

Lemma decimal_nonempty (n : nat) : decimal n <> [].
Proof.
  unfold decimal. intros E.
  assert (U : Nat.to_uint n = Decimal.Nil) by now destruct (Nat.to_uint n).
  pose proof (DecimalNat.Unsigned.of_to n) as O. rewrite U in O.
  cbn in O. subst n. discriminate U.
Qed.

Lemma rev_trailer_footer (objectCount xrefOffset : nat) :
  exists before,
    rev (trailer objectCount xrefOffset)
    = rev (lit "%%EOF") ++ nl ++ rev (decimal xrefOffset)
      ++ rev (lit "startxref" ++ nl) ++ before.
Proof.
  eexists. unfold trailer, nl.
  repeat (rewrite rev_app_distr || rewrite <- app_assoc). reflexivity.
Qed.

Lemma declaredStartxref_trailer (body : jsString)
  (objectCount xrefOffset : nat) :
  declaredStartxref (body ++ trailer objectCount xrefOffset) = Some xrefOffset.
Proof.
  unfold declaredStartxref.
  destruct (rev_trailer_footer objectCount xrefOffset) as [before E].
  rewrite (rev_app_distr body), E, <- !app_assoc, stripPrefix_app.
  cbn [mbind option_bind]. rewrite stripPrefix_app. cbn [mbind option_bind].
  rewrite span_digits; [|apply isDigit_rev_decimal|reflexivity].
  cbn [snd fst]. rewrite stripPrefix_app. cbn [mbind option_bind].
  pose proof (readDecimal_decimal xrefOffset [] I) as R.
  rewrite app_nil_r in R.
  destruct (rev (decimal xrefOffset)) as [|c r] eqn:D.
  - apply (f_equal (@rev N)) in D. rewrite rev_involutive in D.
    now apply decimal_nonempty in D.
  - rewrite <- D, rev_involutive. now rewrite R.
Qed.

Lemma xrefTable_document (body : jsString) (entries : list Offset) :
  xrefTable (body
             ++ xrefSection (length entries) entries
             ++ trailer (length entries) (length body))
  = Some (map offset entries).
Proof.
  unfold xrefTable.
  rewrite (app_assoc body), declaredStartxref_trailer.
  cbn [mbind option_bind]. rewrite <- app_assoc, drop_app_length.
  unfold xrefSection.
  replace ((lit "xref" ++ nl ++ lit "0 " ++ decimal (length entries + 1) ++ nl
            ++ lit "0000000000 65535 f " ++ nl
            ++ concat (map xrefEntry entries))
           ++ trailer (length entries) (length body))
    with (lit "xref"
          ++ 10 :: (lit "0 " ++ decimal (length entries + 1))
          ++ 10 :: lit "0000000000 65535 f "
          ++ 10 :: concat (map xrefEntry entries)
          ++ trailer (length entries) (length body))
    by (unfold nl; now rewrite <- !app_assoc).
  rewrite split_line by (apply no_lf_literal; reflexivity).
  rewrite split_line
    by (apply Forall_app; split;
        [apply no_lf_literal; reflexivity
        |apply no_lf_digits, isDigit_uintChars]).
  rewrite split_line by (apply no_lf_literal; reflexivity).
  rewrite split_xrefEntries.
  rewrite !bool_decide_eq_true_2 by reflexivity. cbn [andb].
  rewrite stripPrefix_app.
  pose proof (readDecimal_decimal (length entries + 1) [] I) as R.
  rewrite app_nil_r in R. rewrite R.
  replace (length entries + 1 - 1)%nat with (length (map xrefEntryLine entries))
    by (rewrite length_map; lia).
  rewrite take_app_length, map_map. f_equal.
  apply map_ext. intros e. apply readDecimal_xrefEntryLine.
Qed.

Lemma headers_by_index (bytes : list N) (entries : list Offset) :
  forall first,
    map offId entries = seq first (length entries) ->
    Forall (fun e => startsAt bytes (offset e) (objectHeader (offId e)))
      entries ->
    forall k pos,
      nth_error (map offset entries) k = Some pos ->
      startsAt bytes pos (objectHeader (first + k)).
Proof.
  induction entries as [|e r IH]; intros first Ids H k pos Hk.
  - destruct k; discriminate.
  - simpl in Ids. injection Ids as Id Ids.
    inversion H as [|? ? He Hr]; subst.
    destruct k as [|k]; simpl in Hk.
    + injection Hk as <-. now rewrite Nat.add_0_r.
    + replace (offId e + S k)%nat with (S (offId e) + k)%nat by lia.
      now apply (IH (S (offId e)) Ids Hr k pos).
Qed.

(** *** The encoder as a whole *)

Lemma createFlashcardsPdfBlob_document (rt : Runtime) (set : FlashcardSet)
  (ls : list jsString) :
  hasTextEncoder rt = true ->
  setCards set <> [] ->
  documentLines rt set = Some ls ->
  createFlashcardsPdfBlob rt set
  = Some (Blob (utf8Encode
                  (pdfText (paginate (contentLinesOf ls) maxLinesPerPage)))).
Proof.
  intros T C D. unfold createFlashcardsPdfBlob. rewrite T, D.
  destruct (setCards set); [congruence|]. reflexivity.
Qed.

(** C1: for a set with at least one card, the bytes of the document are
    the code units of its text (the text is ASCII, so that positions in the
    string are positions in the bytes); the cross-reference section, read
    back from the bytes, lists the offsets that the emission loop recorded,
    one per object; the offset listed in place [k] is the position in the
    bytes at which the header [k+1 0 obj] of object [k+1] begins; and the
    [startxref] value of the footer is the position at which [xref]
    begins. *)
Theorem offsets_exact (rt : Runtime) (set : FlashcardSet) :
  hasTextEncoder rt = true ->
  setCards set <> [] ->
  exists (ls : list jsString) (bytes : list N),
    documentLines rt set = Some ls
    /\ createFlashcardsPdfBlob rt set = Some (Blob bytes)
    /\ let docPages := paginate (contentLinesOf ls) maxLinesPerPage in
       let objects := allObjects docPages in
       let emitted := emitObjects objects in
       let xrefOffset := length (pdf emitted) in
       bytes = pdfText docPages
       /\ xrefTable bytes = Some (map offset (offsets emitted))
       /\ length (offsets emitted) = length objects
       /\ (forall k pos,
             nth_error (map offset (offsets emitted)) k = Some pos ->
             startsAt bytes pos (utf8Encode (objectHeader (k + 1))))
       /\ declaredStartxref bytes = Some xrefOffset
       /\ startsAt bytes xrefOffset (utf8Encode (lit "xref" ++ nl)).
Proof.
  intros T C.
  destruct (documentLines_total rt set) as (ls & D & A).
  set (docPages := paginate (contentLinesOf ls) maxLinesPerPage).
  assert (AP : isAscii (pdfText docPages))
    by now apply isAscii_pdfText, paginate_ascii.
  exists ls, (utf8Encode (pdfText docPages)).
  split; [exact D|].
  split; [now apply createFlashcardsPdfBlob_document|].
  cbv zeta. fold docPages.
  set (objects := allObjects docPages).
  set (emitted := emitObjects objects).
  set (xrefOffset := length (pdf emitted)).
  assert (E : emitted
              = mkEmitted (pdfHeader ++ concat (map objectText objects))
                  (offsetsFrom (length pdfHeader) objects)).
  { unfold emitted, emitObjects. now rewrite emitObject_fold. }
  assert (Len : length (offsets emitted) = length objects).
  { rewrite E. cbn [offsets].
    now rewrite <- (length_map offId), offsetsFrom_ids, length_map. }
  split; [now apply utf8Encode_ascii|].
  rewrite (utf8Encode_ascii _ AP). unfold pdfText.
  fold objects. fold emitted. fold xrefOffset.
  split; [|split; [exact Len|split; [|split]]].
  - rewrite <- Len. apply xrefTable_document.
  - intros k pos Hk. rewrite utf8Encode_ascii by (unfold objectHeader; ascii).
    rewrite Nat.add_comm.
    apply (headers_by_index _ (offsets emitted) 1); [| |exact Hk].
    + rewrite Len, E. cbn [offsets]. rewrite offsetsFrom_ids.
      unfold objects. rewrite length_allObjects, allObjects_built.
      apply allObjects_ids.
    + rewrite E. cbn [pdf offsets]. rewrite <- app_assoc.
      apply offsetsFrom_headers.
  - rewrite app_assoc. apply declaredStartxref_trailer.
  - rewrite utf8Encode_ascii by ascii.
    unfold xrefSection. rewrite <- !app_assoc.
    rewrite (app_assoc (lit "xref")).
    apply (startsAt_here (pdf emitted)). reflexivity.
Qed.

(** C8: the result is the null sentinel exactly when the set has no card or
    [TextEncoder] is missing; otherwise it is a blob of bytes; and a result
    there always is. *)
Theorem null_exactly_when_nothing_to_encode (rt : Runtime)
  (set : FlashcardSet) :
  (createFlashcardsPdfBlob rt set = Some Null
   <-> setCards set = [] \/ hasTextEncoder rt = false)
  /\ (setCards set <> [] /\ hasTextEncoder rt = true ->
      exists bytes, createFlashcardsPdfBlob rt set = Some (Blob bytes))
  /\ is_Some (createFlashcardsPdfBlob rt set).
Proof.
  destruct (documentLines_total rt set) as (ls & D & _).
  pose proof (fun T C => createFlashcardsPdfBlob_document rt set ls T C D) as B.
  assert (Z : setCards set = [] \/ hasTextEncoder rt = false ->
              createFlashcardsPdfBlob rt set = Some Null).
  { unfold createFlashcardsPdfBlob. intros [-> | ->]; simpl;
      [now rewrite orb_true_r|reflexivity]. }
  destruct (hasTextEncoder rt) eqn:T.
  - destruct (setCards set) as [|c r] eqn:C.
    + rewrite Z by now left. split; [tauto|]. split; [|eauto].
      intros [N _]. congruence.
    + rewrite B by (reflexivity || discriminate).
      split; [|split; eauto]. split; [intros N; discriminate|].
      intros [N|N]; discriminate.
  - rewrite Z by now right. split; [tauto|]. split; [|eauto].
    intros [_ N]. discriminate.
Qed.

Lemma offsets_exact_witness :
  hasTextEncoder exampleRuntime = true
  /\ setCards exampleSet <> []
  /\ exists (ls : list jsString) (bytes : list N),
       documentLines exampleRuntime exampleSet = Some ls
       /\ createFlashcardsPdfBlob exampleRuntime exampleSet = Some (Blob bytes)
       /\ let docPages := paginate (contentLinesOf ls) maxLinesPerPage in
          let objects := allObjects docPages in
          let emitted := emitObjects objects in
          let xrefOffset := length (pdf emitted) in
          bytes = pdfText docPages
          /\ xrefTable bytes = Some (map offset (offsets emitted))
          /\ length (offsets emitted) = length objects
          /\ (forall k pos,
                nth_error (map offset (offsets emitted)) k = Some pos ->
                startsAt bytes pos (utf8Encode (objectHeader (k + 1))))
          /\ declaredStartxref bytes = Some xrefOffset
          /\ startsAt bytes xrefOffset (utf8Encode (lit "xref" ++ nl)).
Proof.
  assert (T : hasTextEncoder exampleRuntime = true) by reflexivity.
  assert (C : setCards exampleSet <> []) by discriminate.
  split; [exact T|]. split; [exact C|].
  exact (offsets_exact exampleRuntime exampleSet T C).
Defined.

Lemma null_exactly_when_nothing_to_encode_witness :
  (setCards exampleSet <> [] /\ hasTextEncoder exampleRuntime = true)
  /\ (exists bytes,
        createFlashcardsPdfBlob exampleRuntime exampleSet = Some (Blob bytes))
  /\ (setCards exampleSet = []
      \/ hasTextEncoder (mkRuntime false (localeNow exampleRuntime)) = false)
  /\ createFlashcardsPdfBlob (mkRuntime false (localeNow exampleRuntime))
       exampleSet = Some Null.
Proof.
  assert (H : setCards exampleSet <> [] /\ hasTextEncoder exampleRuntime = true).
  { split; [discriminate|reflexivity]. }
  assert (Z : setCards exampleSet = []
              \/ hasTextEncoder (mkRuntime false (localeNow exampleRuntime))
                 = false) by (right; reflexivity).
  split; [exact H|].
  split;
    [exact (proj1 (proj2 (null_exactly_when_nothing_to_encode
                            exampleRuntime exampleSet)) H)|].
  split; [exact Z|].
  exact (proj2 (proj1 (null_exactly_when_nothing_to_encode
                         (mkRuntime false (localeNow exampleRuntime))
                         exampleSet)) Z).
Defined.

Lemma pdfText_opening (docPages : list (list jsString)) :
  exists rest,
    pdfText docPages
    = (pdfHeader ++ lit "1 0 obj" ++ nl
       ++ lit "<< /Type /Catalog /Pages 2 0 R >>" ++ nl ++ lit "endobj" ++ nl
       ++ lit "2 0 obj" ++ nl ++ lit "<< /Type /Pages ")
      ++ rest.
Proof.
  set (opening := pdfHeader ++ lit "1 0 obj" ++ nl
       ++ lit "<< /Type /Catalog /Pages 2 0 R >>" ++ nl ++ lit "endobj" ++ nl
       ++ lit "2 0 obj" ++ nl ++ lit "<< /Type /Pages ").
  exists (skipn (length opening) (pdfText docPages)).
  rewrite <- (firstn_skipn (length opening) (pdfText docPages)) at 1.
  f_equal. unfold pdfText, emitObjects.
  rewrite emitObject_fold, allObjects_built. reflexivity.
Qed.

(** C2 (as amended): the deck of the two records "What is 2+2?" / "4" and
    "Capital of France?" / "Paris", under any name and at any time such that
    its lines fit on one page, is encoded as a document whose trailer
    declares the object count 6 (Catalog, PageTree, Font, one Page, one
    ContentStream, and the head of the free list), and whose Catalog, object
    1, names object 2, the page tree. *)
Theorem example_deck_document (rt : Runtime)
  (sid deckName imported id1 id2 : jsString) (learned1 learned2 : bool)
  (ls : list jsString) :
  let set :=
    mkSet sid deckName imported
      [mkCard id1 (lit "What is 2+2?") (lit "4") learned1;
       mkCard id2 (lit "Capital of France?") (lit "Paris") learned2] in
  hasTextEncoder rt = true ->
  documentLines rt set = Some ls ->
  length (paginate (contentLinesOf ls) maxLinesPerPage) = 1%nat ->
  exists bytes,
    createFlashcardsPdfBlob rt set = Some (Blob bytes)
    /\ declaredSize bytes = Some 6%nat
    /\ catalogPointsToPageTree bytes.
Proof.
  intros set T D One.
  set (docPages := paginate (contentLinesOf ls) maxLinesPerPage) in *.
  assert (A : isAscii (pdfText docPages)).
  { destruct (documentLines_total rt set) as (ls' & D' & A').
    assert (ls' = ls) as -> by congruence.
    now apply isAscii_pdfText, paginate_ascii. }
  exists (utf8Encode (pdfText docPages)). split; [|split].
  - apply createFlashcardsPdfBlob_document; [exact T|discriminate|exact D].
  - rewrite (utf8Encode_ascii _ A). unfold pdfText.
    rewrite app_assoc, declaredSize_trailer, length_allObjects, One.
    reflexivity.
  - unfold catalogPointsToPageTree.
    rewrite (utf8Encode_ascii _ A).
    rewrite utf8Encode_ascii by (apply isAsciib_spec; reflexivity).
    apply pdfText_opening.
Qed.

Lemma example_deck_document_witness :
  hasTextEncoder exampleRuntime = true
  /\ documentLines exampleRuntime exampleSet
     = Some (map lit ["Flashcards for Demo"; "Generated 11/2/2026, 1:03:00 PM";
                      ""; "Card 1"; "Q: What is 2+2?"; "A: 4"; "";
                      "Card 2"; "Q: Capital of France?"; "A: Paris"]%string)
  /\ length (paginate
               (contentLinesOf
                  (map lit ["Flashcards for Demo";
                            "Generated 11/2/2026, 1:03:00 PM";
                            ""; "Card 1"; "Q: What is 2+2?"; "A: 4"; "";
                            "Card 2"; "Q: Capital of France?";
                            "A: Paris"]%string))
               maxLinesPerPage) = 1%nat
  /\ exists bytes,
       createFlashcardsPdfBlob exampleRuntime exampleSet = Some (Blob bytes)
       /\ declaredSize bytes = Some 6%nat
       /\ catalogPointsToPageTree bytes.
Proof.
  assert (T : hasTextEncoder exampleRuntime = true) by reflexivity.
  assert (D : documentLines exampleRuntime exampleSet
     = Some (map lit ["Flashcards for Demo"; "Generated 11/2/2026, 1:03:00 PM";
                      ""; "Card 1"; "Q: What is 2+2?"; "A: 4"; "";
                      "Card 2"; "Q: Capital of France?"; "A: Paris"]%string))
    by (vm_compute; reflexivity).
  assert (One : length (paginate
               (contentLinesOf
                  (map lit ["Flashcards for Demo";
                            "Generated 11/2/2026, 1:03:00 PM";
                            ""; "Card 1"; "Q: What is 2+2?"; "A: 4"; "";
                            "Card 2"; "Q: Capital of France?";
                            "A: Paris"]%string))
               maxLinesPerPage) = 1%nat) by (vm_compute; reflexivity).
  split; [exact T|]. split; [exact D|]. split; [exact One|].
  exact (example_deck_document exampleRuntime (lit "set-1") (lit "Demo")
           (lit "2026-11-02T13:03:00.000Z") (lit "id-1") (lit "id-2")
           false false _ T D One).
Defined.

(** C2 as it is stated fails on the example: on one page, the document of
    the two-record deck declares the object count 6, not 7. *)
Lemma example_deck_does_not_declare_seven :
  hasTextEncoder exampleRuntime = true
  /\ (exists ls,
        documentLines exampleRuntime exampleSet = Some ls
        /\ length (paginate (contentLinesOf ls) maxLinesPerPage) = 1%nat)
  /\ ~ (exists bytes,
          createFlashcardsPdfBlob exampleRuntime exampleSet
          = Some (Blob bytes)
          /\ declaredSize bytes = Some 7%nat).
Proof.
  split; [reflexivity|]. split.
  - eexists. split; vm_compute; reflexivity.
  - intros (bytes & B & S).
    assert (Six : match createFlashcardsPdfBlob exampleRuntime exampleSet with
                  | Some (Blob b) => declaredSize b
                  | _ => None
                  end = Some 6%nat) by (vm_compute; reflexivity).
    rewrite B, S in Six. discriminate.
Qed.

End PdfFacts.

(** ** What an invocation depends on *)

Module DeterminismFacts.

Import Flashcards Pdf Spec DedupFacts.

Section WithLowerCase.

Variable toLowerCase : jsString -> jsString.

Lemma buildStep_fold_shape (ids : nat -> jsString) (l : list ParsedFlashcard) :
  forall st,
    idCalls st = length (built st) ->
    map id (built st) = map ids (seq 0 (length (built st))) ->
    Forall (fun c => learned c = false) (built st) ->
    let st' := fold_left (buildStep toLowerCase ids) l st in
    idCalls st' = length (built st')
    /\ map id (built st') = map ids (seq 0 (length (built st')))
    /\ Forall (fun c => learned c = false) (built st').
Proof.
  induction l as [|r rest IH]; intros st Calls Ids Learned; simpl; [auto|].
  apply IH; unfold buildStep;
    destruct (isEmpty (trim (pQuestion r)) || isEmpty (trim (pAnswer r)));
    try assumption;
    destruct (bool_decide _); try assumption; simpl.
  - rewrite length_app. simpl. lia.
  - rewrite length_app, map_app, Ids. simpl.
    rewrite Nat.add_1_r, seq_S, map_app, Calls. reflexivity.
  - apply Forall_app. split; [exact Learned|]. repeat constructor.
Qed.



End WithLowerCase.



End DeterminismFacts.

(** ** The tokenizer *)

Module TokenizerFacts.

Import Flashcards Scan Spec JsFacts RegexFacts DedupFacts.

(** *** Trimming and splitting *)

Lemma trimEnd_nil_iff (s : jsString) :
  trimEnd s = [] <-> Forall (fun c => isWhiteSpace c = true) s.
Proof.
  induction s as [|c r IH]; simpl; [split; [constructor|reflexivity]|].
  destruct (trimEnd r) as [|d r'] eqn:E.
  - destruct (isWhiteSpace c) eqn:W; split; intros H.
    + constructor; [exact W|now apply IH].
    + reflexivity.
    + discriminate.
    + inversion H; congruence.
  - split; [discriminate|]. intros H. inversion H as [|? ? _ Hr]; subst.
    apply IH in Hr. discriminate.
Qed.

Lemma trimEnd_app_keep (x y : jsString) :
  trimEnd y <> [] -> trimEnd (x ++ y) = x ++ trimEnd y.
Proof.
  intros Y. induction x as [|c x IH]; [reflexivity|].
  simpl app. rewrite trimEnd_cons; rewrite IH; [reflexivity|].
  destruct x; simpl; [exact Y|discriminate].
Qed.

Lemma trimEnd_app_blank (x w : jsString) :
  Forall (fun c => isWhiteSpace c = true) w -> trimEnd (x ++ w) = trimEnd x.
Proof.
  intros W. apply trimEnd_nil_iff in W.
  induction x as [|c x IH]; simpl; [exact W|]. now rewrite IH.
Qed.

Lemma trim_nonempty_trimEnd (s : jsString) : trim s <> [] -> trimEnd s <> [].
Proof. unfold trim. intros H E. rewrite E in H. now apply H. Qed.

Lemma span_snd_trimStart (s : jsString) :
  snd (span isWhiteSpace s) = trimStart s.
Proof.
  induction s as [|c r IH]; simpl; [reflexivity|].
  destruct (isWhiteSpace c); [|reflexivity].
  destruct (span isWhiteSpace r). exact IH.
Qed.

Lemma trimStart_head_nonws (s : jsString) :
  match trimStart s with
  | [] => True
  | c :: _ => isWhiteSpace c = false
  end.
Proof.
  induction s as [|c r IH]; simpl; [exact I|].
  destruct (isWhiteSpace c) eqn:W; [exact IH|exact W].
Qed.

Lemma singleLine_trimStart (s : jsString) : singleLine s -> singleLine (trimStart s).
Proof.
  induction 1 as [|c r Hc Hr IH]; simpl; [constructor|].
  destruct (isWhiteSpace c); [exact IH|now constructor].
Qed.

Lemma singleLine_trimEnd (s : jsString) : singleLine s -> singleLine (trimEnd s).
Proof.
  induction 1 as [|c r Hc Hr IH]; simpl; [constructor|].
  destruct (trimEnd r); [destruct (isWhiteSpace c)|now constructor];
    repeat constructor; auto.
Qed.

Lemma singleLine_noLineTerminator (s : jsString) :
  singleLine s -> noLineTerminator s = true.
Proof.
  induction 1 as [|c r Hc Hr IH]; simpl; [reflexivity|].
  change (negb (isLineTerminator c) && noLineTerminator r = true).
  now rewrite Hc, IH.
Qed.

Lemma singleLine_no_lf (s : jsString) :
  singleLine s -> Forall (fun c => c <> 10) s.
Proof.
  intros S. eapply Forall_impl; [exact S|]. simpl. intros c H ->. discriminate.
Qed.

Lemma singleLine_no_cr (s : jsString) :
  singleLine s -> Forall (fun c => c <> 13) s.
Proof.
  intros S. eapply Forall_impl; [exact S|]. simpl. intros c H ->. discriminate.
Qed.

(** *** The preprocessing leaves well-formed blocks as they are *)

Lemma normalizeNewlines_id (s : jsString) :
  Forall (fun c => c <> 13) s -> normalizeNewlines s = s.
Proof.
  rewrite normalizeNewlines_scan.
  induction 1 as [|c r Hc Hr IH]; simpl; [reflexivity|].
  apply N.eqb_neq in Hc. now rewrite Hc, IH.
Qed.

Lemma stripOrdinals_plain (w rest : jsString) :
  singleLine w ->
  scanOrdinalsFrom false 0 (w ++ rest) = w ++ scanOrdinalsFrom false 0 rest.
Proof.
  induction 1 as [|c r Hc Hr IH]; simpl; [reflexivity|].
  now rewrite Hc, IH.
Qed.

Lemma singleLine_block_parts (r : ParsedFlashcard) :
  wellFormed r ->
  singleLine (questionLabel ++ pQuestion r)
  /\ singleLine (answerLabel ++ pAnswer r).
Proof.
  intros (Q & A & _). split; apply Forall_app; split; try assumption;
    repeat constructor.
Qed.

Lemma stripOrdinals_line_start (c : N) (rest : jsString) :
  isWhiteSpace c = false -> isDigit c = false ->
  scanOrdinalsFrom true 0 (c :: rest)
  = c :: scanOrdinalsFrom (isLineTerminator c) 0 rest.
Proof.
  intros W D. simpl. unfold ordinalMatchLength. simpl. rewrite W. simpl.
  now rewrite D.
Qed.

Lemma stripOrdinals_inside (c : N) (rest : jsString) :
  scanOrdinalsFrom false 0 (c :: rest)
  = c :: scanOrdinalsFrom (isLineTerminator c) 0 rest.
Proof. reflexivity. Qed.

Lemma stripOrdinals_labelled (label : N) (text rest : jsString) :
  isWhiteSpace label = false -> isDigit label = false ->
  isLineTerminator label = false ->
  singleLine text ->
  scanOrdinalsFrom true 0 (label :: text ++ 10 :: rest)
  = label :: text ++ 10 :: scanOrdinalsFrom true 0 rest.
Proof.
  intros W D L T.
  rewrite stripOrdinals_line_start, L, stripOrdinals_plain by assumption.
  now rewrite stripOrdinals_inside.
Qed.

Lemma stripOrdinals_block (r : ParsedFlashcard) (rest : jsString) :
  wellFormed r ->
  scanOrdinalsFrom true 0 (block r ++ rest)
  = block r ++ scanOrdinalsFrom true 0 rest.
Proof.
  intros (Q & A & _).
  assert (E : forall tail,
    block r ++ tail
    = 81 :: ([58; 32] ++ pQuestion r)
        ++ 10 :: 65 :: ([58; 32] ++ pAnswer r) ++ 10 :: tail).
  { intros tail. unfold block, questionLabel, answerLabel.
    now rewrite <- !app_assoc. }
  rewrite !E.
  rewrite stripOrdinals_labelled;
    [|reflexivity|reflexivity|reflexivity|now repeat constructor].
  rewrite stripOrdinals_labelled;
    [|reflexivity|reflexivity|reflexivity|now repeat constructor].
  reflexivity.
Qed.

Lemma stripOrdinals_blocks (inputs : list ParsedFlashcard) :
  Forall wellFormed inputs ->
  stripOrdinals (blocksText inputs) = blocksText inputs.
Proof.
  rewrite stripOrdinals_scan. unfold scanOrdinals, blocksText.
  induction 1 as [|r rest Hr Hrest IH]; [reflexivity|].
  cbn [map concat]. now rewrite stripOrdinals_block, IH.
Qed.

Lemma blocks_no_cr (inputs : list ParsedFlashcard) :
  Forall wellFormed inputs -> Forall (fun c => c <> 13) (blocksText inputs).
Proof.
  unfold blocksText. induction 1 as [|r rest (Q & A & _) Hrest IH];
    [constructor|].
  cbn [map concat]. apply Forall_app. split; [|exact IH]. unfold block.
  repeat (apply Forall_app; split);
    try (now apply singleLine_no_cr); repeat constructor; discriminate.
Qed.

(** *** The two patterns on the lines of a block *)

Lemma captureNonEmpty_trimStart (s : jsString) :
  trimStart s <> [] -> singleLine (trimStart s) ->
  captureNonEmpty s = Some (trimStart s).
Proof.
  intros NE SL. unfold captureNonEmpty.
  rewrite <- span_snd_trimStart in *.
  destruct (span isWhiteSpace s) as [w r]. simpl in *.
  destruct r; [congruence|].
  now rewrite singleLine_noLineTerminator.
Qed.

Lemma captureAny_trimStart (s : jsString) :
  singleLine (trimStart s) -> captureAny s = Some (trimStart s).
Proof.
  intros SL. unfold captureAny. rewrite <- span_snd_trimStart in *.
  destruct (span isWhiteSpace s) as [w r]. simpl in *.
  now rewrite singleLine_noLineTerminator.
Qed.

Lemma trim_labelled (label : N) (text : jsString) :
  isWhiteSpace label = false ->
  trim (label :: 58 :: 32 :: text) = label :: 58 :: trimEnd (32 :: text).
Proof.
  intros W. unfold trim.
  rewrite (trimEnd_cons_nonws label) by exact W.
  rewrite (trimEnd_cons_nonws 58) by reflexivity.
  now apply trimStart_head.
Qed.

Lemma trimStart_trimEnd_space (text : jsString) :
  trimStart (trimEnd (32 :: text)) = trim text.
Proof.
  unfold trim. simpl. destruct (trimEnd text); reflexivity.
Qed.

Lemma matchMarked_short (c : N) (long : jsString)
  (capture : jsString -> option jsString) (rest v : jsString) :
  capture rest = Some v ->
  matchMarked [c] long capture (c :: 58 :: rest) = Some v.
Proof.
  intros C. unfold matchMarked. cbn [matchWord].
  rewrite N.eqb_refl. unfold afterMarker.
  change (span isWhiteSpace (58 :: rest)) with (@nil N, 58 :: rest).
  cbn [snd]. change (58 =? 58) with true. cbn iota. now rewrite C.
Qed.

Lemma matchQuestion_block (q : jsString) :
  singleLine q -> trim q <> [] ->
  matchQuestion (trim (questionLabel ++ q)) = Some (trim q).
Proof.
  intros SL NE. unfold questionLabel. cbn [app].
  rewrite trim_labelled by reflexivity.
  rewrite matchQuestion_scan. unfold scanQuestion. change (lit "Q") with [81].
  apply matchMarked_short.
  rewrite captureNonEmpty_trimStart; rewrite trimStart_trimEnd_space;
    [reflexivity|exact NE|].
  now apply singleLine_trimStart, singleLine_trimEnd.
Qed.

Lemma matchQuestion_answer_line (a : jsString) :
  matchQuestion (trim (answerLabel ++ a)) = None.
Proof.
  unfold answerLabel. cbn [app]. rewrite trim_labelled by reflexivity.
  rewrite matchQuestion_scan. reflexivity.
Qed.

Lemma matchAnswer_block (a : jsString) :
  singleLine a ->
  matchAnswer (trim (answerLabel ++ a)) = Some (trim a).
Proof.
  intros SL. unfold answerLabel. cbn [app].
  rewrite trim_labelled by reflexivity.
  rewrite matchAnswer_scan. unfold scanAnswer. change (lit "A") with [65].
  apply matchMarked_short.
  rewrite captureAny_trimStart; rewrite trimStart_trimEnd_space;
    [reflexivity|].
  now apply singleLine_trimStart, singleLine_trimEnd.
Qed.

(** *** The loop on the lines of well-formed blocks *)

Lemma parseLine_question (st : ParseState) (q : jsString) :
  singleLine q -> trim q <> [] ->
  parseLine st (questionLabel ++ q)
  = mkParse (cards (commitCard st)) (Some (trim q)) [] false.
Proof.
  intros SL NE. unfold parseLine. now rewrite matchQuestion_block.
Qed.

Lemma parseLine_answer (st : ParseState) (a : jsString) :
  singleLine a ->
  noQuestion (currentQuestion st) = false ->
  parseLine st (answerLabel ++ a)
  = mkParse (cards st) (currentQuestion st) [trim a] true.
Proof.
  intros SL Q. unfold parseLine.
  now rewrite matchQuestion_answer_line, matchAnswer_block, Q.
Qed.

Lemma parseLine_block (st : ParseState) (r : ParsedFlashcard) :
  wellFormed r ->
  fold_left parseLine (blockLines r) st
  = mkParse (cards (commitCard st)) (Some (trim (pQuestion r)))
      [trim (pAnswer r)] true.
Proof.
  intros (Q & A & NQ & NA). unfold blockLines. cbn [fold_left].
  rewrite parseLine_question by assumption.
  rewrite parseLine_answer; [reflexivity|exact A|].
  cbn. now apply isEmpty_false.
Qed.

Lemma commitCard_block (cs : list ParsedFlashcard) (r : ParsedFlashcard) :
  isRecord r ->
  commitCard (mkParse cs (Some (trim (pQuestion r))) [trim (pAnswer r)] true)
  = mkParse (cs ++ [normalize r]) (Some (trim (pQuestion r)))
      [trim (pAnswer r)] true.
Proof.
  intros (NQ & NA). unfold commitCard.
  cbn [currentQuestion currentAnswer cards answerStarted length join Nat.eqb].
  rewrite !trim_idem.
  apply isEmpty_false in NQ. apply isEmpty_false in NA.
  now rewrite NQ, NA.
Qed.

Lemma parse_blocks (inputs : list ParsedFlashcard) :
  Forall wellFormed inputs ->
  forall st,
    cards (commitCard (fold_left parseLine (flat_map blockLines inputs) st))
    = cards (commitCard st) ++ map normalize inputs.
Proof.
  induction 1 as [|r rest Hr Hrest IH]; intros st.
  - cbn. now rewrite app_nil_r.
  - cbn [flat_map map]. rewrite fold_left_app, parseLine_block by exact Hr.
    rewrite IH, commitCard_block by apply Hr.
    cbn [cards]. now rewrite <- app_assoc.
Qed.

(** *** The lines of a text of well-formed blocks *)

Lemma block_lines_text (r : ParsedFlashcard) (rest : jsString) :
  block r ++ rest
  = (questionLabel ++ pQuestion r)
    ++ 10 :: (answerLabel ++ pAnswer r) ++ 10 :: rest.
Proof. unfold block. now rewrite <- !app_assoc. Qed.

Lemma split_blocks (inputs : list ParsedFlashcard) (rest : jsString) :
  Forall wellFormed inputs ->
  split 10 (blocksText inputs ++ rest)
  = flat_map blockLines inputs ++ split 10 rest.
Proof.
  unfold blocksText. induction 1 as [|r t Hr Ht IH]; [reflexivity|].
  cbn [map concat flat_map]. rewrite <- app_assoc, block_lines_text.
  destruct (singleLine_block_parts r Hr) as [Q A].
  rewrite split_line by now apply singleLine_no_lf.
  rewrite split_line by now apply singleLine_no_lf.
  now rewrite IH.
Qed.

Lemma blocksText_head (inputs : list ParsedFlashcard) (rest : jsString) :
  exists tail, blocksText inputs ++ questionLabel ++ rest = 81 :: tail.
Proof.
  destruct inputs as [|r t]; [now eexists|].
  unfold blocksText. cbn [map concat]. unfold block, questionLabel.
  rewrite <- !app_assoc. now eexists.
Qed.

Lemma logicalLines_blocks (init : list ParsedFlashcard) (r : ParsedFlashcard) :
  Forall wellFormed (init ++ [r]) ->
  logicalLines (blocksText (init ++ [r]))
  = flat_map blockLines init
    ++ [questionLabel ++ pQuestion r; answerLabel ++ trimEnd (pAnswer r)].
Proof.
  intros F. unfold logicalLines.
  rewrite normalizeNewlines_id by now apply blocks_no_cr.
  rewrite stripOrdinals_blocks by exact F.
  apply Forall_app in F as [Fi Fr]. inversion Fr as [|? ? Wr _]; subst.
  destruct Wr as (Q & A & NQ & NA).
  assert (T : trim (blocksText (init ++ [r]))
              = blocksText init
                ++ questionLabel ++ pQuestion r
                ++ 10 :: answerLabel ++ trimEnd (pAnswer r)).
  { unfold blocksText at 1. rewrite map_app, concat_app. cbn [map concat].
    rewrite app_nil_r. fold (blocksText init). unfold block, trim.
    replace (blocksText init
             ++ questionLabel ++ pQuestion r ++ [10]
             ++ answerLabel ++ pAnswer r ++ [10])
      with ((blocksText init ++ questionLabel ++ pQuestion r ++ [10]
             ++ answerLabel) ++ (pAnswer r ++ [10]))
      by now rewrite <- !app_assoc.
    rewrite trimEnd_app_keep.
    - rewrite trimEnd_app_blank by (repeat constructor).
      rewrite <- !app_assoc.
      destruct (blocksText_head init
                  (pQuestion r ++ [10] ++ answerLabel ++ trimEnd (pAnswer r)))
        as [tail E].
      rewrite E, trimStart_head by reflexivity. now rewrite <- E.
    - rewrite trimEnd_app_blank by (repeat constructor).
      now apply trim_nonempty_trimEnd. }
  rewrite T, split_blocks by exact Fi. f_equal.
  rewrite app_assoc, split_line.
  - rewrite split_last; [reflexivity|].
    apply singleLine_no_lf, Forall_app. split; [repeat constructor|].
    now apply singleLine_trimEnd.
  - apply singleLine_no_lf, Forall_app. split; [repeat constructor|exact Q].
Qed.

Lemma trim_trimEnd (s : jsString) : trim (trimEnd s) = trim s.
Proof. unfold trim. now rewrite trimEnd_idem. Qed.

(** C3: a text of N well-formed blocks, each a line "Q: " with the question
    and a line "A: " with the answer (texts of one line, not empty once
    trimmed), is parsed into exactly N records, in the order of the blocks,
    whose questions and answers are the texts of the blocks, trimmed; when
    the contents are pairwise distinct (no two have the same CanonicalKey),
    the deck built from them holds the same N records. *)
Theorem parse_well_formed_blocks (inputs : list ParsedFlashcard) :
  Forall wellFormed inputs ->
  parseFlashcards (blocksText inputs) = map normalize inputs
  /\ length (parseFlashcards (blocksText inputs)) = length inputs
  /\ forall (toLowerCase : jsString -> jsString) (ids : nat -> jsString),
       NoDup (map (keyOf toLowerCase) inputs) ->
       dedupe toLowerCase ids (parseFlashcards (blocksText inputs))
       = map normalize inputs.
Proof.
  intros F.
  assert (P : parseFlashcards (blocksText inputs) = map normalize inputs).
  { destruct (exists_last_or_nil inputs) as [->|(init & r & ->)];
      [reflexivity|].
    unfold parseFlashcards.
    assert (NE : isEmpty (blocksText (init ++ [r])) = false).
    { unfold blocksText. rewrite map_app, concat_app. cbn [map concat].
      rewrite app_nil_r. fold (blocksText init). unfold block.
      destruct (blocksText_head init
                  (pQuestion r ++ [10] ++ answerLabel ++ pAnswer r ++ [10]))
        as [tail ->]. reflexivity. }
    rewrite NE, logicalLines_blocks by exact F.
    apply Forall_app in F as [Fi Fr]. inversion Fr as [|? ? Wr _]; subst.
    destruct Wr as (Q & A & NQ & NA).
    set (r' := mkParsed (pQuestion r) (trimEnd (pAnswer r))).
    change [questionLabel ++ pQuestion r; answerLabel ++ trimEnd (pAnswer r)]
      with (blockLines r').
    assert (W' : wellFormed r').
    { split; [exact Q|]. split; [now apply singleLine_trimEnd|].
      split; [exact NQ|]. cbn [r' pAnswer]. now rewrite trim_trimEnd. }
    unfold parseLines.
    replace (flat_map blockLines init ++ blockLines r')
      with (flat_map blockLines (init ++ [r']))
      by (rewrite flat_map_app; cbn [flat_map]; now rewrite app_nil_r).
    rewrite parse_blocks by (apply Forall_app; split; [exact Fi|now constructor]).
    cbn [commitCard initialParse currentQuestion cards app].
    rewrite !map_app. cbn [map]. unfold normalize at 2 4. cbn [r' pQuestion pAnswer].
    now rewrite trim_trimEnd. }
  split; [exact P|]. split; [now rewrite P, length_map|].
  intros toLowerCase ids D. rewrite P, dedupe_keepNew.
  apply keepNew_all.
  - apply Forall_map. eapply Forall_impl; [exact F|]. simpl.
    intros r (_ & _ & R). split; [|split].
    + apply isRecordb_spec. rewrite isRecordb_normalize.
      now apply isRecordb_spec.
    + apply normalize_idem.
    + apply not_elem_of_empty.
  - rewrite map_map. erewrite map_ext; [exact D|].
    intros r. apply key_normalize.
Qed.

Lemma parse_well_formed_blocks_witness :
  Forall wellFormed
    [mkParsed (lit "What is 2+2?") (lit "4");
     mkParsed (lit "Capital of France?") (lit " Paris ")]
  /\ parseFlashcards
       (blocksText [mkParsed (lit "What is 2+2?") (lit "4");
                    mkParsed (lit "Capital of France?") (lit " Paris ")])
     = [mkParsed (lit "What is 2+2?") (lit "4");
        mkParsed (lit "Capital of France?") (lit "Paris")].
Proof.
  assert (F : Forall wellFormed
                [mkParsed (lit "What is 2+2?") (lit "4");
                 mkParsed (lit "Capital of France?") (lit " Paris ")]).
  { repeat (apply List.Forall_cons;
            [split; [repeat constructor|split; [repeat constructor|]];
             split; vm_compute; discriminate|]).
    constructor. }
  split; [exact F|].
  exact (proj1 (parse_well_formed_blocks _ F)).
Defined.

(** *** The cards already committed do not influence what follows *)

Lemma commitCard_withCards (cs : list ParsedFlashcard) (st : ParseState) :
  commitCard (withCards cs st) = withCards cs (commitCard st).
Proof.
  destruct st as [c [q|] a s]; unfold commitCard, withCards;
    cbn [currentQuestion currentAnswer cards answerStarted]; [|reflexivity].
  destruct (isEmpty q || (length a =? 0)%nat); [reflexivity|].
  destruct (negb (isEmpty (trim q)) && negb (isEmpty (trim (join [10] a))));
    [|reflexivity].
  cbn [currentQuestion currentAnswer cards answerStarted].
  now rewrite app_assoc.
Qed.

Lemma parseLine_withCards (cs : list ParsedFlashcard) (st : ParseState)
  (line : jsString) :
  parseLine (withCards cs st) line = withCards cs (parseLine st line).
Proof.
  unfold parseLine. rewrite commitCard_withCards.
  destruct (matchQuestion (trim line)); [reflexivity|].
  destruct st as [c q a s]. unfold withCards.
  cbn [currentQuestion currentAnswer cards answerStarted].
  destruct (matchAnswer (trim line)); [destruct (negb (noQuestion q))|];
    try destruct s; reflexivity.
Qed.

Lemma fold_withCards (lines : list jsString) :
  forall cs st,
    fold_left parseLine lines (withCards cs st)
    = withCards cs (fold_left parseLine lines st).
Proof.
  induction lines as [|l r IH]; intros cs st; [reflexivity|].
  cbn [fold_left]. now rewrite parseLine_withCards, IH.
Qed.

(** A question line starts afresh: what follows it adds the records it
    would give at the start of an input. *)
Lemma parseLine_question_line (st : ParseState) (l : jsString) :
  isQuestionLine l ->
  parseLine st l
  = withCards (cards (commitCard st)) (parseLine initialParse l).
Proof.
  unfold isQuestionLine, parseLine. intros Q.
  destruct (matchQuestion (trim l)) as [q|]; [|congruence].
  unfold withCards. cbn. now rewrite app_nil_r.
Qed.

Lemma question_line_restarts (st : ParseState) (l : jsString)
  (rest : list jsString) :
  isQuestionLine l ->
  cards (commitCard (fold_left parseLine (l :: rest) st))
  = cards (commitCard st) ++ parseLines (l :: rest).
Proof.
  intros Q. unfold parseLines. cbn [fold_left].
  rewrite (parseLine_question_line st l Q).
  now rewrite fold_withCards, commitCard_withCards.
Qed.

(** *** No pending question is blank *)

Lemma matchWord_suffix (word s r : jsString) :
  matchWord word s = Some r -> exists x, s = x ++ r.
Proof.
  revert s. induction word as [|w word IH]; intros s; simpl.
  - intros [= ->]. now exists [].
  - destruct s as [|c s]; [discriminate|].
    destruct (Regex.canonicalize c =? Regex.canonicalize w); [|discriminate].
    intros M. destruct (IH _ M) as [x ->]. now exists (c :: x).
Qed.

Lemma trimmed_suffix (x s : jsString) :
  trimEnd (x ++ s) = x ++ s -> s <> [] -> trimEnd s <> [].
Proof.
  intros T NE E. apply trimEnd_nil_iff in E.
  rewrite trimEnd_app_blank in T by exact E.
  pose proof (WrapFacts.length_trimEnd x) as L.
  rewrite T, length_app in L. destruct s; [congruence|simpl in L; lia].
Qed.

Lemma trimEnd_trim (l : jsString) : trimEnd (trim l) = trim l.
Proof. unfold trim. now rewrite trimEnd_trimStart, trimEnd_idem. Qed.

Lemma trim_nonempty_head (c : N) (r : jsString) :
  isWhiteSpace c = false -> trim (c :: r) <> [].
Proof.
  intros W. unfold trim. rewrite trimEnd_cons_nonws by exact W.
  rewrite trimStart_head by exact W. discriminate.
Qed.

Lemma captureNonEmpty_not_blank (x s q : jsString) :
  trimEnd (x ++ s) = x ++ s ->
  captureNonEmpty s = Some q -> trim q <> [].
Proof.
  intros T. unfold captureNonEmpty.
  pose proof (span_app isWhiteSpace s) as A.
  pose proof (span_snd_trimStart s) as S.
  pose proof (trimStart_head_nonws s) as H.
  destruct (span isWhiteSpace s) as [w r]. cbn [fst snd] in *.
  destruct r as [|c r'].
  - rewrite app_nil_r in A. subst w.
    destruct (rev s) as [|c t] eqn:R; [discriminate|].
    intros _. exfalso.
    assert (NE : s <> []) by (intros ->; discriminate).
    apply (trimmed_suffix x s T NE), trimEnd_nil_iff.
    clear -S. induction s as [|d s IH]; [constructor|].
    simpl in S. destruct (isWhiteSpace d) eqn:W; [|discriminate].
    constructor; [exact W|now apply IH].
  - destruct (noLineTerminator (c :: r')); [|discriminate].
    intros [= <-]. rewrite <- S in H. now apply trim_nonempty_head.
Qed.

Lemma afterMarker_not_blank (x s q : jsString) :
  trimEnd (x ++ s) = x ++ s ->
  afterMarker captureNonEmpty s = Some q -> trim q <> [].
Proof.
  intros T. unfold afterMarker.
  pose proof (span_app isWhiteSpace s) as A.
  destruct (span isWhiteSpace s) as [w r]. cbn [fst snd] in *.
  destruct r as [|c r']; [discriminate|].
  destruct (c =? 58); [|discriminate].
  apply (captureNonEmpty_not_blank (x ++ w ++ [c])).
  rewrite <- !app_assoc. cbn [app]. now rewrite A.
Qed.

Lemma matchQuestion_not_blank (line q : jsString) :
  matchQuestion (trim line) = Some q -> trim q <> [].
Proof.
  rewrite matchQuestion_scan. unfold scanQuestion, matchMarked.
  assert (Alt : forall word,
    match matchWord word (trim line) with
    | Some r => afterMarker captureNonEmpty r
    | None => None
    end = Some q -> trim q <> []).
  { intros word. destruct (matchWord word (trim line)) as [r|] eqn:M;
      [|discriminate].
    destruct (matchWord_suffix _ _ _ M) as [x E].
    apply (afterMarker_not_blank x). rewrite <- E. apply trimEnd_trim. }
  destruct (match matchWord (lit "Q") (trim line) with
            | Some r => afterMarker captureNonEmpty r
            | None => None
            end) as [c|] eqn:E1.
  - intros [= <-]. now apply (Alt (lit "Q")).
  - apply Alt.
Qed.

Lemma parseLine_questionInv (st : ParseState) (line : jsString) :
  questionInv st -> questionInv (parseLine st line).
Proof.
  intros I. unfold parseLine.
  destruct (matchQuestion (trim line)) as [q|] eqn:M.
  - intros q' [= <-]. now apply (matchQuestion_not_blank line).
  - destruct (matchAnswer (trim line));
      [destruct (negb (noQuestion (currentQuestion st)))|];
      try destruct (answerStarted st); exact I.
Qed.

Lemma parseStateAfter_questionInv (done : list jsString) :
  questionInv (parseStateAfter done).
Proof.
  unfold parseStateAfter.
  assert (G : forall st, questionInv st ->
                         questionInv (fold_left parseLine done st)).
  { induction done as [|l r IH]; intros st I; [exact I|].
    cbn [fold_left]. now apply IH, parseLine_questionInv. }
  apply G. intros q. discriminate.
Qed.

(** *** An answer of several lines, and a question left without answer *)

Lemma parseLine_answer_line (st : ParseState) (line capture q : jsString) :
  isAnswerLine line capture ->
  currentQuestion st = Some q -> q <> [] ->
  parseLine st line = mkParse (cards st) (Some q) [capture] true.
Proof.
  intros [NQ A] C NE. unfold parseLine. rewrite NQ, A, C. cbn.
  apply isEmpty_false in NE. now rewrite NE.
Qed.

Lemma parseLine_plain_started (cs : list ParsedFlashcard)
  (q : option jsString) (buffer : list jsString) (line : jsString) :
  isPlainLine line ->
  parseLine (mkParse cs q buffer true) line
  = mkParse cs q (buffer ++ [trim line]) true.
Proof. intros [NQ NA]. unfold parseLine. now rewrite NQ, NA. Qed.

Lemma parseLine_plain_idle (cs : list ParsedFlashcard)
  (q : option jsString) (buffer : list jsString) (line : jsString) :
  isPlainLine line ->
  parseLine (mkParse cs q buffer false) line = mkParse cs q buffer false.
Proof. intros [NQ NA]. unfold parseLine. now rewrite NQ, NA. Qed.

Lemma commitCard_pending (cs : list ParsedFlashcard) (q : jsString)
  (buffer : list jsString) (started : bool) :
  trim q <> [] -> buffer <> [] ->
  cards (commitCard (mkParse cs (Some q) buffer started))
  = cs ++ recordOf q (join [10] buffer).
Proof.
  intros NQ NB. unfold commitCard, recordOf.
  cbn [currentQuestion currentAnswer cards answerStarted].
  assert (Q : isEmpty q = false).
  { apply isEmpty_false. intros ->. now apply NQ. }
  assert (B : (length buffer =? 0)%nat = false) by now destruct buffer.
  apply isEmpty_false in NQ. rewrite Q, B, NQ. cbn [orb negb andb].
  destruct (isEmpty (trim (join [10] buffer))); cbn [negb cards];
    [now rewrite app_nil_r|reflexivity].
Qed.

Lemma logicalLines_nil : logicalLines [] = [[]].
Proof. reflexivity. Qed.

(** C9 (as amended).  Among the lines the tokenizer reads (the input after
    its preprocessing), let an answer line, reached with a question [q]
    pending, be followed by two plain lines and then by a question line or
    by the end of the input: the block gives one record, of the pending
    question and of the captured text and the two trimmed lines joined by
    line feeds, the whole trimmed, when that text is not empty, and no record
    when it is; the records before and after are what the lines before and
    after give.  And a question line followed by plain lines only, up to the
    end of the input, adds no record: the result is that of the lines before
    it. *)
Theorem answer_of_three_lines_and_dangling_question (raw : jsString)
  (pre : list jsString) :
  (forall (aline c1 c2 : jsString) (post : list jsString)
          (q capture : jsString),
      logicalLines raw = pre ++ aline :: c1 :: c2 :: post ->
      currentQuestion (parseStateAfter pre) = Some q ->
      isAnswerLine aline capture ->
      isPlainLine c1 -> isPlainLine c2 ->
      (post = [] \/ exists l post', post = l :: post' /\ isQuestionLine l) ->
      parseFlashcards raw
      = cards (parseStateAfter pre)
        ++ recordOf q (join [10] [capture; trim c1; trim c2])
        ++ parseLines post)
  /\ (forall (qline : jsString) (others : list jsString),
        logicalLines raw = pre ++ qline :: others ->
        isQuestionLine qline ->
        Forall isPlainLine others ->
        parseFlashcards raw = parseLines pre).
Proof.
  split.
  - intros aline c1 c2 post q capture L Q A P1 P2 Post.
    assert (NE : isEmpty raw = false).
    { destruct raw; [|reflexivity]. rewrite logicalLines_nil in L.
      apply (f_equal (@length jsString)) in L.
      rewrite length_app in L. simpl in L. lia. }
    pose proof (parseStateAfter_questionInv pre q Q) as NQ.
    assert (NQ' : q <> []) by (intros ->; now apply NQ).
    unfold parseFlashcards, parseLines. rewrite NE, L, fold_left_app.
    fold (parseStateAfter pre). cbn [fold_left].
    rewrite (parseLine_answer_line _ aline capture q A Q NQ').
    rewrite !parseLine_plain_started by assumption. cbn [app].
    destruct Post as [->|(l & post' & -> & QL)].
    + cbn [fold_left]. rewrite commitCard_pending by (assumption || discriminate).
      change (fold_left parseLine [] initialParse) with initialParse.
      cbn. now rewrite app_nil_r.
    + rewrite (question_line_restarts _ l post' QL).
      rewrite commitCard_pending by (assumption || discriminate).
      now rewrite <- app_assoc.
  - intros qline others L QL Plain.
    assert (NE : isEmpty raw = false).
    { destruct raw; [|reflexivity]. rewrite logicalLines_nil in L.
      destruct pre as [|p [|p' pre']]; try discriminate.
      injection L as <- _. exfalso. now apply QL. }
    unfold parseFlashcards, parseLines. rewrite NE, L, fold_left_app.
    cbn [fold_left]. rewrite (parseLine_question_line _ qline QL).
    set (cs := cards (commitCard (fold_left parseLine pre initialParse))).
    unfold isQuestionLine in QL. unfold parseLine at 2.
    destruct (matchQuestion (trim qline)) as [q|]; [|congruence].
    change (commitCard initialParse) with initialParse.
    assert (Idle : fold_left parseLine others
                     (withCards cs (mkParse (cards initialParse) (Some q) [] false))
                   = withCards cs (mkParse [] (Some q) [] false)).
    { rewrite fold_withCards. f_equal. clear -Plain.
      induction Plain as [|o r Ho Hr IH]; [reflexivity|].
      cbn [fold_left]. change (cards initialParse) with (@nil ParsedFlashcard) in *.
      now rewrite parseLine_plain_idle. }
    rewrite Idle. unfold withCards, commitCard. cbn.
    destruct (isEmpty q); cbn; now rewrite app_nil_r.
Qed.

Lemma answer_of_three_lines_and_dangling_question_witness :
  let raw := lit "1. Q: q" ++ [13; 10] ++ lit "A: a" ++ [10] ++ lit " b "
             ++ [10] ++ lit "2. c" ++ [10] ++ lit "Q: d" in
  logicalLines raw
  = [lit "Q: q"] ++ lit "A: a" :: lit " b " :: lit "c" :: [lit "Q: d"]
  /\ currentQuestion (parseStateAfter [lit "Q: q"]) = Some (lit "q")
  /\ isAnswerLine (lit "A: a") (lit "a")
  /\ isPlainLine (lit " b ")
  /\ isPlainLine (lit "c")
  /\ isQuestionLine (lit "Q: d")
  /\ parseFlashcards raw
     = cards (parseStateAfter [lit "Q: q"])
       ++ recordOf (lit "q") (join [10] [lit "a"; trim (lit " b "); trim (lit "c")])
       ++ parseLines [lit "Q: d"]
  /\ parseFlashcards raw
     = parseLines [lit "Q: q"; lit "A: a"; lit " b "; lit "c"].
Proof.
  intros raw.
  assert (L : logicalLines raw
              = [lit "Q: q"] ++ lit "A: a" :: lit " b " :: lit "c" :: [lit "Q: d"])
    by (vm_compute; reflexivity).
  assert (Q : currentQuestion (parseStateAfter [lit "Q: q"]) = Some (lit "q"))
    by (vm_compute; reflexivity).
  assert (A : isAnswerLine (lit "A: a") (lit "a"))
    by (split; vm_compute; reflexivity).
  assert (P1 : isPlainLine (lit " b ")) by (split; vm_compute; reflexivity).
  assert (P2 : isPlainLine (lit "c")) by (split; vm_compute; reflexivity).
  assert (QL : isQuestionLine (lit "Q: d")) by (vm_compute; discriminate).
  repeat (split; [assumption|]). split.
  - exact (proj1 (answer_of_three_lines_and_dangling_question raw [lit "Q: q"])
             (lit "A: a") (lit " b ") (lit "c") [lit "Q: d"] (lit "q") (lit "a")
             L Q A P1 P2
             (or_intror (ex_intro _ (lit "Q: d")
                (ex_intro _ [] (conj eq_refl QL))))).
  - exact (proj2 (answer_of_three_lines_and_dangling_question raw
                    [lit "Q: q"; lit "A: a"; lit " b "; lit "c"])
             (lit "Q: d") [] (eq_trans L eq_refl) QL (List.Forall_nil _)).
Defined.

(** C9 as it is stated fails when the answer is blank: an answer line with
    no text followed by two empty lines gives no record at all. *)
Lemma blank_answer_gives_no_record :
  let raw := lit "Q: x" ++ [10] ++ lit "A:" ++ [10; 10; 10] ++ lit "Q: y"
             ++ [10] ++ lit "A: z" in
  logicalLines raw
  = [lit "Q: x"] ++ lit "A:" :: [] :: [] :: [lit "Q: y"; lit "A: z"]
  /\ currentQuestion (parseStateAfter [lit "Q: x"]) = Some (lit "x")
  /\ isAnswerLine (lit "A:") []
  /\ isPlainLine []
  /\ isQuestionLine (lit "Q: y")
  /\ parseFlashcards raw = [mkParsed (lit "y") (lit "z")]
  /\ parseFlashcards raw
     <> cards (parseStateAfter [lit "Q: x"])
        ++ [mkParsed (trim (lit "x")) (trim (join [10] [[]; trim []; trim []]))]
        ++ parseLines [lit "Q: y"; lit "A: z"].
Proof.
  intros raw.
  repeat (split; [vm_compute; (reflexivity || discriminate || (split; reflexivity))|]).
  vm_compute. discriminate.
Qed.

End TokenizerFacts.

Module TokenizerProps.

Import Flashcards Scan Spec Properties JsFacts RegexFacts TokenizerFacts.

(** *** Every record is a stored record *)

Lemma isStoredText_trim (s : jsString) : trim s <> [] -> isStoredText (trim s).
Proof. intros NE. split; [exact NE|apply trim_idem]. Qed.

Lemma commitCard_stored (st : ParseState) :
  Forall isStoredRecord (cards st) ->
  Forall isStoredRecord (cards (commitCard st)).
Proof.
  intros F. unfold commitCard. destruct (currentQuestion st) as [q|]; [|exact F].
  destruct (isEmpty q || (length (currentAnswer st) =? 0)%nat); [exact F|].
  destruct (isEmpty (trim q)) eqn:Q; [exact F|].
  destruct (isEmpty (trim (join [10] (currentAnswer st)))) eqn:A; [exact F|].
  cbn [negb andb cards]. apply Forall_app. split; [exact F|].
  constructor; [|constructor].
  split; apply isStoredText_trim; now apply isEmpty_false.
Qed.

Lemma parseLine_stored (st : ParseState) (line : jsString) :
  Forall isStoredRecord (cards st) ->
  Forall isStoredRecord (cards (parseLine st line)).
Proof.
  intros F. unfold parseLine.
  destruct (matchQuestion (trim line)); [now apply commitCard_stored|].
  destruct (matchAnswer (trim line));
    [destruct (negb (noQuestion (currentQuestion st)))|];
    try destruct (answerStarted st); exact F.
Qed.

Lemma parseLines_stored (lines : list jsString) :
  Forall isStoredRecord (parseLines lines).
Proof.
  unfold parseLines. apply commitCard_stored.
  assert (forall st, Forall isStoredRecord (cards st) ->
            Forall isStoredRecord (cards (fold_left parseLine lines st))) as G.
  { induction lines as [|l r IH]; intros st F; [exact F|].
    apply IH. now apply parseLine_stored. }
  apply G. constructor.
Qed.

Lemma parseFlashcards_stored (raw : jsString) :
  Forall isStoredRecord (parseFlashcards raw).
Proof.
  unfold parseFlashcards. destruct (isEmpty raw); [constructor|].
  apply parseLines_stored.
Qed.

(** X1: every record that [parseFlashcards] returns has a question and an
    answer that are not empty and carry no whitespace around them, whatever
    the input. *)
Theorem parsed_records_are_stored_records (raw : jsString) :
  Forall isStoredRecord (parseFlashcards raw).
Proof. apply parseFlashcards_stored. Qed.


(** *** At most one record per question line *)

Lemma commitCard_length (st : ParseState) :
  (length (cards (commitCard st)) <= length (cards st) + pendingCount st)%nat.
Proof.
  unfold commitCard, pendingCount.
  destruct (currentQuestion st) as [q|]; [|lia].
  destruct (isEmpty q || (length (currentAnswer st) =? 0)%nat); [lia|].
  destruct (negb (isEmpty (trim q))
            && negb (isEmpty (trim (join [10] (currentAnswer st)))));
    cbn [cards]; [|lia].
  rewrite length_app. cbn [length]. lia.
Qed.

Lemma parseLine_count (st : ParseState) (line : jsString) :
  (length (cards (parseLine st line)) + pendingCount (parseLine st line)
   <= length (cards st) + pendingCount st
      + (if isQuestionLineb line then 1 else 0))%nat.
Proof.
  unfold parseLine, isQuestionLineb.
  destruct (matchQuestion (trim line)).
  - pose proof (commitCard_length st). unfold pendingCount in *.
    cbn [cards currentQuestion]. lia.
  - destruct (matchAnswer (trim line));
      [destruct (negb (noQuestion (currentQuestion st)))|];
      try destruct (answerStarted st);
      unfold pendingCount; cbn [cards currentQuestion]; lia.
Qed.

Lemma fold_count (lines : list jsString) :
  forall st,
    (length (cards (fold_left parseLine lines st))
     + pendingCount (fold_left parseLine lines st)
     <= length (cards st) + pendingCount st + countQuestionLines lines)%nat.
Proof.
  unfold countQuestionLines.
  induction lines as [|l r IH]; intros st; cbn [fold_left List.filter length];
    [lia|].
  specialize (IH (parseLine st l)). pose proof (parseLine_count st l).
  destruct (isQuestionLineb l); cbn [length]; lia.
Qed.

Lemma parseLines_count (lines : list jsString) :
  (length (parseLines lines) <= countQuestionLines lines)%nat.
Proof.
  unfold parseLines.
  pose proof (fold_count lines initialParse).
  pose proof (commitCard_length (fold_left parseLine lines initialParse)).
  cbn [cards initialParse pendingCount currentQuestion length] in *. lia.
Qed.

(** X2: [parseFlashcards] returns at most one record per line that it takes
    for a question line; in particular a text without such a line, an empty
    or a blank one among them, gives no record. *)
Theorem at_most_one_record_per_question_line (raw : jsString) :
  (length (parseFlashcards raw) <= countQuestionLines (logicalLines raw))%nat
  /\ (countQuestionLines (logicalLines raw) = 0%nat -> parseFlashcards raw = []).
Proof.
  assert (length (parseFlashcards raw)
          <= countQuestionLines (logicalLines raw))%nat as L.
  { unfold parseFlashcards. destruct (isEmpty raw); [cbn; lia|].
    apply parseLines_count. }
  split; [exact L|]. intros Z. rewrite Z in L.
  destruct (parseFlashcards raw); [reflexivity|cbn in L; lia].
Qed.

Lemma at_most_one_record_per_question_line_witness :
  countQuestionLines (logicalLines (lit "A: orphan" ++ [10] ++ lit "text")) = 0%nat
  /\ parseFlashcards (lit "A: orphan" ++ [10] ++ lit "text") = [].
Proof.
  assert (countQuestionLines
            (logicalLines (lit "A: orphan" ++ [10] ++ lit "text")) = 0%nat) as Z
    by (vm_compute; reflexivity).
  split; [exact Z|].
  exact (proj2 (at_most_one_record_per_question_line
                  (lit "A: orphan" ++ [10] ++ lit "text")) Z).
Defined.

(** *** What comes before the first question line *)

Lemma parseLine_idle (line : jsString) :
  isQuestionLineb line = false -> parseLine initialParse line = initialParse.
Proof.
  unfold isQuestionLineb, parseLine. intros Q.
  destruct (matchQuestion (trim line)); [discriminate|].
  now destruct (matchAnswer (trim line)).
Qed.

Lemma fold_idle (pre : list jsString) :
  Forall (fun l => isQuestionLineb l = false) pre ->
  fold_left parseLine pre initialParse = initialParse.
Proof.
  induction 1 as [|l r Hl Hr IH]; [reflexivity|].
  cbn [fold_left]. now rewrite parseLine_idle.
Qed.

Lemma parseLines_preamble (pre rest : list jsString) :
  Forall (fun l => isQuestionLineb l = false) pre ->
  parseLines (pre ++ rest) = parseLines rest.
Proof.
  intros F. unfold parseLines. now rewrite fold_left_app, fold_idle.
Qed.

Lemma isQuestionLineb_spec (l : jsString) :
  isQuestionLineb l = true <-> isQuestionLine l.
Proof.
  unfold isQuestionLineb, isQuestionLine.
  destruct (matchQuestion (trim l)); split; congruence.
Qed.

(** X3: the lines before the first question line change nothing: the
    records are those of the lines from the first question line on. *)
Theorem lines_before_first_question_are_ignored (raw : jsString)
  (pre rest : list jsString) :
  logicalLines raw = pre ++ rest ->
  Forall (fun l => isQuestionLineb l = false) pre ->
  parseFlashcards raw = parseLines rest.
Proof.
  intros L F. unfold parseFlashcards. destruct (isEmpty raw) eqn:E.
  - apply isEmpty_true in E. subst raw. rewrite logicalLines_nil in L.
    destruct pre as [|p pre']; cbn [app] in L.
    + now subst rest.
    + injection L as _ L. symmetry in L.
      apply app_eq_nil in L as [_ ->]. reflexivity.
  - rewrite L. now apply parseLines_preamble.
Qed.

Lemma lines_before_first_question_are_ignored_witness :
  let raw := lit "Here are your cards:" ++ [10] ++ lit "A: stray" ++ [10]
             ++ lit "Q: x" ++ [10] ++ lit "A: y" in
  logicalLines raw
  = [lit "Here are your cards:"; lit "A: stray"] ++ [lit "Q: x"; lit "A: y"]
  /\ Forall (fun l => isQuestionLineb l = false)
       [lit "Here are your cards:"; lit "A: stray"]
  /\ parseFlashcards raw = parseLines [lit "Q: x"; lit "A: y"].
Proof.
  intros raw.
  assert (logicalLines raw
          = [lit "Here are your cards:"; lit "A: stray"]
            ++ [lit "Q: x"; lit "A: y"]) as L by (vm_compute; reflexivity).
  assert (Forall (fun l => isQuestionLineb l = false)
            [lit "Here are your cards:"; lit "A: stray"]) as F
    by (repeat constructor).
  split; [exact L|]. split; [exact F|].
  exact (lines_before_first_question_are_ignored raw _ _ L F).
Defined.

(** *** Every question line starts afresh *)

(** X4: a question line cuts the text in two parts that are read
    independently: the records are those of the lines before it, followed by
    those of the lines from it on. *)
Theorem question_line_cuts_the_text (raw : jsString)
  (before : list jsString) (qline : jsString) (after : list jsString) :
  logicalLines raw = before ++ qline :: after ->
  isQuestionLineb qline = true ->
  parseFlashcards raw = parseLines before ++ parseLines (qline :: after).
Proof.
  intros L Q. apply isQuestionLineb_spec in Q.
  unfold parseFlashcards. destruct (isEmpty raw) eqn:E.
  - apply isEmpty_true in E. subst raw. rewrite logicalLines_nil in L.
    destruct before as [|b before']; cbn [app] in L.
    + injection L as <- <-. exfalso. apply Q. reflexivity.
    + injection L as _ L. now destruct before'.
  - rewrite L. unfold parseLines at 1. rewrite fold_left_app.
    now rewrite question_line_restarts.
Qed.

Lemma question_line_cuts_the_text_witness :
  let raw := lit "Q: a" ++ [10] ++ lit "A: b" ++ [10] ++ lit "more"
             ++ [10] ++ lit "Q: c" ++ [10] ++ lit "A: d" in
  logicalLines raw
  = [lit "Q: a"; lit "A: b"; lit "more"] ++ lit "Q: c" :: [lit "A: d"]
  /\ isQuestionLineb (lit "Q: c") = true
  /\ parseFlashcards raw
     = parseLines [lit "Q: a"; lit "A: b"; lit "more"]
       ++ parseLines [lit "Q: c"; lit "A: d"].
Proof.
  intros raw.
  assert (logicalLines raw
          = [lit "Q: a"; lit "A: b"; lit "more"] ++ lit "Q: c" :: [lit "A: d"])
    as L by (vm_compute; reflexivity).
  assert (isQuestionLineb (lit "Q: c") = true) as Q by (vm_compute; reflexivity).
  split; [exact L|]. split; [exact Q|].
  exact (question_line_cuts_the_text raw _ _ _ L Q).
Defined.

(** *** Line ends *)

Lemma scanNewlines_withCrLf (text : jsString) :
  Forall (fun c => c <> 13) text -> scanNewlines (withCrLf text) = text.
Proof.
  induction 1 as [|c r Hc Hr IH]; [reflexivity|].
  unfold withCrLf in *. cbn [flat_map].
  destruct (c =? 10) eqn:E.
  - apply N.eqb_eq in E. subst c. cbn [app scanNewlines].
    change (13 =? 13) with true. change (10 =? 10) with true. cbn iota.
    now rewrite IH.
  - cbn [app scanNewlines]. apply N.eqb_neq in Hc. now rewrite Hc, IH.
Qed.

Lemma scanNewlines_withCr (text : jsString) :
  Forall (fun c => c <> 13) text -> scanNewlines (withCr text) = text.
Proof.
  induction 1 as [|c r Hc Hr IH]; [reflexivity|].
  unfold withCr in *. cbn [map scanNewlines].
  destruct (c =? 10) eqn:E.
  - apply N.eqb_eq in E. subst c. change (13 =? 13) with true. cbn iota.
    rewrite IH. destruct r as [|d r']; [reflexivity|]. cbn [map].
    destruct (d =? 10) eqn:D; [reflexivity|].
    inversion Hr as [|? ? Hd _]; subst. apply N.eqb_neq in Hd.
    now rewrite D.
  - apply N.eqb_neq in Hc. now rewrite Hc, IH.
Qed.

Lemma parseFlashcards_newlines (raw raw' : jsString) :
  (raw = [] <-> raw' = []) ->
  normalizeNewlines raw = normalizeNewlines raw' ->
  parseFlashcards raw = parseFlashcards raw'.
Proof.
  intros E N. unfold parseFlashcards, logicalLines. rewrite N.
  destruct raw, raw'; try reflexivity.
  destruct E as [E _]. now specialize (E eq_refl).
Qed.

(** X5: the three ways of ending a line give the same records: a text whose
    lines end in line feeds, the same text with carriage return and line
    feed, and the same text with carriage returns alone. *)
Theorem line_ends_do_not_matter (text : jsString) :
  Forall (fun c => c <> 13) text ->
  parseFlashcards (withCrLf text) = parseFlashcards text
  /\ parseFlashcards (withCr text) = parseFlashcards text.
Proof.
  intros F. split.
  - apply parseFlashcards_newlines.
    + destruct text as [|c r]; [tauto|]. cbn [withCrLf flat_map].
      destruct (c =? 10); split; discriminate.
    + now rewrite !normalizeNewlines_scan, scanNewlines_withCrLf,
        <- normalizeNewlines_scan, normalizeNewlines_id.
  - apply parseFlashcards_newlines.
    + destruct text as [|c r]; [tauto|]. split; discriminate.
    + now rewrite !normalizeNewlines_scan, scanNewlines_withCr,
        <- normalizeNewlines_scan, normalizeNewlines_id.
Qed.

Lemma line_ends_do_not_matter_witness :
  Forall (fun c => c <> 13) (lit "Q: a" ++ [10] ++ lit "A: b")
  /\ parseFlashcards (lit "Q: a" ++ [13; 10] ++ lit "A: b")
     = parseFlashcards (lit "Q: a" ++ [10] ++ lit "A: b")
  /\ parseFlashcards (lit "Q: a" ++ [13] ++ lit "A: b")
     = parseFlashcards (lit "Q: a" ++ [10] ++ lit "A: b").
Proof.
  assert (Forall (fun c => c <> 13) (lit "Q: a" ++ [10] ++ lit "A: b")) as F
    by (repeat constructor; discriminate).
  split; [exact F|].
  exact (line_ends_do_not_matter (lit "Q: a" ++ [10] ++ lit "A: b") F).
Defined.

End TokenizerProps.

Module DedupProps.

Import Flashcards Pdf Scan Spec Properties JsFacts DedupFacts DeterminismFacts
  TokenizerFacts.

(** *** Stored texts *)

Lemma isStoredText_trimEnd (s : jsString) : isStoredText s -> trimEnd s = s.
Proof. intros [_ T]. rewrite <- T at 1. rewrite trimEnd_trim. exact T. Qed.

Lemma isStoredText_trimStart (s : jsString) : isStoredText s -> trimStart s = s.
Proof. intros [_ T]. rewrite <- T. unfold trim. apply trimStart_idem. Qed.

Lemma isStoredText_head (s : jsString) :
  isStoredText s -> exists c r, s = c :: r /\ isWhiteSpace c = false.
Proof.
  intros S. pose proof (trimStart_head_nonws s) as H.
  rewrite (isStoredText_trimStart s S) in H. destruct S as [NE _].
  destruct s as [|c r]; [congruence|]. now exists c, r.
Qed.

Lemma isStoredText_app (a m b : jsString) :
  isStoredText a -> isStoredText b -> isStoredText (a ++ m ++ b).
Proof.
  intros A B. destruct (isStoredText_head a A) as (c & r & -> & W).
  split; [discriminate|]. unfold trim.
  rewrite (app_assoc (c :: r) m b), trimEnd_app_keep, (isStoredText_trimEnd b B).
  - cbn [app]. now apply trimStart_head.
  - rewrite (isStoredText_trimEnd b B). apply B.
Qed.

Lemma isStoredText_isRecord (r : ParsedFlashcard) :
  isStoredRecord r <-> isRecord r /\ normalize r = r.
Proof.
  unfold isStoredRecord, isStoredText, isRecord, normalize.
  destruct r as [q a]. cbn [pQuestion pAnswer]. split.
  - intros [[Q1 Q2] [A1 A2]]. rewrite Q2, A2. auto.
  - intros [[Q A] E]. injection E as Q2 A2. rewrite Q2, A2 in *. auto.
Qed.

Section WithLowerCase.

Variable toLowerCase : jsString -> jsString.

Local Abbreviation key := (keyOf toLowerCase).
Local Abbreviation dedupe := (Spec.dedupe toLowerCase).

(** *** The deck *)

Lemma keepNew_length (l : list ParsedFlashcard) :
  forall known, (length (keepNew toLowerCase known l) <= length l)%nat.
Proof.
  induction l as [|r rest IH]; intros known; cbn [keepNew length]; [lia|].
  destruct (isRecordb r); [|specialize (IH known); lia].
  destruct (bool_decide _); [specialize (IH known); lia|].
  cbn [length]. specialize (IH ({[key (normalize r)]} ∪ known)). lia.
Qed.

Lemma deck_records (ids : nat -> jsString) (parsed : list ParsedFlashcard) :
  let deck := buildFlashcardsFromParsed toLowerCase ids parsed in
  Forall isFreshCard deck
  /\ NoDup (map (fun c => canonicalKey toLowerCase (question c) (answer c)) deck)
  /\ (length deck <= length parsed)%nat
  /\ Forall (fun c => exists r, In r parsed /\ asParsed c = normalize r) deck.
Proof.
  intros deck.
  pose proof (dedupe_keepNew toLowerCase ids parsed) as D.
  change (Spec.dedupe toLowerCase ids parsed) with (map asParsed deck) in D.
  assert (Forall (fun c => learned c = false) deck) as L.
  { apply (buildStep_fold_shape toLowerCase ids parsed (mkBuild ∅ [] 0));
      [reflexivity|reflexivity|constructor]. }
  pose proof (keepNew_fresh toLowerCase parsed ∅) as F. rewrite <- D in F.
  pose proof (keepNew_NoDup toLowerCase parsed ∅) as N. rewrite <- D in N.
  pose proof (keepNew_length parsed ∅) as Len.
  rewrite <- D, length_map in Len.
  pose proof (keepNew_from toLowerCase parsed ∅) as From. rewrite <- D in From.
  split; [|split; [|split; [exact Len|]]].
  - rewrite Forall_forall in F. rewrite Forall_forall in L.
    apply Forall_forall. intros c Hc.
    assert (asParsed c ∈ map asParsed deck) as Hc'
      by (apply list_elem_of_fmap; eauto).
    destruct (F _ Hc') as (R & E & _).
    destruct (proj2 (isStoredText_isRecord (asParsed c)) (conj R E)) as [Q A].
    split; [exact Q|]. split; [exact A|]. exact (L c Hc).
  - rewrite map_map in N. exact N.
  - rewrite Forall_forall in From. apply Forall_forall. intros c Hc.
    apply (From (asParsed c)). apply list_elem_of_fmap. eauto.
Qed.

(** X6: every card of the deck that [buildFlashcardsFromParsed] builds holds
    the trimmed texts of a record of the input, a question and an answer
    that are not empty, and is not learned; no two cards have the same key,
    and the deck is no longer than the input. *)
Theorem deck_cards_are_fresh_and_distinct (ids : nat -> jsString)
  (parsed : list ParsedFlashcard) :
  let deck := buildFlashcardsFromParsed toLowerCase ids parsed in
  Forall isFreshCard deck
  /\ NoDup (map (fun c => canonicalKey toLowerCase (question c) (answer c)) deck)
  /\ (length deck <= length parsed)%nat
  /\ Forall (fun c => exists r, In r parsed /\ asParsed c = normalize r) deck.
Proof. apply deck_records. Qed.

(** *** Two batches *)

Lemma keepNew_known (l : list ParsedFlashcard) :
  forall (K known : gset jsString),
    keepNew toLowerCase (K ∪ known) l
    = filter (fun r => key r ∉ K) (keepNew toLowerCase known l).
Proof.
  induction l as [|r rest IH]; intros K known; cbn [keepNew]; [reflexivity|].
  destruct (isRecordb r); [|apply IH].
  destruct (bool_decide_reflect (key (normalize r) ∈ known)) as [In1|Out1].
  - rewrite bool_decide_eq_true_2 by (apply elem_of_union; now right).
    apply IH.
  - destruct (decide (key (normalize r) ∈ K)) as [In2|Out2].
    + rewrite bool_decide_eq_true_2 by (apply elem_of_union; now left).
      rewrite filter_cons_False by (rewrite key_normalize in *; tauto).
      rewrite <- IH. f_equal.
      assert ({[key (normalize r)]} ∪ K = K) as E
        by now apply subseteq_union_1_L, singleton_subseteq_l.
      now rewrite (assoc_L (∪) K), (comm_L (∪) K {[key (normalize r)]}), E.
    + rewrite bool_decide_eq_false_2
        by (rewrite elem_of_union; tauto).
      rewrite filter_cons_True by (rewrite key_normalize in *; tauto).
      f_equal. rewrite <- IH. f_equal.
      now rewrite !(assoc_L (∪)), (comm_L (∪) K {[key (normalize r)]}).
Qed.

(** X7: the deck of two batches read one after the other is the deck of the
    first batch, followed by the deck of the second batch without the cards
    whose key a card of the first deck has. *)
Theorem dedupe_of_two_batches (ids ids1 ids2 : nat -> jsString)
  (first second : list ParsedFlashcard) :
  dedupe ids (first ++ second)
  = dedupe ids1 first
    ++ filter (fun r => key r ∉ map key (dedupe ids1 first))
         (dedupe ids2 second).
Proof.
  rewrite !dedupe_keepNew, keepNew_app. f_equal.
  rewrite keepNew_known. apply list_filter_iff. intros r.
  now rewrite elem_of_list_to_set.
Qed.

(** *** The separator of the key *)

Lemma key_of_stored (q a : jsString) :
  isStoredText q -> isStoredText a ->
  key (mkParsed q a) = toLowerCase q ++ separator ++ toLowerCase a.
Proof.
  intros [_ Q] [_ A]. unfold keyOf, canonicalKey. cbn [pQuestion pAnswer].
  now rewrite Q, A.
Qed.

(** X8: the key does not tell where the question ends when a text holds the
    separator [::] itself: the records ([x::y], [z]) and ([x], [y::z]) differ
    and have the same key whenever lower-casing goes through the two
    concatenations, as it does for ASCII texts; the deck of the two keeps
    the first only. *)
Theorem separator_in_a_text_merges_records (ids : nat -> jsString)
  (x y z : jsString) :
  isStoredText x -> isStoredText y -> isStoredText z ->
  toLowerCase (x ++ separator ++ y)
  = toLowerCase x ++ separator ++ toLowerCase y ->
  toLowerCase (y ++ separator ++ z)
  = toLowerCase y ++ separator ++ toLowerCase z ->
  let r1 := mkParsed (x ++ separator ++ y) z in
  let r2 := mkParsed x (y ++ separator ++ z) in
  r1 <> r2 /\ key r1 = key r2 /\ dedupe ids [r1; r2] = [r1].
Proof.
  intros X Y Z L1 L2 r1 r2.
  assert (isStoredText (x ++ separator ++ y)) as XY
    by now apply isStoredText_app.
  assert (isStoredText (y ++ separator ++ z)) as YZ
    by now apply isStoredText_app.
  assert (key r1 = key r2) as K.
  { unfold r1, r2. rewrite !key_of_stored by assumption.
    rewrite L1, L2. now rewrite <- !app_assoc. }
  assert (normalize r1 = r1) as N1.
  { apply (isStoredText_isRecord r1). now split. }
  assert (normalize r2 = r2) as N2.
  { apply (isStoredText_isRecord r2). now split. }
  split; [|split; [exact K|]].
  - unfold r1, r2. intros E. injection E as E _.
    apply (f_equal (@length N)) in E. rewrite !length_app in E.
    cbn [separator length] in E. lia.
  - rewrite dedupe_keepNew. cbn [keepNew].
    assert (isRecordb r1 = true) as V1
      by (apply isRecordb_spec, (isStoredText_isRecord r1); now split).
    assert (isRecordb r2 = true) as V2
      by (apply isRecordb_spec, (isStoredText_isRecord r2); now split).
    rewrite V1, V2, N1, N2.
    rewrite bool_decide_eq_false_2 by apply not_elem_of_empty.
    rewrite bool_decide_eq_true_2; [reflexivity|].
    apply elem_of_union. left. apply elem_of_singleton. now symmetry.
Qed.

End WithLowerCase.

Lemma separator_in_a_text_merges_records_witness :
  let r1 := mkParsed (lit "a::b") (lit "c") in
  let r2 := mkParsed (lit "a") (lit "b::c") in
  r1 <> r2 /\ keyOf asciiLowerCase r1 = keyOf asciiLowerCase r2
  /\ dedupe asciiLowerCase decimal [r1; r2] = [r1].
Proof.
  apply (separator_in_a_text_merges_records asciiLowerCase decimal
           (lit "a") (lit "b") (lit "c"));
    try (split; [discriminate|reflexivity]); reflexivity.
Defined.

End DedupProps.

Module ImportProps.

Import Flashcards Pdf Scan Spec Properties HomePage JsFacts RegexFacts
  DedupFacts TokenizerFacts TokenizerProps DedupProps.

(** *** A blank answer of the backend *)

Lemma scanNewlines_blank (s : jsString) :
  Forall (fun c => isWhiteSpace c = true) s ->
  Forall (fun c => isWhiteSpace c = true) (scanNewlines s).
Proof.
  assert (forall n s, (length s <= n)%nat ->
            Forall (fun c => isWhiteSpace c = true) s ->
            Forall (fun c => isWhiteSpace c = true) (scanNewlines s)) as G.
  { clear s. induction n as [|n IH]; intros s L F.
    - destruct s; [constructor|cbn in L; lia].
    - destruct F as [|c r Hc Hr]; [constructor|]. cbn [scanNewlines].
      cbn [length] in L. destruct (c =? 13).
      + destruct Hr as [|d r' Hd Hr']; [now repeat constructor|].
        cbn [length] in L.
        destruct (d =? 10); (constructor; [reflexivity|]); apply IH;
          try (cbn [length]; lia); try assumption.
        now constructor.
      + constructor; [exact Hc|]. apply IH; [lia|exact Hr]. }
  apply (G (length s)). lia.
Qed.

Lemma scanOrdinalsFrom_blank (s : jsString) :
  Forall (fun c => isWhiteSpace c = true) s ->
  forall atLineStart skip,
    Forall (fun c => isWhiteSpace c = true)
      (scanOrdinalsFrom atLineStart skip s).
Proof.
  induction 1 as [|c r Hc Hr IH]; intros atLineStart skip; [constructor|].
  cbn [scanOrdinalsFrom]. destruct skip; [|apply IH].
  destruct (if atLineStart then ordinalMatchLength (c :: r) else None)
    as [[|k]|]; try apply IH; (constructor; [exact Hc|apply IH]).
Qed.

Lemma trim_blank (s : jsString) :
  trim s = [] <-> Forall (fun c => isWhiteSpace c = true) s.
Proof.
  rewrite <- trimEnd_nil_iff. unfold trim. split.
  - intros T. destruct (trimEnd s) as [|c r] eqn:E; [reflexivity|].
    exfalso. assert (trimEnd (c :: r) = c :: r) as I
      by (rewrite <- E; apply trimEnd_idem).
    pose proof (trimEnd_trimStart (c :: r)) as C. rewrite I, T in C.
    destruct (trimStart (c :: r)) as [|d r'] eqn:S.
    + apply (f_equal (@length N)) in S.
      assert (Forall (fun x => isWhiteSpace x = true) (c :: r)) as W.
      { clear -S. revert S. generalize (c :: r). intros l.
        induction l as [|x l IH]; [constructor|]. cbn [trimStart].
        destruct (isWhiteSpace x) eqn:X; [|discriminate].
        intros S. constructor; [exact X|now apply IH]. }
      apply trimEnd_nil_iff in W. rewrite I in W. discriminate.
    + pose proof (trimStart_head_nonws (c :: r)) as H. rewrite S in H.
      assert (trimEnd (d :: r') <> []) as NE.
      { cbn [trimEnd]. destruct (trimEnd r'); [now rewrite H|discriminate]. }
      now apply NE.
  - intros ->. reflexivity.
Qed.

Lemma parseFlashcards_blank (raw : jsString) :
  trim raw = [] -> parseFlashcards raw = [].
Proof.
  intros B. apply trim_blank in B. unfold parseFlashcards, logicalLines.
  destruct (isEmpty raw); [reflexivity|].
  assert (trim (stripOrdinals (normalizeNewlines raw)) = []) as ->; [|reflexivity].
  apply trim_blank. rewrite stripOrdinals_scan, normalizeNewlines_scan.
  apply scanOrdinalsFrom_blank. now apply scanNewlines_blank.
Qed.

Section WithLowerCase.

Variable toLowerCase : jsString -> jsString.

Lemma deck_not_empty (ids : nat -> jsString) (parsed : list ParsedFlashcard) :
  Forall isStoredRecord parsed -> parsed <> [] ->
  buildFlashcardsFromParsed toLowerCase ids parsed <> [].
Proof.
  intros F NE E.
  pose proof (dedupe_keepNew toLowerCase ids parsed) as D.
  unfold dedupe in D. rewrite E in D. cbn [map] in D.
  destruct F as [|r rest Hr _]; [congruence|].
  apply isStoredText_isRecord in Hr as [R _].
  apply isRecordb_spec in R. cbn [keepNew] in D. rewrite R in D.
  rewrite bool_decide_eq_false_2 in D by apply not_elem_of_empty.
  discriminate D.
Qed.

(** X9: [handleGenerate] never reports that no new flashcards were
    generated: a blank answer of the backend gives the first message, a text
    without a question-and-answer pair the second, and every other text
    adds a set, whose cards are the deck of the text, at least one and at
    most as many as the pairs read, each with a question and an answer and
    not learned; the status message gives their number. *)
Theorem generate_adds_a_set_or_reports (ids : nat -> jsString)
  (nowIso fileName : jsString) (flashcards : option jsString) :
  let text := match flashcards with Some s => s | None => [] end in
  let deck := buildFlashcardsFromParsed toLowerCase ids (parseFlashcards text) in
  handleGenerate toLowerCase ids nowIso fileName flashcards
  <> Error noNewCardsMessage
  /\ (handleGenerate toLowerCase ids nowIso fileName flashcards
      = Error noFlashcardsMessage <-> trim text = [])
  /\ (handleGenerate toLowerCase ids nowIso fileName flashcards
      = Error noPairsMessage <-> trim text <> [] /\ parseFlashcards text = [])
  /\ (parseFlashcards text <> [] ->
      handleGenerate toLowerCase ids nowIso fileName flashcards
      = Added (mkSet (ids (length deck)) fileName nowIso deck)
          (lit "Added " ++ decimal (length deck) ++ lit " flashcards from "
           ++ [34] ++ fileName ++ [34] ++ lit ".")
      /\ (1 <= length deck <= length (parseFlashcards text))%nat
      /\ Forall isFreshCard deck).
Proof.
  intros text deck. unfold handleGenerate. fold text. fold deck.
  destruct (isEmpty (trim text)) eqn:B.
  - apply isEmpty_true in B. pose proof (parseFlashcards_blank text B) as P.
    split; [discriminate|]. split; [tauto|]. split.
    + split; [discriminate|tauto].
    + congruence.
  - apply isEmpty_false in B.
    destruct (parseFlashcards text) as [|r rest] eqn:P.
    + cbn [length Nat.eqb]. split; [discriminate|].
      split; [split; [discriminate|tauto]|]. split; [tauto|congruence].
    + assert (deck <> []) as NE.
      { apply deck_not_empty; [|discriminate].
        rewrite <- P. apply parseFlashcards_stored. }
      cbn [length Nat.eqb].
      destruct (deck_records toLowerCase ids (r :: rest)) as (F & _ & L & _).
      fold deck in F, L.
      destruct deck as [|c cs] eqn:D; [congruence|].
      cbn [length Nat.eqb createId]. cbn [length] in L.
      split; [discriminate|]. split; [split; [discriminate|tauto]|].
      split; [split; [discriminate|intros [_ E]; discriminate E]|].
      intros _. split; [reflexivity|]. split; [lia|exact F].
Qed.

End WithLowerCase.

Lemma generate_adds_a_set_or_reports_witness :
  parseFlashcards (lit "Q: a" ++ [10] ++ lit "A: b") <> []
  /\ handleGenerate asciiLowerCase decimal (lit "2026-11-02T13:03:00.000Z")
       (lit "notes.pdf") (Some (lit "Q: a" ++ [10] ++ lit "A: b"))
     = Added
         (mkSet (lit "1") (lit "notes.pdf") (lit "2026-11-02T13:03:00.000Z")
            [mkCard (lit "0") (lit "a") (lit "b") false])
         (lit "Added 1 flashcards from " ++ [34] ++ lit "notes.pdf" ++ [34]
          ++ lit ".").
Proof.
  assert (parseFlashcards (lit "Q: a" ++ [10] ++ lit "A: b") <> []) as P
    by (vm_compute; discriminate).
  split; [exact P|].
  exact (proj1 (proj2 (proj2 (proj2
           (generate_adds_a_set_or_reports asciiLowerCase decimal
              (lit "2026-11-02T13:03:00.000Z") (lit "notes.pdf")
              (Some (lit "Q: a" ++ [10] ++ lit "A: b"))))) P)).
Defined.

End ImportProps.

Module TextProps.

Import Flashcards Pdf Scan Spec Properties JsFacts RegexFacts WrapFacts
  TokenizerFacts.

(** *** What [sanitizeTextValue] returns *)

Lemma printable_isPrintable (c : N) : isPrintable (printable c).
Proof.
  unfold printable, isPrintable.
  destruct ((32 <=? c) && (c <=? 126)) eqn:E; [|lia].
  apply andb_true_iff in E as [L H].
  apply N.leb_le in L. apply N.leb_le in H. lia.
Qed.

Lemma printable_id (c : N) : isPrintable c -> printable c = c.
Proof.
  unfold printable, isPrintable. intros [L H].
  apply N.leb_le in L. apply N.leb_le in H. now rewrite L, H.
Qed.

Lemma isPrintable_space (c : N) :
  isPrintable c -> isWhiteSpace c = (c =? 32).
Proof.
  unfold isPrintable. intros [L H].
  destruct (c =? 32) eqn:E; [apply N.eqb_eq in E; now subst|].
  apply N.eqb_neq in E.
  assert (In c (map N.of_nat (seq 33 94))) as I.
  { apply in_map_iff. exists (N.to_nat c). split; [lia|].
    apply in_seq. lia. }
  cbn in I. repeat (destruct I as [<-|I]; [reflexivity|]). destruct I.
Qed.

Lemma printable_space (c : N) : (printable c =? 32) = (c =? 32).
Proof.
  unfold printable. destruct ((32 <=? c) && (c <=? 126)) eqn:E; [reflexivity|].
  destruct (c =? 32) eqn:C; [|reflexivity].
  apply N.eqb_eq in C. subst c. discriminate E.
Qed.

Lemma Forall_trimStart (P : N -> Prop) (s : jsString) :
  Forall P s -> Forall P (trimStart s).
Proof.
  induction 1 as [|c r Hc Hr IH]; cbn [trimStart]; [constructor|].
  destruct (isWhiteSpace c); [exact IH|now constructor].
Qed.

Lemma Forall_trimEnd (P : N -> Prop) (s : jsString) :
  Forall P s -> Forall P (trimEnd s).
Proof.
  induction 1 as [|c r Hc Hr IH]; cbn [trimEnd]; [constructor|].
  destruct (trimEnd r); [destruct (isWhiteSpace c); repeat constructor|];
    try assumption. now constructor.
Qed.

Lemma noDoubleSpace_tail (c : N) (r : jsString) :
  noDoubleSpace (c :: r) = true -> noDoubleSpace r = true.
Proof.
  cbn [noDoubleSpace]. destruct r; [reflexivity|].
  intros H. now apply andb_true_iff in H.
Qed.

Lemma noDoubleSpace_trimStart (s : jsString) :
  noDoubleSpace s = true -> noDoubleSpace (trimStart s) = true.
Proof.
  induction s as [|c r IH]; intros H; cbn [trimStart]; [reflexivity|].
  destruct (isWhiteSpace c); [|exact H]. apply IH.
  now apply noDoubleSpace_tail in H.
Qed.

Lemma noDoubleSpace_trimEnd (s : jsString) :
  noDoubleSpace s = true -> noDoubleSpace (trimEnd s) = true.
Proof.
  induction s as [|c r IH]; intros H; [reflexivity|].
  pose proof (noDoubleSpace_tail c r H) as T. specialize (IH T).
  cbn [trimEnd]. destruct (trimEnd r) as [|d r'] eqn:E.
  - now destruct (isWhiteSpace c).
  - assert (exists r'', r = d :: r'') as [r'' ->].
    { destruct r as [|x r'']; [discriminate|]. exists r''.
      cbn [trimEnd] in E. destruct (trimEnd r''); [destruct (isWhiteSpace x)|];
        congruence. }
    cbn [noDoubleSpace] in *. apply andb_true_iff in H as [H _].
    rewrite H. exact IH.
Qed.

(** After the runs of whitespace are replaced and the rest mapped to
    printable code units, no two spaces stand side by side, and none comes
    first when the scan is inside a run. *)
Lemma scanWhitespace_single (s : jsString) :
  forall inRun,
    let t := map printable (scanWhitespace inRun s) in
    noDoubleSpace t = true
    /\ (inRun = true -> match t with c :: _ => (c =? 32) = false | [] => True end).
Proof.
  induction s as [|c r IH]; intros inRun; [now split|].
  cbn [scanWhitespace]. destruct (isWhiteSpace c) eqn:W.
  - destruct (IH true) as [D H]. specialize (H eq_refl).
    destruct inRun; [now split|]. cbn zeta. cbn [map].
    split; [|discriminate]. cbn [noDoubleSpace].
    destruct (map printable (scanWhitespace true r)) as [|d t]; [reflexivity|].
    rewrite H, andb_false_r. exact D.
  - destruct (IH false) as [D _]. cbn zeta. cbn [map].
    assert ((printable c =? 32) = false) as P.
    { rewrite printable_space. destruct (c =? 32) eqn:E; [|reflexivity].
      apply N.eqb_eq in E. subst c. discriminate W. }
    split; [|now intros _]. cbn [noDoubleSpace].
    destruct (map printable (scanWhitespace false r)) as [|d t]; [reflexivity|].
    now rewrite P.
Qed.

Lemma sanitizeTextValue_isSanitized (value : jsString) :
  isSanitized (sanitizeTextValue value).
Proof.
  rewrite sanitizeTextValue_scan. split; [|split].
  - unfold trim. apply Forall_trimStart, Forall_trimEnd, Forall_map.
    apply Forall_forall. intros c _. apply printable_isPrintable.
  - apply trim_idem.
  - unfold trim. apply noDoubleSpace_trimStart, noDoubleSpace_trimEnd.
    apply (scanWhitespace_single value false).
Qed.

(** *** Sanitized texts stay as they are *)

Lemma scanWhitespace_sanitized (s : jsString) :
  Forall isPrintable s -> noDoubleSpace s = true ->
  scanWhitespace false s = s
  /\ (match s with c :: _ => (c =? 32) = false | [] => True end ->
      scanWhitespace true s = s).
Proof.
  induction 1 as [|c r Hc Hr IH]; intros D; [now split|].
  pose proof (noDoubleSpace_tail c r D) as T. destruct (IH T) as [IH1 IH2].
  cbn [scanWhitespace]. rewrite (isPrintable_space c Hc).
  destruct (c =? 32) eqn:C.
  - split; [|discriminate]. apply N.eqb_eq in C. subst c. f_equal.
    apply IH2. destruct r as [|d r']; [exact I|].
    cbn [noDoubleSpace] in D. change (32 =? 32) with true in D.
    destruct (d =? 32); [discriminate D|reflexivity].
  - split; [|intros _]; now rewrite IH1.
Qed.

Lemma map_printable_id (s : jsString) :
  Forall isPrintable s -> map printable s = s.
Proof.
  induction 1 as [|c r Hc Hr IH]; [reflexivity|].
  cbn [map]. now rewrite printable_id, IH.
Qed.

Lemma sanitizeTextValue_fixed (s : jsString) :
  isSanitized s -> sanitizeTextValue s = s.
Proof.
  intros (P & T & D). rewrite sanitizeTextValue_scan.
  rewrite (proj1 (scanWhitespace_sanitized s P D)).
  now rewrite map_printable_id.
Qed.

(** X10: [sanitizeTextValue] returns printable ASCII with no space at
    either end and no two spaces in a row, and the texts it returns are
    exactly those it leaves as they are; so to sanitize twice is to
    sanitize once. *)
Theorem sanitized_texts_are_the_fixed_points (value : jsString) :
  isSanitized (sanitizeTextValue value)
  /\ (sanitizeTextValue value = value <-> isSanitized value)
  /\ sanitizeTextValue (sanitizeTextValue value) = sanitizeTextValue value.
Proof.
  pose proof (sanitizeTextValue_isSanitized value) as S.
  split; [exact S|]. split; [split|].
  - intros E. now rewrite <- E.
  - apply sanitizeTextValue_fixed.
  - now apply sanitizeTextValue_fixed.
Qed.


(** *** Wrapping loses nothing *)

Lemma inkOf_app (a b : list jsString) : inkOf (a ++ b) = inkOf a ++ inkOf b.
Proof. unfold inkOf. now rewrite concat_app, List.filter_app. Qed.

Lemma inkOf_one_app (a b : jsString) : inkOf [a ++ b] = inkOf [a] ++ inkOf [b].
Proof. unfold inkOf. cbn [concat]. now rewrite !app_nil_r, List.filter_app. Qed.

Lemma inkOf_nil : inkOf [[]] = [].
Proof. reflexivity. Qed.

Lemma segmentsFrom_concat (maxChars : nat) (word : jsString) (fuel : nat) :
  forall index segments,
    segmentsFrom fuel word maxChars index = Some segments ->
    concat segments = skipn index word.
Proof.
  induction fuel as [|fuel IH]; intros index segments; cbn [segmentsFrom].
  - destruct (index <? length word)%nat eqn:E; [discriminate|].
    intros [= <-]. apply Nat.ltb_ge in E. now rewrite skipn_all2.
  - destruct (index <? length word)%nat eqn:E.
    + destruct (segmentsFrom fuel word maxChars (index + maxChars)) as [rest|] eqn:R;
        cbn [mbind option_bind]; [|discriminate].
      intros [= <-]. cbn [concat]. rewrite (IH _ _ R). unfold slice.
      replace (index + maxChars - index)%nat with maxChars by lia.
      rewrite <- (drop_drop word maxChars index).
      apply firstn_skipn.
    + intros [= <-]. apply Nat.ltb_ge in E. now rewrite skipn_all2.
Qed.

Lemma breakWordIntoSegments_concat (word : jsString) (maxChars : nat) segments :
  breakWordIntoSegments word maxChars = Some segments ->
  concat segments = word.
Proof.
  unfold breakWordIntoSegments. destruct (length word <=? maxChars)%nat.
  - intros [= <-]. cbn [concat]. apply app_nil_r.
  - intros E. now rewrite (segmentsFrom_concat _ _ _ _ _ E).
Qed.

Lemma concat_removelast_last (segments : list jsString) :
  concat (removelast segments) ++ List.last segments [] = concat segments.
Proof.
  destruct (exists_last_or_nil segments) as [->|(init & x & ->)]; [reflexivity|].
  rewrite removelast_last, last_last, concat_app. cbn [concat].
  now rewrite app_nil_r.
Qed.

Lemma placeLongWord_ink (ls : list jsString) (word : jsString)
  (maxChars : nat) (st : WrapState) :
  placeLongWord ls word maxChars = Some st ->
  inkOf (lines st ++ [current st]) = inkOf ls ++ inkOf [word].
Proof.
  unfold placeLongWord.
  destruct (breakWordIntoSegments word maxChars) as [segments|] eqn:E;
    cbn [mbind option_bind]; [|discriminate].
  apply breakWordIntoSegments_concat in E.
  assert (inkOf (removelast segments) ++ inkOf [List.last segments []]
          = inkOf [word]) as K.
  { rewrite <- inkOf_app. unfold inkOf. rewrite concat_app. cbn [concat].
    now rewrite !app_nil_r, concat_removelast_last, E. }
  destruct (length (List.last segments []) =? maxChars)%nat; intros [= <-];
    cbn [lines current]; rewrite !inkOf_app;
    change (inkOf [[]]) with (@nil N); rewrite ?app_nil_r, <- ?app_assoc;
    now rewrite K.
Qed.

Lemma placeWord_ink (maxChars : nat) (st : WrapState) (word : jsString)
  (st' : WrapState) :
  placeWord maxChars st word = Some st' ->
  inkOf (lines st' ++ [current st'])
  = inkOf (lines st ++ [current st]) ++ inkOf [word].
Proof.
  unfold placeWord. destruct (isEmpty word) eqn:W.
  - apply isEmpty_true in W. subst word. intros [= <-].
    change (inkOf [[]]) with (@nil N). now rewrite app_nil_r.
  - destruct (length (current st) =? 0)%nat eqn:C.
    + apply Nat.eqb_eq, length_zero_iff_nil in C. rewrite C.
      rewrite (inkOf_app (lines st)). change (inkOf [[]]) with (@nil N).
      rewrite app_nil_r.
      destruct (length word <=? maxChars)%nat.
      * intros [= <-]. cbn [lines current]. apply inkOf_app.
      * apply placeLongWord_ink.
    + destruct (length (current st) + 1 + length word <=? maxChars)%nat.
      * intros [= <-]. cbn [lines current].
        rewrite !inkOf_app, inkOf_one_app, <- app_assoc. reflexivity.
      * destruct (length word <=? maxChars)%nat.
        -- intros [= <-]. cbn [lines current]. apply inkOf_app.
        -- apply placeLongWord_ink.
Qed.

Lemma foldM_ink (maxChars : nat) (words : list jsString) :
  forall st st',
    foldM (placeWord maxChars) words st = Some st' ->
    inkOf (lines st' ++ [current st'])
    = inkOf (lines st ++ [current st]) ++ inkOf words.
Proof.
  induction words as [|w r IH]; intros st st'; cbn [foldM].
  - intros [= <-]. unfold inkOf at 3. cbn. now rewrite app_nil_r.
  - destruct (placeWord maxChars st w) as [next|] eqn:E;
      cbn [mbind option_bind]; [|discriminate].
    intros F. rewrite (IH _ _ F), (placeWord_ink _ _ _ _ E), <- app_assoc.
    f_equal. change (w :: r) with ([w] ++ r). now rewrite inkOf_app.
Qed.

Lemma concat_split (sep : N) (s : jsString) :
  concat (split sep s) = List.filter (fun c => negb (c =? sep)) s.
Proof.
  induction s as [|c r IH]; [reflexivity|]. cbn [split List.filter].
  destruct (c =? sep); cbn [negb concat app]; [exact IH|].
  destruct (split sep r) as [|p ps]; cbn [concat] in *;
    [now rewrite <- IH|now rewrite <- IH].
Qed.

Lemma filter_idem {A : Type} (f : A -> bool) (l : list A) :
  List.filter f (List.filter f l) = List.filter f l.
Proof.
  induction l as [|x l IH]; [reflexivity|]. cbn [List.filter].
  destruct (f x) eqn:E; cbn [List.filter]; now rewrite ?E, IH.
Qed.

Lemma inkOf_split (s : jsString) : inkOf (split 32 s) = inkOf [s].
Proof.
  unfold inkOf. rewrite concat_split. cbn [concat]. rewrite app_nil_r.
  apply filter_idem.
Qed.

Lemma segmentSanitizedText_ink (sanitized : jsString) (maxChars : nat)
  (ls : list jsString) :
  segmentSanitizedText sanitized maxChars = Some ls ->
  inkOf ls = inkOf [sanitized].
Proof.
  unfold segmentSanitizedText. destruct (isEmpty sanitized) eqn:E.
  - apply isEmpty_true in E. subst. now intros [= <-].
  - destruct (foldM (placeWord maxChars) (split 32 sanitized) (mkWrap [] []))
      as [st|] eqn:F; cbn [mbind option_bind]; [|discriminate].
    apply foldM_ink in F. cbn [lines current app] in F.
    change (inkOf [[]]) with (@nil N) in F. rewrite inkOf_split in F.
    cbn [app] in F.
    destruct (isEmpty (current st)) eqn:C; intros [= <-]; [|exact F].
    apply isEmpty_true in C. rewrite C, inkOf_app in F.
    change (inkOf [[]]) with (@nil N) in F. now rewrite app_nil_r in F.
Qed.

Lemma skipn_app_length {A : Type} (a b : list A) :
  skipn (length a) (a ++ b) = b.
Proof. induction a; [reflexivity|assumption]. Qed.

(** X11: wrapping loses and adds nothing but spaces: for a width of at least
    one, the code units of the lines of [wrapLongLine] that are not spaces
    are those of the sanitized text, in order; the same holds for the lines
    of [wrapWithPrefix] once the prefix or the indent is taken off, whatever
    the width. *)
Theorem wrapping_keeps_the_text (value prefix : jsString) (maxChars : nat) :
  (1 <= maxChars)%nat ->
  (exists ls, wrapLongLine value maxChars = Some ls
              /\ inkOf ls = inkOf [sanitizeTextValue value])
  /\ (exists ls, wrapWithPrefix value prefix maxChars = Some ls
                 /\ inkOf (map (skipn (length prefix)) ls)
                    = inkOf [sanitizeTextValue value]).
Proof.
  intros M. split.
  - unfold wrapLongLine. destruct (isEmpty (sanitizeTextValue value)) eqn:E.
    + apply isEmpty_true in E. rewrite E. now exists [[]].
    + destruct (segmentSanitizedText_total (sanitizeTextValue value) maxChars M)
        as [ls L]. exists ls. split; [exact L|].
      now apply segmentSanitizedText_ink in L.
  - unfold wrapWithPrefix. destruct (isEmpty (sanitizeTextValue value)) eqn:E.
    + apply isEmpty_true in E. rewrite E. exists [trimEnd prefix].
      split; [reflexivity|]. cbn [map].
      rewrite skipn_all2 by apply length_trimEnd. reflexivity.
    + destruct (segmentSanitizedText_total (sanitizeTextValue value)
                  (Nat.max 1 (maxChars - length prefix))) as [segs S]; [lia|].
      rewrite S. cbn [mbind option_bind]. eexists. split; [reflexivity|].
      apply segmentSanitizedText_ink in S. rewrite <- S.
      destruct segs as [|first others]; [reflexivity|]. cbn [map].
      rewrite skipn_app_length. f_equal. f_equal.
      rewrite map_map. rewrite <- (map_id others) at 2.
      apply map_ext. intros l.
      rewrite <- (repeat_length 32 (length prefix)) at 1.
      apply skipn_app_length.
Qed.

Lemma wrapping_keeps_the_text_witness :
  (1 <= 3)%nat
  /\ exists ls, wrapLongLine (lit "a  bcdef g") 3 = Some ls
                /\ inkOf ls = inkOf [sanitizeTextValue (lit "a  bcdef g")].
Proof.
  assert (1 <= 3)%nat as M by lia. split; [exact M|].
  exact (proj1 (wrapping_keeps_the_text (lit "a  bcdef g") (lit "Q: ") 3 M)).
Defined.


(** *** Words that fit *)

Lemma join_split (sep : N) (s : jsString) : join [sep] (split sep s) = s.
Proof.
  induction s as [|c r IH]; [reflexivity|]. cbn [split].
  destruct (c =? sep) eqn:E.
  - apply N.eqb_eq in E. subst c. cbn [join].
    destruct (split sep r) as [|p ps] eqn:S.
    + destruct r; cbn [split] in S; [discriminate|].
      destruct (n =? sep); [discriminate|]. now destruct (split sep r).
    + cbn [app]. now rewrite IH.
  - destruct (split sep r) as [|p ps] eqn:S.
    + destruct r; cbn [split] in S; [discriminate|].
      destruct (n =? sep); [discriminate|]. now destruct (split sep r).
    + cbn [join] in *. destruct ps; cbn [app]; now rewrite <- IH.
Qed.

Lemma join_snoc (sep : jsString) (ls : list jsString) (w : jsString) :
  ls <> [] -> join sep (ls ++ [w]) = join sep ls ++ sep ++ w.
Proof.
  induction ls as [|a [|b r] IH]; intros NE; [congruence|reflexivity|].
  change ((a :: b :: r) ++ [w]) with (a :: (b :: r) ++ [w]).
  cbn [join app] in *. rewrite IH by discriminate.
  now rewrite <- !app_assoc.
Qed.

Lemma join_last_app (sep : jsString) (ls : list jsString) (a b : jsString) :
  join sep (ls ++ [a ++ b]) = join sep (ls ++ [a]) ++ b.
Proof.
  destruct ls as [|x r]; [reflexivity|].
  rewrite !join_snoc by discriminate. now rewrite <- !app_assoc.
Qed.

(** The words of a sanitized text are not empty. *)
Lemma split_no_gap (s : jsString) :
  noDoubleSpace s = true -> trimEnd s = s ->
  Forall (fun w => w <> []) (tl (split 32 s))
  /\ (match s with
      | c :: _ => (c =? 32) = false
      | [] => False
      end -> Forall (fun w => w <> []) (split 32 s)).
Proof.
  induction s as [|c r IH]; intros D T; [split; [constructor|tauto]|].
  pose proof (noDoubleSpace_tail c r D) as D'.
  assert (r <> [] -> trimEnd r = r) as T'.
  { intros NE. cbn [trimEnd] in T. destruct (trimEnd r) as [|d r'] eqn:E.
    - destruct (isWhiteSpace c); [discriminate|]. injection T as <-.
      congruence.
    - now injection T. }
  cbn [split]. destruct (c =? 32) eqn:C.
  - split; [|discriminate]. cbn [tl]. destruct r as [|d r'].
    + exfalso. apply N.eqb_eq in C. subst c. discriminate T.
    + apply IH; [exact D'|apply T'; discriminate|].
      cbn [noDoubleSpace] in D. rewrite C in D.
      destruct (d =? 32); [discriminate D|reflexivity].
  - destruct r as [|d r']; [split; repeat constructor; discriminate|].
    destruct (IH D' (T' ltac:(discriminate))) as [Tail _].
    destruct (split 32 (d :: r')) as [|p ps]; cbn [tl] in *;
      (split; [|intros _; constructor; [discriminate|]]); try assumption;
      constructor.
Qed.

Lemma sanitized_words (s : jsString) :
  isSanitized s -> s <> [] -> Forall (fun w => w <> []) (split 32 s).
Proof.
  intros (P & T & D) NE.
  assert (trimEnd s = s) as TE by (rewrite <- T at 1; rewrite trimEnd_trim; exact T).
  apply (split_no_gap s D TE).
  destruct s as [|c r]; [congruence|].
  rewrite <- (isPrintable_space c) by now inversion P.
  pose proof (trimStart_head_nonws (trimEnd (c :: r))) as H.
  fold (trim (c :: r)) in H. now rewrite T in H.
Qed.

Lemma join_cons_tail (w : jsString) (rest : list jsString) :
  join [32] (w :: rest) = w ++ flat_map (cons 32) rest.
Proof.
  revert w. induction rest as [|x r IH]; intros w.
  - cbn [join flat_map]. now rewrite app_nil_r.
  - change (join [32] (w :: x :: r)) with (w ++ [32] ++ join [32] (x :: r)).
    now rewrite IH.
Qed.

(** A word that fits goes on the current line or opens the next one. *)
Lemma placeWord_fits (maxChars : nat) (st : WrapState) (w : jsString) :
  w <> [] -> (length w <= maxChars)%nat -> current st <> [] ->
  exists st',
    placeWord maxChars st w = Some st'
    /\ current st' <> []
    /\ join [32] (lines st' ++ [current st'])
       = join [32] (lines st ++ [current st]) ++ 32 :: w
    /\ (lines st = [] ->
        (length (current st) + 1 + length w <= maxChars)%nat ->
        lines st' = []).
Proof.
  intros W L C. unfold placeWord.
  apply isEmpty_false in W. rewrite W.
  assert ((length (current st) =? 0)%nat = false) as ->.
  { apply Nat.eqb_neq. destruct (current st); [congruence|cbn; lia]. }
  destruct (length (current st) + 1 + length w <=? maxChars)%nat eqn:T.
  - eexists. split; [reflexivity|]. cbn [lines current].
    split; [destruct (current st); [congruence|discriminate]|].
    split; [apply join_last_app|tauto].
  - apply Nat.leb_le in L. rewrite L. eexists. split; [reflexivity|].
    cbn [lines current]. apply isEmpty_false in W.
    split; [exact W|]. split.
    + apply join_snoc. destruct (lines st); discriminate.
    + apply Nat.leb_gt in T. intros _ ?. lia.
Qed.

Lemma placeWord_first (maxChars : nat) (w : jsString) :
  w <> [] -> (length w <= maxChars)%nat ->
  placeWord maxChars (mkWrap [] []) w = Some (mkWrap [] w).
Proof.
  intros W L. unfold placeWord. cbn [lines current length Nat.eqb].
  apply isEmpty_false in W. rewrite W. apply Nat.leb_le in L. now rewrite L.
Qed.

Lemma foldM_words_fit (maxChars : nat) (words : list jsString) :
  Forall (fun w => w <> [] /\ (length w <= maxChars)%nat) words ->
  forall st,
    current st <> [] ->
    exists st',
      foldM (placeWord maxChars) words st = Some st'
      /\ current st' <> []
      /\ join [32] (lines st' ++ [current st'])
         = join [32] (lines st ++ [current st]) ++ flat_map (cons 32) words
      /\ (lines st = [] ->
          (length (current st ++ flat_map (cons 32%N) words) <= maxChars)%nat ->
          lines st' = []).
Proof.
  induction 1 as [|w r [Hw Lw] Hr IH]; intros st C.
  - exists st. cbn [foldM flat_map]. rewrite !app_nil_r. tauto.
  - destruct (placeWord_fits maxChars st w Hw Lw C) as (next & P & C' & J & K).
    destruct (IH next C') as (st' & F & C'' & J' & K').
    exists st'. cbn [foldM]. rewrite P. cbn [mbind option_bind].
    split; [exact F|]. split; [exact C''|]. split.
    + rewrite J', J. cbn [flat_map]. now rewrite <- !app_assoc.
    + intros E Len. cbn [flat_map] in Len. rewrite !length_app in Len.
      cbn [length] in Len. rewrite ?length_app in Len.
      assert (lines next = []) as E' by (apply K; [exact E|lia]).
      apply K'; [exact E'|].
      assert (join [32] (lines next ++ [current next])
              = current st ++ 32 :: w) as Cur.
      { rewrite J, E. reflexivity. }
      rewrite E' in Cur. cbn [app join] in Cur. rewrite Cur.
      rewrite !length_app. cbn [length]. lia.
Qed.

Lemma segmentSanitizedText_words_fit (s : jsString) (maxChars : nat) :
  isSanitized s -> s <> [] ->
  Forall (fun w => (length w <= maxChars)%nat) (split 32 s) ->
  exists ls,
    segmentSanitizedText s maxChars = Some ls
    /\ join [32] ls = s
    /\ ((length s <= maxChars)%nat -> ls = [s]).
Proof.
  intros S NE Fit. unfold segmentSanitizedText.
  apply isEmpty_false in NE. rewrite NE. apply isEmpty_false in NE.
  pose proof (sanitized_words s S NE) as Words.
  pose proof (join_split 32 s) as JS.
  destruct (split 32 s) as [|w r]; [cbn [join] in JS; congruence|].
  apply Forall_cons in Words as [Hw Hr]. apply Forall_cons in Fit as [Lw Lr].
  cbn [foldM]. rewrite (placeWord_first maxChars w Hw Lw).
  cbn [mbind option_bind].
  destruct (foldM_words_fit maxChars r) with (st := mkWrap [] w)
    as (st & F & C & J & K).
  { apply Forall_forall. intros x Hx.
    rewrite Forall_forall in Hr. rewrite Forall_forall in Lr. auto. }
  { exact Hw. }
  cbn [lines current app join] in J, K.
  rewrite F. cbn [mbind option_bind].
  apply isEmpty_false in C. rewrite C. apply isEmpty_false in C.
  eexists. split; [reflexivity|].
  rewrite join_cons_tail in JS. rewrite JS in J, K.
  split; [exact J|]. intros Len. rewrite (K eq_refl Len) in *.
  cbn [app join] in J. now rewrite J.
Qed.

(** X12: when no word of the sanitized text is longer than the width, the
    lines of [wrapLongLine] joined by single spaces are the sanitized text:
    the breaks fall between words only; and a text that fits the width as a
    whole stays on one line. *)
Theorem wrapped_lines_join_back (value : jsString) (maxChars : nat) :
  Forall (fun w => (length w <= maxChars)%nat)
    (split 32 (sanitizeTextValue value)) ->
  exists ls,
    wrapLongLine value maxChars = Some ls
    /\ join [32] ls = sanitizeTextValue value
    /\ ((length (sanitizeTextValue value) <= maxChars)%nat ->
        ls = [sanitizeTextValue value]).
Proof.
  intros Fit. unfold wrapLongLine.
  destruct (isEmpty (sanitizeTextValue value)) eqn:E.
  - apply isEmpty_true in E. rewrite E. exists [[]]. now repeat split.
  - apply isEmpty_false in E.
    apply segmentSanitizedText_words_fit;
      [apply sanitizeTextValue_isSanitized|exact E|exact Fit].
Qed.

Lemma wrapped_lines_join_back_witness :
  Forall (fun w => (length w <= 5)%nat)
    (split 32 (sanitizeTextValue (lit " to be   or not to be ")))
  /\ exists ls,
       wrapLongLine (lit " to be   or not to be ") 5 = Some ls
       /\ join [32] ls = sanitizeTextValue (lit " to be   or not to be ").
Proof.
  assert (Forall (fun w => (length w <= 5)%nat)
            (split 32 (sanitizeTextValue (lit " to be   or not to be "))))
    as Fit by (vm_compute; repeat constructor).
  split; [exact Fit|].
  destruct (wrapped_lines_join_back (lit " to be   or not to be ") 5 Fit)
    as (ls & W & J & _).
  exists ls. now split.
Defined.


(** *** Escaping *)

Lemma escapePdfText_flat_map (value : jsString) :
  escapePdfText value = flat_map escapeCode value.
Proof.
  rewrite escapePdfText_scan. unfold scanCode.
  induction value as [|c r IH]; [reflexivity|].
  cbn [flat_map]. rewrite !flat_map_app, IH. f_equal.
  unfold escapeCode.
  destruct (c =? 92) eqn:B; [reflexivity|].
  cbn [flat_map app]. destruct (c =? 40) eqn:O; [reflexivity|].
  cbn [flat_map app]. destruct (c =? 41) eqn:C; reflexivity.
Qed.

(** X13: the text of a line can be read back from what [escapePdfText]
    writes between the parentheses of the string: every backslash and
    parenthesis of the text comes out behind a backslash of its own, and
    nothing else is changed. *)
Theorem escaped_text_reads_back (value : jsString) :
  readPdfText (escapePdfText value) = Some value.
Proof.
  rewrite escapePdfText_flat_map.
  induction value as [|c r IH]; [reflexivity|].
  cbn [flat_map]. unfold escapeCode at 1.
  destruct (c =? 92) eqn:B.
  { apply N.eqb_eq in B. subst c. cbn [app readPdfText].
    change (92 =? 92) with true. cbn [orb]. now rewrite IH. }
  destruct (c =? 40) eqn:O.
  { apply N.eqb_eq in O. subst c. cbn [app readPdfText].
    change (92 =? 92) with true. change (40 =? 92) with false.
    change (40 =? 40) with true. cbn [orb]. now rewrite IH. }
  destruct (c =? 41) eqn:C.
  { apply N.eqb_eq in C. subst c. cbn [app readPdfText].
    change (92 =? 92) with true. change (41 =? 92) with false.
    change (41 =? 40) with false. change (41 =? 41) with true.
    cbn [orb]. now rewrite IH. }
  cbn [app readPdfText]. rewrite B, O, C. cbn [orb]. now rewrite IH.
Qed.

End TextProps.

Module DocumentProps.

Import Flashcards Pdf Scan Spec Properties JsFacts WrapFacts PageFacts
  AsciiFacts PdfFacts.

Local Abbreviation fits m ls :=
  (Forall (fun l : jsString => (length l <= m)%nat) ls).






End DocumentProps.

Module LibraryProps.

Import Regex Strings Flashcards Pdf Scan Spec Library Properties JsFacts
  RegexFacts PdfFacts TokenizerFacts.

(** *** The label of a count *)


(** *** The order of the sets *)

Section Order.

Variable timeOf : jsString -> option Z.

Local Abbreviation insertSet := (Library.insertSet timeOf).
Local Abbreviation comesAfter := (Library.comesAfter timeOf).
Local Abbreviation hasTime := (Library.hasTime timeOf).
Local Abbreviation newestFirst := (Properties.newestFirst timeOf).
Local Abbreviation importedAtTime := (Properties.importedAtTime timeOf).

Lemma insertSet_perm (a : FlashcardSet) (l : list FlashcardSet) :
  insertSet a l ≡ₚ a :: l.
Proof.
  induction l as [|b r IH]; [reflexivity|]. cbn [Library.insertSet].
  destruct (comesAfter a b); [|reflexivity].
  rewrite IH. apply Permutation_swap.
Qed.

Lemma sort_perm (l : list FlashcardSet) : fold_right insertSet [] l ≡ₚ l.
Proof.
  induction l as [|a r IH]; [reflexivity|]. cbn [fold_right].
  now rewrite insertSet_perm, IH.
Qed.

Lemma hasTime_time (a : FlashcardSet) :
  hasTime a = true -> exists t, timeOf (importedAt a) = Some t.
Proof. unfold Library.hasTime. destruct (timeOf (importedAt a)); eauto; discriminate. Qed.

Lemma insertSet_head (a : FlashcardSet) (l : list FlashcardSet) :
  exists x rest,
    insertSet a l = x :: rest /\ (x = a \/ exists l', l = x :: l').
Proof.
  destruct l as [|b r]; cbn [Library.insertSet]; [eauto|].
  destruct (comesAfter a b); eauto 6.
Qed.

Lemma insertSet_sorted (a : FlashcardSet) (l : list FlashcardSet) :
  hasTime a = true -> forallb hasTime l = true ->
  newestFirst l -> newestFirst (insertSet a l).
Proof.
  intros Ha. induction l as [|b r IH]; intros Hl S; [exact I|].
  cbn [forallb] in Hl. apply andb_true_iff in Hl as [Hb Hr].
  destruct (hasTime_time a Ha) as [ta Ta].
  destruct (hasTime_time b Hb) as [tb Tb].
  assert (newestFirst r) as Sr by (destruct r; [exact I|apply S]).
  specialize (IH Hr Sr).
  cbn [Library.insertSet]. unfold Library.comesAfter at 1. rewrite Ta, Tb.
  destruct (ta <? tb)%Z eqn:E.
  - apply Z.ltb_lt in E.
    destruct (insertSet_head a r) as (x & rest & I' & Hx).
    rewrite I' in *. split; [|exact IH].
    destruct Hx as [->|[l' ->]].
    + exists tb, ta. repeat split; try assumption. lia.
    + destruct S as [(tb' & tx & Tb' & Tx & Le) _]. exists tb', tx. auto.
  - apply Z.ltb_ge in E. split; [|exact S]. exists ta, tb. auto.
Qed.

Lemma sort_sorted (l : list FlashcardSet) :
  forallb hasTime l = true -> newestFirst (fold_right insertSet [] l).
Proof.
  induction l as [|a r IH]; intros H; [exact I|].
  cbn [forallb] in H. apply andb_true_iff in H as [Ha Hr].
  cbn [fold_right]. apply insertSet_sorted; [exact Ha| |now apply IH].
  clear IH Ha. induction r as [|b r IH]; [reflexivity|].
  cbn [forallb] in Hr. apply andb_true_iff in Hr as [Hb Hr].
  cbn [fold_right].
  assert (forall x l, hasTime x = true -> forallb hasTime l = true ->
                      forallb hasTime (insertSet x l) = true) as G.
  { clear. intros x l Hx. induction l as [|y l IH]; intros Hl;
      cbn [Library.insertSet forallb]; [now rewrite Hx|].
    cbn [forallb] in Hl. apply andb_true_iff in Hl as [Hy Hl].
    destruct (Library.comesAfter timeOf x y); cbn [forallb];
      rewrite ?Hx, ?Hy, ?Hl, ?IH; auto. }
  apply G; [exact Hb|now apply IH].
Qed.

Lemma insertSet_stable (t : Z) (a : FlashcardSet) (l : list FlashcardSet) :
  importedAtTime t (insertSet a l) = importedAtTime t (a :: l).
Proof.
  unfold Properties.importedAtTime.
  induction l as [|b r IH]; [reflexivity|]. cbn [Library.insertSet].
  unfold Library.comesAfter at 1.
  destruct (timeOf (importedAt a)) as [ta|] eqn:Ta; [|reflexivity].
  destruct (timeOf (importedAt b)) as [tb|] eqn:Tb; [|reflexivity].
  destruct (ta <? tb)%Z eqn:E; [|reflexivity].
  apply Z.ltb_lt in E. cbn [List.filter]. rewrite IH. cbn [List.filter].
  rewrite Ta, Tb.
  destruct (tb =? t)%Z eqn:B, (ta =? t)%Z eqn:A; try reflexivity.
  apply Z.eqb_eq in A, B. lia.
Qed.

Lemma sort_stable (t : Z) (l : list FlashcardSet) :
  importedAtTime t (fold_right insertSet [] l) = importedAtTime t l.
Proof.
  induction l as [|a r IH]; [reflexivity|]. cbn [fold_right].
  rewrite insertSet_stable. unfold Properties.importedAtTime in *.
  cbn [List.filter]. now rewrite IH.
Qed.

Lemma sort_fixed (l : list FlashcardSet) :
  newestFirst l -> fold_right insertSet [] l = l.
Proof.
  induction l as [|a r IH]; intros S; [reflexivity|]. cbn [fold_right].
  destruct r as [|b r']; [reflexivity|].
  destruct S as [(ta & tb & Ta & Tb & Le) S]. rewrite (IH S).
  cbn [Library.insertSet]. unfold Library.comesAfter. rewrite Ta, Tb.
  now replace (ta <? tb)%Z with false by (symmetry; apply Z.ltb_ge; lia).
Qed.

(** X16: when every import date is a valid date, [orderSets] returns the
    same sets from the newest to the oldest, the sets of one time in the
    order they had; a list that is in that order already is returned as it
    is, so that to order twice is to order once. *)
Theorem orderSets_newest_first (sets : list FlashcardSet) :
  forallb hasTime sets = true ->
  exists sorted,
    Library.orderSets timeOf sets = Some sorted
    /\ sorted ≡ₚ sets
    /\ newestFirst sorted
    /\ (forall t, importedAtTime t sorted = importedAtTime t sets)
    /\ (newestFirst sets -> sorted = sets)
    /\ Library.orderSets timeOf sorted = Some sorted.
Proof.
  intros V. exists (fold_right insertSet [] sets).
  unfold Library.orderSets. rewrite V, orb_true_r.
  pose proof (sort_sorted sets V) as S.
  split; [reflexivity|]. split; [apply sort_perm|]. split; [exact S|].
  split; [intros t; apply sort_stable|]. split; [apply sort_fixed|].
  rewrite (sort_fixed _ S).
  destruct (_ || _) eqn:E; [reflexivity|].
  apply orb_false_iff in E as [_ E].
  assert (forallb hasTime (fold_right insertSet [] sets) = true) as V'.
  { apply forallb_forall. intros x Hx.
    apply (Permutation_in x (sort_perm sets)) in Hx.
    rewrite forallb_forall in V. now apply V. }
  congruence.
Qed.

End Order.


Lemma orderSets_newest_first_witness :
  let timeOf := fun s : jsString => Some (Z.of_nat (length s)) in
  let old := mkSet (lit "a") (lit "A") (lit "1") [] in
  let new := mkSet (lit "b") (lit "B") (lit "22") [] in
  forallb (Library.hasTime timeOf) [old; new] = true
  /\ Library.orderSets timeOf [old; new] = Some [new; old].
Proof.
  intros timeOf old new.
  assert (forallb (Library.hasTime timeOf) [old; new] = true) as V
    by reflexivity.
  split; [exact V|].
  destruct (orderSets_newest_first timeOf [old; new] V) as (sorted & O & _).
  rewrite O. vm_compute in O. symmetry. exact O.
Defined.

(** *** The monogram *)

Lemma matchHere_run (class : N -> bool) (before : option N) (s : jsString) :
  matchHere false (Then (Unit class) (Many class)) before s
  = match s with
    | c :: r =>
        if class c
        then Some (S (length (fst (span class r))), None)
        else None
    | [] => None
    end.
Proof.
  unfold matchHere, final. cbn [run].
  destruct s as [|c r]; [reflexivity|].
  destruct (class c); [|reflexivity].
  erewrite many_greedy; [|reflexivity].
  pose proof (span_fst_length class r) as L.
  do 2 f_equal. cbn [length]. lia.
Qed.

Local Abbreviation splitWords := (splitFrom false whitespacePattern).

Lemma splitWords_before (s : jsString) (b1 b2 : option N) (skip : nat)
  (piece : jsString) :
  splitWords b1 skip piece s = splitWords b2 skip piece s.
Proof.
  destruct s as [|c r]; [reflexivity|]. cbn [splitFrom].
  destruct skip; [|reflexivity].
  unfold whitespacePattern, space. now rewrite !matchHere_run.
Qed.

Lemma splitWords_word (w : jsString) :
  Forall (fun c => isWhiteSpace c = false) w ->
  forall piece s,
    splitWords None 0 piece (w ++ s) = splitWords None 0 (piece ++ w) s.
Proof.
  induction 1 as [|c r Hc Hr IH]; intros piece s.
  - now rewrite app_nil_r.
  - cbn [app splitFrom]. unfold whitespacePattern, space at 1.
    rewrite matchHere_run, Hc.
    rewrite (splitWords_before _ (Some c) None), IH.
    now rewrite <- app_assoc.
Qed.

Lemma splitWords_skip (run : jsString) :
  forall before s,
    splitWords before (length run) [] (run ++ s) = splitWords None 0 [] s.
Proof.
  induction run as [|c r IH]; intros before s.
  - apply splitWords_before.
  - cbn [app length splitFrom]. apply IH.
Qed.

Lemma splitWords_space (c : N) (r piece : jsString) :
  isWhiteSpace c = true ->
  splitWords None 0 piece (c :: r)
  = piece :: splitWords None 0 [] (trimStart r).
Proof.
  intros W. cbn [splitFrom]. unfold whitespacePattern, space at 1.
  rewrite matchHere_run, W. f_equal.
  rewrite <- (span_app isWhiteSpace r) at 2.
  rewrite splitWords_skip. now rewrite span_snd_trimStart.
Qed.

Lemma span_notSpace (s : jsString) :
  Forall (fun c => isWhiteSpace c = false) (fst (span notSpace s))
  /\ match snd (span notSpace s) with
     | c :: _ => isWhiteSpace c = true
     | [] => True
     end.
Proof.
  induction s as [|c r IH]; [split; [constructor|exact I]|].
  cbn [span]. unfold notSpace at 1 3.
  destruct (isWhiteSpace c) eqn:W; cbn [negb fst snd]; [now split|].
  destruct (span notSpace r) as [w rest]. cbn [fst snd] in *.
  destruct IH as [F H]. split; [now constructor|exact H].
Qed.

(** The tokens of a text that is trimmed and not empty: its first word, and
    the tokens of what follows the whitespace after it. *)
Lemma splitWords_first (t : jsString) :
  splitWords None 0 [] t
  = match snd (span notSpace t) with
    | [] => [fst (span notSpace t)]
    | _ :: r => fst (span notSpace t) :: splitWords None 0 [] (trimStart r)
    end.
Proof.
  destruct (span_notSpace t) as [F H].
  rewrite <- (span_app notSpace t) at 1.
  rewrite (splitWords_word _ F). cbn [app].
  destruct (snd (span notSpace t)) as [|c r]; [reflexivity|].
  now apply splitWords_space.
Qed.

Lemma trimmed_no_blank_tail (x w : jsString) :
  trimEnd (x ++ w) = x ++ w ->
  Forall (fun c => isWhiteSpace c = true) w -> w = [].
Proof.
  intros T B. rewrite (trimEnd_app_blank x w B) in T.
  apply (f_equal (@length N)) in T. rewrite length_app in T.
  pose proof (WrapFacts.length_trimEnd x). destruct w; [reflexivity|].
  cbn [length] in T. lia.
Qed.

Lemma trimStart_blank (s : jsString) :
  trimStart s = [] -> Forall (fun c => isWhiteSpace c = true) s.
Proof.
  induction s as [|c r IH]; [constructor|]. cbn [trimStart].
  destruct (isWhiteSpace c) eqn:W; [|discriminate].
  intros E. constructor; [exact W|now apply IH].
Qed.

Section Monogram.

Variable toUpperCase : jsString -> jsString.

(** X17: [getSetMonogram] never throws, and gives [PDF] for a blank name,
    the first two code units of the only word of the name, or the first
    code units of its first two words, in upper case; the whitespace around
    the name and the words after the second do not count. *)
Theorem monogram_of_a_name (name : jsString) :
  let trimmed := trim name in
  let word := fst (span notSpace trimmed) in
  let others := trimStart (snd (span notSpace trimmed)) in
  getSetMonogram toUpperCase name
  = Some (if isEmpty trimmed then lit "PDF"
          else if isEmpty others then toUpperCase (firstn 2 word)
          else toUpperCase (firstn 1 word ++ firstn 1 others)).
Proof.
  intros trimmed word others. unfold getSetMonogram. fold trimmed.
  assert (trimEnd trimmed = trimmed) as TE by apply trimEnd_trim.
  pose proof (trimStart_head_nonws (trimEnd name)) as Head.
  fold (trim name) in Head. fold trimmed in Head.
  subst word others. clearbody trimmed.
  destruct (isEmpty trimmed) eqn:E; [reflexivity|].
  apply isEmpty_false in E.
  assert (splitBy false whitespacePattern trimmed
          = splitWords None 0 [] trimmed) as ->
    by (destruct trimmed; [congruence|reflexivity]).
  rewrite splitWords_first.
  assert (fst (span notSpace trimmed) <> []) as W.
  { destruct trimmed as [|c0 t0]; [congruence|]. cbn [span].
    unfold notSpace at 1. rewrite Head. cbn [negb].
    now destruct (span notSpace t0). }
  pose proof (span_notSpace trimmed) as [_ Sp].
  pose proof (span_app notSpace trimmed) as A.
  destruct (snd (span notSpace trimmed)) as [|c r]; [reflexivity|].
  cbn [trimStart]. rewrite Sp.
  destruct (trimStart r) as [|d r'] eqn:R'.
  - exfalso. apply trimStart_blank in R'. rewrite <- A in TE.
    pose proof (trimmed_no_blank_tail _ (c :: r) TE
                  ltac:(now constructor)). discriminate.
  - cbn [isEmpty]. rewrite splitWords_first.
    pose proof (trimStart_head_nonws r) as Hd. rewrite R' in Hd.
    assert (exists w2, fst (span notSpace (d :: r')) = d :: w2) as [w2 W2].
    { cbn [span]. unfold notSpace at 1. rewrite Hd. cbn [negb].
      destruct (span notSpace r'). eauto. }
    rewrite W2. destruct (fst (span notSpace trimmed)) as [|a word'];
      [congruence|].
    destruct (snd (span notSpace (d :: r'))); reflexivity.
Qed.

End Monogram.

End LibraryProps.

Module FileNameProps.

Import Regex Strings Flashcards Pdf Scan Spec Panel Properties JsFacts
  RegexFacts TokenizerFacts TextProps LibraryProps.

(** *** The three replacements as scans *)

Lemma scanRuns_regex (class : N -> bool) (replacement s : jsString) :
  forall before,
    replaceFrom false (Then (Unit class) (Many class)) replacement before 0 s
    = scanRuns class replacement false s
    /\ replaceFrom false (Then (Unit class) (Many class)) replacement before
         (length (fst (span class s))) s
       = scanRuns class replacement true s.
Proof.
  induction s as [|c r IH]; intros before; [split; reflexivity|].
  destruct (IH (Some c)) as [A B].
  assert (replaceFrom false (Then (Unit class) (Many class)) replacement
            before 0 (c :: r)
          = scanRuns class replacement false (c :: r)) as Here.
  { cbn [replaceFrom scanRuns]. rewrite matchHere_run.
    destruct (class c); [|now rewrite A]. now rewrite B. }
  split; [exact Here|].
  cbn [span scanRuns] in *. destruct (class c).
  - destruct (span class r) as [w rest].
    cbn [fst length replaceFrom] in *. exact B.
  - exact Here.
Qed.

Lemma matchHere_edge (before : option N) (s : jsString) :
  matchHere false edgeHyphenPattern before s
  = match s with
    | c :: r =>
        if c =? 45 then
          match before, r with
          | None, _ => Some (1%nat, None)
          | Some _, [] => Some (1%nat, None)
          | Some _, _ :: _ => None
          end
        else None
    | [] => None
    end.
Proof.
  unfold matchHere, final, edgeHyphenPattern, code. cbn [run].
  destruct s as [|c r]; [now destruct before|].
  rewrite (N.eqb_sym c 45).
  destruct before as [b|]; cbn [atStart andb]; destruct (45 =? c);
    try reflexivity.
  - destruct r; [|reflexivity]. cbn [length]. reflexivity.
  - do 2 f_equal. cbn [length]. lia.
Qed.

Lemma dropLastHyphen_regex (s : jsString) :
  forall b,
    replaceFrom false edgeHyphenPattern [] (Some b) 0 s = dropLastHyphen s.
Proof.
  induction s as [|c r IH]; intros b; [reflexivity|].
  cbn [replaceFrom dropLastHyphen]. rewrite matchHere_edge.
  destruct (c =? 45); destruct r as [|d r']; try reflexivity;
    cbn [app]; rewrite IH; reflexivity.
Qed.

Lemma dropEdgeHyphens_regex (s : jsString) :
  Regex.replaceAll false edgeHyphenPattern [] s = dropEdgeHyphens s.
Proof.
  unfold Regex.replaceAll, dropEdgeHyphens.
  destruct s as [|c r]; [reflexivity|].
  cbn [replaceFrom]. rewrite matchHere_edge.
  destruct (c =? 45) eqn:E; cbn [app].
  - apply dropLastHyphen_regex.
  - rewrite dropLastHyphen_regex. destruct r; [|reflexivity].
    cbn [dropLastHyphen]. now rewrite E.
Qed.

Lemma toSafeFileName_scan (value : jsString) :
  toSafeFileName value
  = let sanitized :=
      dropEdgeHyphens
        (scanRuns (N.eqb 45) [45] false
           (scanRuns notFileNameUnit [45] false (sanitizeTextValue value))) in
    if isEmpty sanitized then lit "flashcards" else sanitized.
Proof.
  unfold toSafeFileName, hyphensPattern, unsafePattern, code.
  rewrite dropEdgeHyphens_regex. unfold Regex.replaceAll.
  now rewrite !(proj1 (scanRuns_regex _ _ _ None)).
Qed.


(** *** What the replacements leave *)

Local Abbreviation safe s := (Forall (fun c => isFileNameUnit c = true) s).

Lemma scanRuns_unsafe (s : jsString) :
  forall inRun, safe (scanRuns notFileNameUnit [45] inRun s).
Proof.
  induction s as [|c r IH]; intros inRun; [constructor|].
  cbn [scanRuns]. unfold notFileNameUnit at 1.
  destruct (isFileNameUnit c) eqn:E; cbn [negb].
  - constructor; [exact E|apply IH].
  - destruct inRun; [apply IH|]. constructor; [reflexivity|apply IH].
Qed.

Lemma scanRuns_hyphens (s : jsString) :
  safe s ->
  forall inRun,
    let t := scanRuns (N.eqb 45) [45] inRun s in
    safe t /\ noTwo 45 t = true
    /\ (inRun = true -> hd 0 t <> 45).
Proof.
  induction 1 as [|c r Hc Hr IH]; intros inRun; cbn zeta.
  - repeat split; [constructor|]. intros _. discriminate.
  - cbn [scanRuns]. destruct (45 =? c) eqn:E.
    + destruct (IH true) as (S & D & H). specialize (H eq_refl).
      destruct inRun; [split; [exact S|split; [exact D|intros _; exact H]]|].
      cbn [app]. split; [constructor; [reflexivity|exact S]|].
      split; [|discriminate]. cbn [noTwo].
      destruct (scanRuns (N.eqb 45) [45] true r) as [|d t]; [reflexivity|].
      cbn [hd] in H. apply N.eqb_neq in H. rewrite H.
      now rewrite andb_false_r.
    + destruct (IH false) as (S & D & _).
      assert ((c =? 45) = false) as E' by now rewrite N.eqb_sym.
      split; [now constructor|]. split.
      * cbn [noTwo].
        destruct (scanRuns (N.eqb 45) [45] false r) as [|d t]; [reflexivity|].
        now rewrite E'.
      * intros _. cbn [hd]. now apply N.eqb_neq.
Qed.

Lemma noTwo_tail (x c : N) (r : jsString) :
  noTwo x (c :: r) = true -> noTwo x r = true.
Proof.
  cbn [noTwo]. destruct r; [reflexivity|].
  intros H. now apply andb_true_iff in H.
Qed.

Lemma dropLastHyphen_safe (s : jsString) : safe s -> safe (dropLastHyphen s).
Proof.
  induction 1 as [|c r Hc Hr IH]; [constructor|]. cbn [dropLastHyphen].
  destruct r; [destruct (c =? 45); repeat constructor; exact Hc|].
  now constructor.
Qed.

Lemma dropLastHyphen_shape (s : jsString) :
  noTwo 45 s = true ->
  noTwo 45 (dropLastHyphen s) = true
  /\ (dropLastHyphen s <> [] ->
      hd 0 (dropLastHyphen s) = hd 0 s
      /\ List.last (dropLastHyphen s) 0 <> 45).
Proof.
  induction s as [|c r IH]; intros D;
    [split; [reflexivity|intros NE; now elim NE]|].
  pose proof (noTwo_tail 45 c r D) as D'. specialize (IH D').
  cbn [dropLastHyphen]. destruct r as [|d r'].
  - destruct (c =? 45) eqn:E; [split; [reflexivity|intros NE; now elim NE]|].
    split; [reflexivity|]. intros _. split; [reflexivity|].
    cbn [List.last]. now apply N.eqb_neq.
  - destruct IH as [N L]. split.
    + cbn [noTwo]. destruct (dropLastHyphen (d :: r')) as [|e t] eqn:X;
        [reflexivity|].
      rewrite N, andb_true_r.
      destruct (L ltac:(discriminate)) as [H _]. cbn [hd] in H. subst e.
      cbn [noTwo] in D. now apply andb_true_iff in D.
    + intros _. split; [reflexivity|].
      destruct (dropLastHyphen (d :: r')) as [|e t] eqn:X.
      * cbn [List.last]. cbn [dropLastHyphen] in X.
        destruct r'; [|discriminate].
        destruct (d =? 45) eqn:E; [|discriminate].
        cbn [noTwo] in D. rewrite E, !andb_true_r in D.
        apply negb_true_iff in D. now apply N.eqb_neq.
      * change (List.last (c :: e :: t) 0) with (List.last (e :: t) 0).
        now apply L.
Qed.

Lemma dropEdgeHyphens_shape (s : jsString) :
  safe s -> noTwo 45 s = true ->
  let t := dropEdgeHyphens s in
  safe t /\ noTwo 45 t = true
  /\ (t <> [] -> hd 0 t <> 45 /\ List.last t 0 <> 45).
Proof.
  intros S D. unfold dropEdgeHyphens. cbn zeta.
  match goal with
  | |- context [dropLastHyphen ?x] => remember x as s' eqn:Es'
  end.
  assert (safe s' /\ noTwo 45 s' = true /\ (s' <> [] -> hd 0 s' <> 45))
    as (S' & D' & H').
  { subst s'. destruct s as [|c r]; [repeat split; [constructor|congruence]|].
    destruct (c =? 45) eqn:E.
    - inversion S; subst. split; [assumption|].
      split; [now apply noTwo_tail in D|].
      destruct r as [|d r']; [congruence|]. intros _. cbn [hd].
      cbn [noTwo] in D. rewrite E in D.
      apply andb_true_iff in D as [D _]. apply negb_true_iff in D.
      now apply N.eqb_neq.
    - repeat split; try assumption. intros _. now apply N.eqb_neq. }
  clear Es'. destruct (dropLastHyphen_shape s' D') as [N L].
  split; [apply dropLastHyphen_safe; exact S'|]. split; [exact N|].
  intros NE. destruct (L NE) as [H La]. split; [|exact La].
  rewrite H. apply H'. intros E. rewrite E in NE. now apply NE.
Qed.

Lemma toSafeFileName_isSafeName (value : jsString) :
  isSafeName (toSafeFileName value).
Proof.
  rewrite toSafeFileName_scan. cbn zeta.
  destruct (scanRuns_hyphens _ (scanRuns_unsafe (sanitizeTextValue value) false)
              false) as (S & D & _).
  destruct (dropEdgeHyphens_shape _ S D) as (S' & D' & E').
  destruct (isEmpty _) eqn:E.
  - split; [discriminate|]. split; [now repeat constructor|].
    split; [reflexivity|]. split; discriminate.
  - apply isEmpty_false in E. destruct (E' E) as [H L].
    now repeat split.
Qed.

(** *** Safe names stay as they are *)

Lemma safe_not_space (c : N) : isFileNameUnit c = true -> isWhiteSpace c = false.
Proof.
  intros S. destruct (isWhiteSpace c) eqn:W; [|reflexivity].
  unfold isWhiteSpace in W. revert S W. unfold isFileNameUnit, isLineTerminator.
  repeat rewrite ?orb_true_iff, ?andb_true_iff, ?N.leb_le, ?N.eqb_eq.
  lia.
Qed.


Lemma safe_isPrintable (c : N) : isFileNameUnit c = true -> isPrintable c.
Proof.
  unfold isFileNameUnit, isPrintable.
  repeat rewrite ?orb_true_iff, ?andb_true_iff, ?N.leb_le, ?N.eqb_eq. lia.
Qed.

Lemma trimStart_safe (s : jsString) : safe s -> trimStart s = s.
Proof.
  intros [|c r Hc _]; [reflexivity|]. now apply trimStart_head, safe_not_space.
Qed.

Lemma trimEnd_safe (s : jsString) : safe s -> trimEnd s = s.
Proof.
  induction 1 as [|c r Hc Hr IH]; [reflexivity|].
  rewrite trimEnd_cons_nonws by now apply safe_not_space. now rewrite IH.
Qed.

Lemma noDoubleSpace_safe (s : jsString) : safe s -> noDoubleSpace s = true.
Proof.
  induction 1 as [|c r Hc Hr IH]; [reflexivity|]. cbn [noDoubleSpace].
  destruct r as [|d r']; [reflexivity|]. rewrite IH, andb_true_r.
  destruct (c =? 32) eqn:E; [|reflexivity].
  apply N.eqb_eq in E. subst c. discriminate Hc.
Qed.

Lemma isSanitized_safe (s : jsString) : safe s -> isSanitized s.
Proof.
  intros S. split; [|split].
  - eapply Forall_impl; [exact S|]. apply safe_isPrintable.
  - unfold trim. now rewrite trimEnd_safe, trimStart_safe.
  - now apply noDoubleSpace_safe.
Qed.

Lemma scanRuns_none (class : N -> bool) (replacement s : jsString) :
  Forall (fun c => class c = false) s ->
  scanRuns class replacement false s = s.
Proof.
  induction 1 as [|c r Hc Hr IH]; [reflexivity|].
  cbn [scanRuns]. now rewrite Hc, IH.
Qed.

Lemma scanRuns_single (s : jsString) :
  noTwo 45 s = true ->
  scanRuns (N.eqb 45) [45] false s = s
  /\ (hd 0 s <> 45 -> scanRuns (N.eqb 45) [45] true s = s).
Proof.
  induction s as [|c r IH]; intros D; [now split|].
  destruct (IH (noTwo_tail 45 c r D)) as [IH1 IH2].
  cbn [scanRuns]. destruct (45 =? c) eqn:E.
  - apply N.eqb_eq in E. subst c. split; [|intros H; now elim H].
    cbn [app]. f_equal. apply IH2.
    destruct r as [|d r']; [discriminate|]. cbn [hd].
    cbn [noTwo] in D. change (45 =? 45) with true in D.
    apply andb_true_iff in D as [D _]. apply negb_true_iff in D.
    now apply N.eqb_neq.
  - split; [|intros _]; now rewrite IH1.
Qed.

Lemma dropLastHyphen_fixed (s : jsString) :
  s <> [] -> List.last s 0 <> 45 -> dropLastHyphen s = s.
Proof.
  induction s as [|c r IH]; intros NE L; [congruence|].
  cbn [dropLastHyphen]. destruct r as [|d r'].
  - cbn [List.last] in L. apply N.eqb_neq in L. now rewrite L.
  - f_equal. apply IH; [discriminate|exact L].
Qed.

Lemma toSafeFileName_fixed (s : jsString) :
  isSafeName s -> toSafeFileName s = s.
Proof.
  intros (NE & S & D & H & L). rewrite toSafeFileName_scan. cbn zeta.
  rewrite (sanitizeTextValue_fixed s (isSanitized_safe s S)).
  rewrite (scanRuns_none notFileNameUnit [45] s).
  2:{ eapply Forall_impl; [exact S|]. intros c Hc. unfold notFileNameUnit.
      now rewrite Hc. }
  rewrite (proj1 (scanRuns_single s D)).
  assert (dropEdgeHyphens s = s) as ->.
  { unfold dropEdgeHyphens. destruct s as [|c r]; [congruence|].
    cbn [hd] in H. apply N.eqb_neq in H. rewrite H.
    now apply dropLastHyphen_fixed. }
  apply isEmpty_false in NE. now rewrite NE.
Qed.

(** X18: [toSafeFileName] returns a name that is not empty and made of
    letters, digits, underscores and single hyphens, with no hyphen at
    either end; these names are exactly those it returns as they are. *)
Theorem safe_file_names_are_the_fixed_points (value : jsString) :
  isSafeName (toSafeFileName value)
  /\ (toSafeFileName value = value <-> isSafeName value)
  /\ toSafeFileName (toSafeFileName value) = toSafeFileName value.
Proof.
  pose proof (toSafeFileName_isSafeName value) as S.
  split; [exact S|]. split; [split|].
  - intros E. now rewrite <- E.
  - apply toSafeFileName_fixed.
  - now apply toSafeFileName_fixed.
Qed.

(** *** The extension *)

Lemma matchHere_extension (before : option N) (s : jsString) :
  matchHere false extensionPattern before s
  = match s with
    | c :: d :: r =>
        if (46 =? c) && notSlashOrDot d && forallb notSlashOrDot r
        then Some (length s, None)
        else None
    | _ => None
    end.
Proof.
  unfold matchHere, final, extensionPattern, code. cbn [run].
  destruct s as [|c [|d r]]; [reflexivity|now destruct (46 =? c)|].
  destruct (46 =? c); [|reflexivity]. cbn [andb].
  destruct (notSlashOrDot d); [|reflexivity]. cbn [andb].
  rewrite many_commit by reflexivity.
  destruct (forallb notSlashOrDot r) eqn:R.
  - rewrite (span_all _ _ R). cbn [fst snd lastBefore length].
    now rewrite Nat.sub_0_r.
  - pose proof (span_stops _ _ R) as NE.
    destruct (snd (span notSlashOrDot r)); [congruence|reflexivity].
Qed.

Lemma replaceFirst_extension (base ext : jsString) :
  ext <> [] -> forallb notSlashOrDot ext = true ->
  forall before,
    replaceFirstFrom false extensionPattern [] before (base ++ 46 :: ext)
    = base.
Proof.
  intros NE E. induction base as [|c r IH]; intros before.
  - cbn [app]. destruct ext as [|d ext']; [congruence|].
    cbn [replaceFirstFrom]. rewrite matchHere_extension.
    cbn [forallb] in E. change (46 =? 46) with true. cbn [andb].
    rewrite E. cbn [app]. apply skipn_all.
  - cbn [app replaceFirstFrom]. rewrite matchHere_extension.
    destruct (r ++ 46 :: ext) as [|d t] eqn:T; [now destruct r|].
    replace ((46 =? c) && notSlashOrDot d && forallb notSlashOrDot t)
      with false.
    + f_equal. apply IH.
    + symmetry. apply andb_false_iff.
      destruct (forallb notSlashOrDot (d :: t)) eqn:F.
      * rewrite <- T in F. rewrite forallb_app in F.
        apply andb_true_iff in F as [_ F]. discriminate F.
      * cbn [forallb] in F. apply andb_false_iff in F as [F|F];
          [left; apply andb_false_iff; now right|now right].
Qed.

(** X19: the document of a set whose name ends in a file extension is
    offered under the safe name of what comes before the last dot, followed
    by [-flashcards.pdf]. *)
Theorem download_name_drops_the_extension (base ext : jsString) :
  base <> [] -> ext <> [] -> forallb notSlashOrDot ext = true ->
  downloadName (base ++ [46] ++ ext) = toSafeFileName base ++ downloadSuffix
  /\ isSafeName (toSafeFileName base).
Proof.
  intros B NE E. split; [|apply toSafeFileName_isSafeName].
  unfold downloadName, replaceFirst. cbn [app].
  rewrite (replaceFirst_extension base ext NE E).
  apply isEmpty_false in B. now rewrite B.
Qed.

Lemma download_name_drops_the_extension_witness :
  lit "my notes" <> [] /\ lit "pdf" <> []
  /\ forallb notSlashOrDot (lit "pdf") = true
  /\ downloadName (lit "my notes.pdf") = lit "my-notes-flashcards.pdf".
Proof.
  assert (lit "my notes" <> []) as B by discriminate.
  assert (lit "pdf" <> []) as NE by discriminate.
  assert (forallb notSlashOrDot (lit "pdf") = true) as E by reflexivity.
  split; [exact B|]. split; [exact NE|]. split; [exact E|].
  exact (proj1 (download_name_drops_the_extension _ _ B NE E)).
Defined.

End FileNameProps.

(** ** Reading the stored sets *)

Module StorageProps.

Import Flashcards Pdf Library Storage Properties.

Section Reading.

Variable Num : Type.
Variable numberText : Num -> jsString.
Variable numberIsZero : Num -> bool.
Variable jsonParse : jsString -> option (Json Num).
Variable timeOf : jsString -> option Z.
Variable ids : nat -> jsString.
Variable clock : nat -> jsString.

Local Abbreviation toText := (Storage.toText Num numberText).
Local Abbreviation textOf := (Storage.textOf Num numberText).
Local Abbreviation cardOf := (Storage.cardOf Num numberText numberIsZero ids).
Local Abbreviation cardsOf :=
  (Storage.cardsOf Num numberText numberIsZero ids).
Local Abbreviation keptCards :=
  (Storage.keptCards Num numberText numberIsZero ids).
Local Abbreviation setOf :=
  (Storage.setOf Num numberText numberIsZero timeOf ids clock).
Local Abbreviation setsOf :=
  (Storage.setsOf Num numberText numberIsZero timeOf ids clock).
Local Abbreviation hydrateStoredSets :=
  (Storage.hydrateStoredSets Num numberText numberIsZero jsonParse timeOf ids
     clock).
Local Abbreviation migrateLegacyCards :=
  (Storage.migrateLegacyCards Num numberText numberIsZero jsonParse ids clock).

Lemma trimmed_text (s : jsString) :
  isEmpty (trim s) = false -> isStoredText (trim s).
Proof.
  intros E. split; [|apply JsFacts.trim_idem].
  intros H. now rewrite H in E.
Qed.

Lemma cardOf_trimmed (item : Json Num) (e e' : Env) (c : Flashcard) :
  cardOf item e = Some (c, e') ->
  trim (question c) = question c /\ trim (answer c) = answer c.
Proof.
  unfold Storage.cardOf. destruct (idOf Num ids _ e) as [i e1].
  destruct (textOf (get (lit "question") item)) as [q|]; [|discriminate].
  destruct (textOf (get (lit "answer") item)) as [a|]; [|discriminate].
  cbn. intros [= <- _]. cbn [question answer].
  split; apply JsFacts.trim_idem.
Qed.

Lemma cardsOf_trimmed (items : list (Json Num)) (e : Env)
      (r : list Flashcard * Env) :
  cardsOf items e = Some r ->
  Forall (fun c => trim (question c) = question c
                   /\ trim (answer c) = answer c) (fst r).
Proof.
  revert e r. induction items as [|item rest IH]; intros e r.
  - intros [= <-]. constructor.
  - cbn [Storage.cardsOf]. destruct (cardOf item e) as [[c e1]|] eqn:C;
      [|discriminate]. cbn.
    destruct (cardsOf rest e1) as [r2|] eqn:R; [|discriminate]. cbn.
    intros [= <-]. cbn [fst]. constructor.
    + exact (cardOf_trimmed _ _ _ _ C).
    + exact (IH _ _ R).
Qed.

Lemma keptCards_kept (items : list (Json Num)) (e : Env)
      (r : list Flashcard * Env) :
  keptCards items e = Some r -> Forall isKeptCard (fst r).
Proof.
  unfold Storage.keptCards.
  destruct (cardsOf _ e) as [r1|] eqn:C; [|discriminate]. cbn.
  intros [= <-]. cbn [fst].
  pose proof (cardsOf_trimmed _ _ _ C) as T.
  induction T as [|c l [Tq Ta] _ IH]; [constructor|].
  cbn [List.filter]. destruct (hasTexts c) eqn:H; [|exact IH].
  constructor; [|exact IH].
  unfold hasTexts in H. apply andb_true_iff in H as [Hq Ha].
  apply negb_true_iff in Hq, Ha.
  split; (split; [|assumption]); intros N.
  - now rewrite N in Hq.
  - now rewrite N in Ha.
Qed.

Lemma cardsOf_clock (items : list (Json Num)) (e : Env)
      (r : list Flashcard * Env) :
  cardsOf items e = Some r -> clockReads (snd r) = clockReads e.
Proof.
  revert e r. induction items as [|item rest IH]; intros e r.
  - now intros [= <-].
  - cbn [Storage.cardsOf]. destruct (cardOf item e) as [[c e1]|] eqn:C;
      [|discriminate]. cbn.
    destruct (cardsOf rest e1) as [r2|] eqn:R; [|discriminate]. cbn.
    intros [= <-]. cbn [snd]. rewrite (IH _ _ R).
    revert C. unfold Storage.cardOf, idOf, drawId.
    destruct (textOf (get (lit "question") item)),
      (textOf (get (lit "answer") item)),
      (get (lit "id") item) as [[| | |s| |]|]; cbn; try discriminate;
      now intros [= _ <-].
Qed.

Lemma importedPdf_text : isStoredText (lit "Imported PDF").
Proof. split; [discriminate|reflexivity]. Qed.

Lemma setOf_kept (item : Json Num) (e e' : Env) (set : FlashcardSet) :
  (forall k, timeOf (clock k) <> None) ->
  setOf item e = Some (Some set, e') -> isKeptSet timeOf set.
Proof.
  intros Clock. unfold Storage.setOf.
  destruct (negb (isObjectLike item)); [discriminate|].
  destruct (keptCards _ e) as [r|] eqn:K; [|discriminate]. cbn.
  pose proof (keptCards_kept _ _ _ K) as F.
  destruct (length (fst r) =? 0)%nat eqn:L; [discriminate|].
  apply Nat.eqb_neq in L.
  set (dated := match get (lit "importedAt") item with
                | Some (JString s) =>
                    if parsesAsDate timeOf s then (s, snd r)
                    else readClock clock (snd r)
                | _ => readClock clock (snd r)
                end).
  assert (timeOf (fst dated) <> None) as D.
  { subst dated. destruct (get (lit "importedAt") item) as [[| | |s| |]|];
      try apply Clock.
    unfold parsesAsDate. destruct (timeOf s) eqn:T; [|apply Clock].
    cbn [fst]. congruence. }
  destruct dated as [at_ e2]. cbn [fst] in D.
  set (named := match get (lit "name") item with
                | Some (JString s) =>
                    if isEmpty (trim s) then lit "Imported PDF" else trim s
                | _ => lit "Imported PDF"
                end).
  assert (isStoredText named) as N.
  { subst named. destruct (get (lit "name") item) as [[| | |s| |]|];
      try apply importedPdf_text.
    destruct (isEmpty (trim s)) eqn:E; [apply importedPdf_text|].
    now apply trimmed_text. }
  destruct (idOf Num ids _ e2) as [i e3].
  intros [= <- _]. unfold isKeptSet. cbn [name setCards importedAt].
  repeat split; try apply N; try assumption.
  intros H. now rewrite H in L.
Qed.

Lemma setsOf_kept (items : list (Json Num)) (e : Env)
      (r : list FlashcardSet * Env) :
  (forall k, timeOf (clock k) <> None) ->
  setsOf items e = Some r -> Forall (isKeptSet timeOf) (fst r).
Proof.
  intros Clock. revert e r.
  induction items as [|item rest IH]; intros e r.
  - intros [= <-]. constructor.
  - cbn [Storage.setsOf]. destruct (setOf item e) as [[o e1]|] eqn:S;
      [|discriminate]. cbn.
    destruct (setsOf rest e1) as [r2|] eqn:R; [|discriminate]. cbn.
    intros [= <-]. cbn [fst]. specialize (IH _ _ R).
    destruct o as [set|]; [|exact IH].
    constructor; [|exact IH]. exact (setOf_kept _ _ _ _ Clock S).
Qed.

Lemma kept_hasTime (sets : list FlashcardSet) :
  Forall (isKeptSet timeOf) sets -> forallb (hasTime timeOf) sets = true.
Proof.
  induction 1 as [|set l (_ & _ & _ & T) _ IH]; [reflexivity|].
  cbn [forallb]. rewrite IH. unfold hasTime.
  now destruct (timeOf (importedAt set)).
Qed.

Lemma orderSets_kept (sets : list FlashcardSet) :
  Forall (isKeptSet timeOf) sets ->
  exists sorted, orderSets timeOf sets = Some sorted
                 /\ sorted ≡ₚ sets
                 /\ Forall (isKeptSet timeOf) sorted
                 /\ newestFirst timeOf sorted
                 /\ (newestFirst timeOf sets -> sorted = sets).
Proof.
  intros F. pose proof (kept_hasTime sets F) as V.
  exists (fold_right (insertSet timeOf) [] sets).
  unfold orderSets. rewrite V, orb_true_r.
  split; [reflexivity|]. split; [apply LibraryProps.sort_perm|].
  split; [|split]. 
  - now rewrite (LibraryProps.sort_perm timeOf sets).
  - now apply LibraryProps.sort_sorted.
  - apply LibraryProps.sort_fixed.
Qed.

(** X20: when the clock gives dates, [hydrateStoredSets] returns, for every
    stored value, sets as the program keeps them: each has a name and
    an import date that reads as a date, and at least one card; each card
    has a question and an answer, non-empty and trimmed; the sets are
    ordered from the newest to the oldest. *)
Theorem hydrated_sets_are_kept_sets (value : option jsString) :
  (forall k, timeOf (clock k) <> None) ->
  exists sets,
    hydrateStoredSets value = Some sets
    /\ Forall (isKeptSet timeOf) sets
    /\ newestFirst timeOf sets.
Proof.
  intros Clock.
  assert (exists sets : list FlashcardSet,
            Some (@nil FlashcardSet) = Some sets
            /\ Forall (isKeptSet timeOf) sets /\ newestFirst timeOf sets)
    as Empty by (exists []; repeat split; constructor).
  unfold Storage.hydrateStoredSets.
  destruct value as [text|]; [|exact Empty].
  destruct (isEmpty text); [exact Empty|].
  destruct (jsonParse text) as [[| | | |items|]|]; try exact Empty.
  destruct (setsOf items _) as [r|] eqn:S; [|exact Empty].
  pose proof (setsOf_kept _ _ _ Clock S) as F.
  destruct (orderSets_kept _ F) as (sorted & -> & _ & K & N & _).
  exists sorted. auto.
Qed.

Lemma cardOf_cardJson (c : Flashcard) (e : Env) :
  isKeptCard c -> cardOf (cardJson c) e = Some (c, e).
Proof.
  intros [[_ Tq] [_ Ta]]. destruct c as [i q a l].
  cbn [question answer] in Tq, Ta.
  change (cardOf (cardJson (mkCard i q a l)) e)
    with (Some (mkCard i (trim q) (trim a) l, e)).
  now rewrite Tq, Ta.
Qed.

Lemma cardsOf_cardJson (cards : list Flashcard) (e : Env) :
  Forall isKeptCard cards ->
  cardsOf (List.filter isObjectLike (map cardJson cards)) e = Some (cards, e).
Proof.
  induction 1 as [|c l K _ IH]; [reflexivity|].
  cbn [map List.filter]. change (isObjectLike (cardJson c)) with true.
  cbn match. cbn [Storage.cardsOf]. rewrite (cardOf_cardJson c e K). cbn.
  now rewrite IH.
Qed.

Lemma keptCards_cardJson (cards : list Flashcard) (e : Env) :
  Forall isKeptCard cards ->
  keptCards (map cardJson cards) e = Some (cards, e).
Proof.
  intros F. unfold Storage.keptCards. rewrite (cardsOf_cardJson cards e F).
  cbn. do 2 f_equal.
  induction F as [|c l [[Nq _] [Na _]] _ IH]; [reflexivity|].
  cbn [List.filter]. unfold hasTexts at 1.
  destruct (question c); [congruence|]. destruct (answer c); [congruence|].
  cbn. now rewrite IH.
Qed.

Lemma setOf_setJson (set : FlashcardSet) (e : Env) :
  isKeptSet timeOf set -> setOf (setJson set) e = Some (Some set, e).
Proof.
  intros ([Nn Tn] & NE & F & T). destruct set as [i n d cards].
  cbn [name setCards importedAt] in *.
  unfold Storage.setOf.
  change (isObjectLike (setJson (mkSet i n d cards))) with true.
  change (get (lit "cards") (setJson (mkSet i n d cards)))
    with (Some (JArray (map (@cardJson Num) cards))).
  change (get (lit "importedAt") (setJson (mkSet i n d cards)))
    with (Some (@JString Num d)).
  change (get (lit "name") (setJson (mkSet i n d cards)))
    with (Some (@JString Num n)).
  change (get (lit "id") (setJson (mkSet i n d cards)))
    with (Some (@JString Num i)).
  cbn [negb]. rewrite (keptCards_cardJson cards e F). cbn.
  destruct cards as [|c l]; [congruence|]. cbn [length Nat.eqb].
  unfold parsesAsDate. destruct (timeOf d); [|congruence].
  rewrite Tn. destruct n; [congruence|]. reflexivity.
Qed.

Lemma setsOf_setsJson (sets : list FlashcardSet) (e : Env) :
  Forall (isKeptSet timeOf) sets ->
  setsOf (map setJson sets) e = Some (sets, e).
Proof.
  induction 1 as [|set l K _ IH]; [reflexivity|].
  cbn [map Storage.setsOf]. rewrite (setOf_setJson set e K). cbn.
  now rewrite IH.
Qed.

(** X21: sets as the program keeps them come back from the store as they
    were written, whatever the random source and the clock: the same ids,
    names, dates, cards and learned marks, in the order of [orderSets];
    sets written from the newest to the oldest come back in the order they
    were written in. *)
Theorem stored_sets_come_back (value : jsString) (sets : list FlashcardSet) :
  value <> [] ->
  jsonParse value = Some (setsJson sets) ->
  Forall (isKeptSet timeOf) sets ->
  hydrateStoredSets (Some value) = orderSets timeOf sets
  /\ (exists sorted, hydrateStoredSets (Some value) = Some sorted
                     /\ sorted ≡ₚ sets)
  /\ (newestFirst timeOf sets -> hydrateStoredSets (Some value) = Some sets).
Proof.
  intros NE P F.
  assert (hydrateStoredSets (Some value) = orderSets timeOf sets) as H.
  { unfold Storage.hydrateStoredSets. destruct value; [congruence|].
    cbn [isEmpty]. rewrite P. unfold setsJson.
    now rewrite (setsOf_setsJson sets _ F). }
  destruct (orderSets_kept sets F) as (sorted & O & Perm & _ & _ & Fix).
  split; [exact H|]. rewrite H, O. split; [eauto|].
  intros N. now rewrite (Fix N).
Qed.

Lemma textOf_hasNoText (v : Json Num) :
  hasNoText v -> textOf (Some v) = None.
Proof. intros (fields & -> & H). cbn. now rewrite H. Qed.

Lemma cardOf_throws (card : Json Num) (v : Json Num) (e : Env) :
  (get (lit "question") card = Some v \/ get (lit "answer") card = Some v) ->
  hasNoText v -> cardOf card e = None.
Proof.
  intros G H. unfold Storage.cardOf. destruct (idOf Num ids _ e) as [i e1].
  destruct G as [-> | ->].
  - now rewrite (textOf_hasNoText v H).
  - rewrite (textOf_hasNoText v H).
    now destruct (textOf (get (lit "question") card)).
Qed.

Lemma cardsOf_throws (items : list (Json Num)) (card : Json Num) :
  In card items -> (forall e, cardOf card e = None) ->
  forall e, cardsOf items e = None.
Proof.
  intros I T. induction items as [|x rest IH]; [destruct I|]. intros e.
  cbn [Storage.cardsOf]. destruct I as [->|I].
  - now rewrite T.
  - destruct (cardOf x e) as [[c e1]|]; [|reflexivity]. cbn.
    now rewrite (IH I).
Qed.

Lemma get_object (key : jsString) (item v : Json Num) :
  get key item = Some v -> isObjectLike item = true.
Proof. destruct item; try discriminate; reflexivity. Qed.

Lemma keptCards_throws (items : list (Json Num)) (card v : Json Num) :
  In card items ->
  (get (lit "question") card = Some v \/ get (lit "answer") card = Some v) ->
  hasNoText v ->
  forall e, keptCards items e = None.
Proof.
  intros I G H e. unfold Storage.keptCards.
  rewrite (cardsOf_throws (List.filter isObjectLike items) card);
    [reflexivity| |].
  - apply filter_In. split; [exact I|].
    destruct G as [G|G]; exact (get_object _ _ _ G).
  - intros e'. exact (cardOf_throws card v e' G H).
Qed.

Lemma setsOf_throws (items : list (Json Num)) (item : Json Num) :
  In item items -> (forall e, setOf item e = None) ->
  forall e, setsOf items e = None.
Proof.
  intros I T. induction items as [|x rest IH]; [destruct I|]. intros e.
  cbn [Storage.setsOf]. destruct I as [->|I].
  - now rewrite T.
  - destruct (setOf x e) as [[o e1]|]; [|reflexivity]. cbn.
    now rewrite (IH I).
Qed.

(** X22: one stored card whose question or answer is an object with a
    property [toString] of its own makes [hydrateStoredSets] return no set
    at all, whatever else is stored: the [TypeError] of the call is caught
    around the whole list. *)
Theorem one_unreadable_card_loses_every_set
        (value : jsString) (items cards : list (Json Num))
        (item card v : Json Num) :
  value <> [] ->
  jsonParse value = Some (JArray items) ->
  In item items ->
  get (lit "cards") item = Some (JArray cards) ->
  In card cards ->
  (get (lit "question") card = Some v \/ get (lit "answer") card = Some v) ->
  hasNoText v ->
  hydrateStoredSets (Some value) = Some [].
Proof.
  intros NE P I C I' G H. unfold Storage.hydrateStoredSets.
  destruct value; [congruence|]. cbn [isEmpty]. rewrite P.
  rewrite (setsOf_throws items item I); [reflexivity|].
  intros e. unfold Storage.setOf. rewrite (get_object _ _ _ C), C. cbn [negb].
  now rewrite (keptCards_throws cards card v I' G H).
Qed.

(** X23: [migrateLegacyCards] returns no set or one set: the set is named
    [Imported Flashcards], is dated by the first reading of the clock and
    has at least one card, each with a question and an answer that are
    non-empty and trimmed; a list of kept cards as the program wrote it
    becomes the set of exactly those cards, with the first id. *)
Theorem legacy_cards_become_one_set (value : option jsString) :
  (migrateLegacyCards value = []
   \/ exists n cards,
        migrateLegacyCards value
        = [mkSet (ids n) (lit "Imported Flashcards") (clock 0) cards]
        /\ cards <> [] /\ Forall isKeptCard cards)
  /\ (forall text cards,
        value = Some text -> text <> [] ->
        jsonParse text = Some (JArray (map cardJson cards)) ->
        cards <> [] -> Forall isKeptCard cards ->
        migrateLegacyCards value
        = [mkSet (ids 0) (lit "Imported Flashcards") (clock 0) cards]).
Proof.
  split.
  - unfold Storage.migrateLegacyCards.
    destruct value as [text|]; [|now left].
    destruct (isEmpty text); [now left|].
    destruct (jsonParse text) as [[| | | |items|]|]; try now left.
    destruct (keptCards items _) as [[cards e]|] eqn:K; [|now left].
    pose proof (keptCards_kept _ _ _ K) as F. cbn [fst snd] in *.
    destruct cards as [|c l]; [now left|]. right.
    exists (idsDrawn e), (c :: l). cbn. split; [|split]; try assumption.
    + f_equal. f_equal. f_equal. unfold Storage.keptCards in K.
      destruct (cardsOf _ _) as [r|] eqn:C; [|discriminate].
      cbn in K. injection K as _ <-.
      exact (cardsOf_clock _ _ _ C).
    + discriminate.
  - intros text cards -> NE P NC F. unfold Storage.migrateLegacyCards.
    destruct text; [congruence|]. cbn [isEmpty]. rewrite P.
    rewrite (keptCards_cardJson cards _ F). cbn [fst snd].
    destruct cards; [congruence|]. reflexivity.
Qed.

End Reading.

Lemma hydrated_sets_are_kept_sets_witness :
  let timeOf := fun s : jsString => Some (Z.of_nat (length s)) in
  let clock := fun _ : nat => lit "2026-11-02T13:03:00.000Z" in
  let stored : Json nat :=
    JArray [JObject [(lit "cards",
                      JArray [JObject [(lit "question", JNumber 7%nat);
                                       (lit "answer",
                                        JString (lit " seven "))]])]] in
  (forall k, timeOf (clock k) <> None)
  /\ Storage.hydrateStoredSets nat decimal (Nat.eqb 0)
       (fun _ => Some stored) timeOf decimal clock (Some (lit "stored"))
     = Some [mkSet (lit "1") (lit "Imported PDF")
               (lit "2026-11-02T13:03:00.000Z")
               [mkCard (lit "0") (lit "7") (lit "seven") false]].
Proof.
  intros timeOf clock stored.
  assert (forall k, timeOf (clock k) <> None) as Clock by discriminate.
  split; [exact Clock|].
  destruct (hydrated_sets_are_kept_sets nat decimal (Nat.eqb 0)
              (fun _ => Some stored) timeOf decimal clock
              (Some (lit "stored")) Clock) as (sets & H & _).
  rewrite H. vm_compute in H. symmetry. exact H.
Defined.

Lemma stored_sets_come_back_witness :
  let timeOf := fun s : jsString => Some (Z.of_nat (length s)) in
  let sets := [mkSet (lit "s") (lit "Notes") (lit "2026-11-02")
                 [mkCard (lit "c") (lit "q") (lit "a") true]] in
  lit "stored" <> []
  /\ Forall (isKeptSet timeOf) sets
  /\ Storage.hydrateStoredSets nat decimal (Nat.eqb 0)
       (fun _ => Some (setsJson sets)) timeOf decimal decimal
       (Some (lit "stored"))
     = Some sets.
Proof.
  intros timeOf sets.
  assert (lit "stored" <> []) as NE by discriminate.
  assert (Forall (isKeptSet timeOf) sets) as F.
  { repeat constructor; discriminate. }
  split; [exact NE|]. split; [exact F|].
  exact (proj2 (proj2 (stored_sets_come_back nat decimal (Nat.eqb 0)
                         (fun _ => Some (setsJson sets)) timeOf decimal
                         decimal (lit "stored") sets NE eq_refl F)) I).
Defined.

Lemma one_unreadable_card_loses_every_set_witness :
  let timeOf := fun s : jsString => Some (Z.of_nat (length s)) in
  let kept := mkSet (lit "s") (lit "Notes") (lit "2026-11-02")
                [mkCard (lit "c") (lit "q") (lit "a") true] in
  let unreadable : Json nat := JObject [(lit "toString", JNull)] in
  let card : Json nat :=
    JObject [(lit "question", unreadable); (lit "answer", JString (lit "a"))] in
  let item : Json nat := JObject [(lit "cards", JArray [card])] in
  hasNoText unreadable
  /\ Storage.hydrateStoredSets nat decimal (Nat.eqb 0)
       (fun _ => Some (JArray [setJson kept; item])) timeOf decimal decimal
       (Some (lit "stored"))
     = Some [].
Proof.
  intros timeOf kept unreadable card item.
  assert (hasNoText unreadable) as H.
  { exists [(lit "toString", JNull)]. split; reflexivity. }
  split; [exact H|].
  apply (one_unreadable_card_loses_every_set nat decimal (Nat.eqb 0)
           (fun _ => Some (JArray [setJson kept; item])) timeOf decimal
           decimal (lit "stored") [setJson kept; item] [card] item card
           unreadable).
  - discriminate.
  - reflexivity.
  - right. left. reflexivity.
  - reflexivity.
  - left. reflexivity.
  - left. reflexivity.
  - exact H.
Defined.

Lemma legacy_cards_become_one_set_witness :
  let cards := [mkCard (lit "c") (lit "q") (lit "a") true] in
  Forall isKeptCard cards
  /\ Storage.migrateLegacyCards nat decimal (Nat.eqb 0)
       (fun _ => Some (JArray (map cardJson cards))) decimal
       (fun _ => lit "2026-11-02T13:03:00.000Z") (Some (lit "stored"))
     = [mkSet (lit "0") (lit "Imported Flashcards")
          (lit "2026-11-02T13:03:00.000Z") cards].
Proof.
  intros cards.
  assert (Forall isKeptCard cards) as F.
  { repeat constructor; discriminate. }
  split; [exact F|].
  apply (proj2 (legacy_cards_become_one_set nat decimal (Nat.eqb 0)
                  (fun _ => Some (JArray (map cardJson cards))) decimal
                  (fun _ => lit "2026-11-02T13:03:00.000Z")
                  (Some (lit "stored")))
           (lit "stored") cards eq_refl).
  - discriminate.
  - reflexivity.
  - discriminate.
  - exact F.
Defined.

End StorageProps.
